(** * Crime-analysis dashboard: the predictive pipeline of [streamlit_app.py]

    A shallow embedding of [load_data] (the cleaning part), [train_model] and
    the prediction tab of [main], together with the properties of the
    specification that concern them.

    Conventions.
    - A pandas frame is a list of column names and a list of rows; a cell is
      a text or a 64-bit float, a missing value being the float NaN as in
      pandas.
    - Floats are [spec_float] at precision 53 and exponent bound 1024, with
      the standard library's own arithmetic ([SFadd], [SFmul], ...).
    - Python exceptions are the constructors of [exn]; a computation that may
      raise returns a [result].
    - scikit-learn objects and numpy's process-wide generator are mutable:
      their methods take the object and return it next to the answer. *)

From Stdlib Require Import ZArith List String Ascii Bool Lia PeanoNat.
From Stdlib Require Import Floats.SpecFloat.
From Stdlib Require Import Sorting.Sorted.
From Stdlib Require OrderedTypeEx.
From stdpp Require Import base gmap strings.
Import ListNotations.

Local Open Scope string_scope.
Local Open Scope list_scope.
Local Open Scope nat_scope.

(* ===================================================================== *)
(** ** Exceptions *)

Inductive exn : Type :=
| KeyError        (* a column label, or position 0 of an empty Series, is absent *)
| TypeError       (* a frame where a Series is expected; text where a number is *)
| AttributeError  (* [.str] on a frame *)
| EmptyInput      (* ValueError: found array with 0 samples *)
| NonFinite       (* ValueError: input contains infinity or NaN *)
| UnseenLabel     (* ValueError: y contains previously unseen labels *)
| OverflowError   (* numpy: range exceeds valid bounds *)
| LengthMismatch  (* ValueError: all arrays must be of the same length *)
| NotFitted       (* NotFittedError: the estimator has no fitted attributes *)
| ValueError.     (* any other ValueError: a text where a number is read, a
                     frame where a column is expected *)

Inductive result (A : Type) : Type :=
| Ok (a : A)
| Err (e : exn).
Arguments Ok {A} a.
Arguments Err {A} e.

Definition bind {A B} (r : result A) (k : A -> result B) : result B :=
  match r with
  | Ok a => k a
  | Err e => Err e
  end.

Declare Scope result_scope.
Delimit Scope result_scope with result.
Notation "x <- e ;; k" := (bind e (fun x => k))
  (at level 100, e at next level, right associativity) : result_scope.
Local Open Scope result_scope.

Definition is_ok {A} (r : result A) : bool :=
  match r with Ok _ => true | Err _ => false end.

(** [r] is a value, and [P] holds of it. *)
Definition holds_on {A} (r : result A) (P : A -> Prop) : Prop :=
  match r with
  | Ok a => P a
  | Err _ => False
  end.

(** [mapM f l] runs [f] over [l] left to right and stops at the first error. *)
Fixpoint mapM {A B} (f : A -> result B) (l : list A) : result (list B) :=
  match l with
  | [] => Ok []
  | a :: l' => b <- f a ;; bs <- mapM f l' ;; Ok (b :: bs)
  end.

(* ===================================================================== *)
(** ** 64-bit floats *)

Definition prec : Z := 53.
Definition emax : Z := 1024.

Abbreviation float64 := spec_float.

Definition nan : float64 := S754_nan.
Definition fzero : float64 := S754_zero false.

Definition is_nan (x : float64) : bool :=
  match x with S754_nan => true | _ => false end.

Definition is_inf (x : float64) : bool :=
  match x with S754_infinity _ => true | _ => false end.

(** [numpy.isfinite]. *)
Definition is_finite (x : float64) : bool :=
  match x with
  | S754_zero _ | S754_finite _ _ _ => true
  | _ => false
  end.

Definition fadd : float64 -> float64 -> float64 := SFadd prec emax.
Definition fsub : float64 -> float64 -> float64 := SFsub prec emax.
Definition fmul : float64 -> float64 -> float64 := SFmul prec emax.
Definition fdiv : float64 -> float64 -> float64 := SFdiv prec emax.
Definition fltb : float64 -> float64 -> bool := SFltb.
Definition fleb : float64 -> float64 -> bool := SFleb.

(** Python's [==] on floats: NaN differs from everything, the two zeros are
    equal. *)
Definition feqb : float64 -> float64 -> bool := SFeqb.

(** The integer [k] times [2^e], rounded to nearest even. *)
Definition float_of_Z_scaled (k e : Z) : float64 :=
  binary_normalize prec emax k e false.

Definition float_of_nat (n : nat) : float64 :=
  float_of_Z_scaled (Z.of_nat n) 0.

(** *** Floats as integers

    A finite binary64 is [m * 2^e] with [-1074 <= e]; multiplied by
    [2^bias] it is an integer, and so are the exact sums, differences and
    products the rounding steps below start from. *)

Section FloatValues.
Local Open Scope Z_scope.

Definition bias : Z := 1200.

Definition canonical (m : positive) (e : Z) : Prop :=
  canonical_mantissa prec emax m e = true.

Definition valid_float (x : float64) : Prop := valid_binary prec emax x = true.

Definition magnitude (m : positive) (e : Z) : Z := Zpos m * 2 ^ (e + bias).

(** The value of a finite float, times [2^bias]. *)
Definition scaled (x : float64) : Z :=
  match x with
  | S754_finite s m e => cond_Zopp s (magnitude m e)
  | _ => 0
  end.

(** The scaled values the format holds, whatever the exponent. *)
Definition representable (v : Z) : Prop :=
  v = 0 \/ exists m e, canonical m e /\ Z.abs v = magnitude m e.

Definition nearest_to (X v : Z) : Prop :=
  forall r, representable r -> Z.abs (v - X) <= Z.abs (r - X).

(** [z] is the exact [X] rounded: a nearest float, or an infinity when [X]
    is beyond every float. *)
Definition rounds_to (X : Z) (z : float64) : Prop :=
  valid_float z /\
  ((is_finite z = true /\ nearest_to X (scaled z)) \/
   (is_finite z = false /\ forall f, valid_float f -> Z.abs (scaled f) < Z.abs X)).

(** The mantissa [2^53 - 1]. *)
Definition largest_mantissa : positive := 9007199254740991.

(** What [k / 2^53] looks like as a float, for [0 <= k < 2^53]. *)
Definition unit_draw (u : float64) : Prop :=
  u = S754_zero false \/
  exists mu eu, u = S754_finite false mu eu /\ -105 <= eu <= -53 /\
    2 ^ 52 <= Zpos mu /\ Zpos mu + 2 ^ (- eu - 53) <= 2 ^ (- eu).

(** Where a remainder [r] lies in a step [t]. *)
Definition remainder_place (r t : Z) : location :=
  if r =? 0 then loc_Exact else loc_Inexact (Z.compare (2 * r) t).

(** [mrs] is [x] shifted right by [c] places, with what fell off. *)
Definition tracks (x c : Z) (mrs : shr_record) : Prop :=
  shr_m mrs = x / 2 ^ c /\ loc_of_shr_record mrs = remainder_place (x mod 2 ^ c) (2 ^ c).

(** The two normalising shifts of [binary_round_aux] and the rounding
    between them. *)
Definition round_core (mx ex : Z) : Z * Z :=
  let '(mrs', e') := shr_fexp prec emax mx ex loc_Exact in
  let '(mrs'', e'') :=
    shr_fexp prec emax (round_nearest_even (shr_m mrs') (loc_of_shr_record mrs')) e'
      loc_Exact in
  (shr_m mrs'', e'').

End FloatValues.

(* ===================================================================== *)
(** ** Text *)

(** Python's [str.isspace] on the ASCII range: tab to carriage return, the
    four separators 0x1c-0x1f, and the space. *)
Definition is_space (c : ascii) : bool :=
  let n := nat_of_ascii c in
  ((9 <=? n) && (n <=? 13)) || ((28 <=? n) && (n <=? 32)).

(** [str.lower] on the ASCII range. *)
Definition lower_char (c : ascii) : ascii :=
  let n := nat_of_ascii c in
  if (65 <=? n) && (n <=? 90) then ascii_of_nat (n + 32) else c.

(** [.replace(' ', '_')], one character at a time. *)
Definition underscore_char (c : ascii) : ascii :=
  if Ascii.eqb c " "%char then "_"%char else c.

Fixpoint dropwhile {A} (p : A -> bool) (l : list A) : list A :=
  match l with
  | [] => []
  | a :: l' => if p a then dropwhile p l' else l
  end.

(** [str.strip()]: leading, then trailing white space. *)
Definition strip_chars (l : list ascii) : list ascii :=
  rev (dropwhile is_space (rev (dropwhile is_space l))).

Definition strip (s : string) : string :=
  string_of_list_ascii (strip_chars (list_ascii_of_string s)).

Definition map_string (f : ascii -> ascii) (s : string) : string :=
  string_of_list_ascii (List.map f (list_ascii_of_string s)).

Definition lower (s : string) : string := map_string lower_char s.

Definition replace_space (s : string) : string := map_string underscore_char s.

(** Line 34: [df.columns.str.strip().str.lower().str.replace(' ', '_')]. *)
Definition normalize_name (s : string) : string :=
  replace_space (lower (strip s)).

(* ===================================================================== *)
(** ** Frames *)

Inductive cell : Type :=
| CStr (s : string)
| CNum (x : float64).

Definition row : Type := list cell.

Record DataFrame : Type := mkFrame {
  columns : list string;
  rows : list row
}.

(** [pandas.isna] of a cell. *)
Definition isna (c : cell) : bool :=
  match c with
  | CNum x => is_nan x
  | CStr _ => false
  end.

(** Equality as pandas' hash tables see it: texts by content, floats by
    [==] with all NaN alike, a text never equal to a float. *)
Definition cell_eqb (a b : cell) : bool :=
  match a, b with
  | CStr s, CStr t => String.eqb s t
  | CNum x, CNum y => feqb x y || (is_nan x && is_nan y)
  | _, _ => false
  end.

(** The cell of a row at a column position; a row too short reads as
    missing. *)
Definition get (i : nat) (r : row) : cell := nth i r (CNum nan).

(** [update i f r] rewrites position [i] of [r] with [f]; a position out of
    range leaves the row alone. *)
Fixpoint update (i : nat) (f : cell -> cell) (r : row) {struct r} : row :=
  match r, i with
  | [], _ => []
  | c :: r', O => f c :: r'
  | c :: r', S i' => c :: update i' f r'
  end.

(** All positions at which [name] occurs among the column labels. *)
Fixpoint positions_from (k : nat) (name : string) (cols : list string) : list nat :=
  match cols with
  | [] => []
  | c :: cols' =>
      if String.eqb c name then k :: positions_from (S k) name cols'
      else positions_from (S k) name cols'
  end.

Definition positions (name : string) (cols : list string) : list nat :=
  positions_from 0 name cols.

(** [df[name]] used as a Series: the label must exist, and name one column
    only; with a repeated label pandas hands back a frame, on which the
    call that follows fails with [dup]. *)
Definition series_position (dup : exn) (name : string) (df : DataFrame) : result nat :=
  match positions name (columns df) with
  | [] => Err KeyError
  | [i] => Ok i
  | _ => Err dup
  end.

Definition column_at (i : nat) (df : DataFrame) : list cell :=
  List.map (get i) (rows df).

Definition map_column (i : nat) (f : cell -> cell) (df : DataFrame) : DataFrame :=
  mkFrame (columns df) (List.map (update i f) (rows df)).

(** Texts, keys and rows compared position by position. *)
Fixpoint key_eqb (a b : list cell) : bool :=
  match a, b with
  | [], [] => true
  | x :: a', y :: b' => cell_eqb x y && key_eqb a' b'
  | _, _ => false
  end.

(** [df.dropna(subset=names)]: every label must exist; a row goes when any
    of the named cells is missing. *)
Definition subset_positions (names : list string) (df : DataFrame) : result (list nat) :=
  if forallb (fun n => negb (Nat.eqb (length (positions n (columns df))) 0)) names
  then Ok (concat (List.map (fun n => positions n (columns df)) names))
  else Err KeyError.

Definition complete (ps : list nat) (r : row) : bool :=
  forallb (fun i => negb (isna (get i r))) ps.

Definition dropna (names : list string) (df : DataFrame) : result DataFrame :=
  ps <- subset_positions names df ;;
  Ok (mkFrame (columns df) (List.filter (complete ps) (rows df))).

(** [df.drop_duplicates(subset=names)]: the first row of every key stays. *)
Fixpoint keep_first (key : row -> list cell) (seen : list (list cell)) (rs : list row)
  : list row :=
  match rs with
  | [] => []
  | r :: rs' =>
      if existsb (key_eqb (key r)) seen then keep_first key seen rs'
      else r :: keep_first key (key r :: seen) rs'
  end.

Definition key_of (ps : list nat) (r : row) : list cell :=
  List.map (fun i => get i r) ps.

Definition drop_duplicates (names : list string) (df : DataFrame) : result DataFrame :=
  ps <- subset_positions names df ;;
  Ok (mkFrame (columns df) (keep_first (key_of ps) [] (rows df))).

(* ===================================================================== *)
(** ** The loader's cleaning step ([load_data], lines 34-40) *)

Section Loader.

(** [pandas.to_numeric] reads a text as a number, NaN when it is none
    ([errors='coerce']); Python's [str] prints a float. Both are the
    libraries' own and stay abstract. *)
Variable parse_float : string -> float64.
Variable str_of_float : float64 -> string.

Definition to_numeric (c : cell) : cell :=
  match c with
  | CNum x => CNum x
  | CStr s => CNum (parse_float s)
  end.

(** [.astype(str)]. *)
Definition astype_str (c : cell) : string :=
  match c with
  | CStr s => s
  | CNum x => str_of_float x
  end.

Definition strip_cell (c : cell) : cell := CStr (strip (astype_str c)).

Definition rename_columns (df : DataFrame) : DataFrame :=
  mkFrame (List.map normalize_name (columns df)) (rows df).

(** Lines 35-36: [df[name] = pd.to_numeric(df[name], errors='coerce')]. *)
Definition coerce_numeric (name : string) (df : DataFrame) : result DataFrame :=
  i <- series_position TypeError name df ;;
  Ok (map_column i to_numeric df).

(** Line 37: [df[name] = df[name].astype(str).str.strip()]. *)
Definition strip_text (name : string) (df : DataFrame) : result DataFrame :=
  i <- series_position AttributeError name df ;;
  Ok (map_column i strip_cell df).

Definition clean (raw : DataFrame) : result DataFrame :=
  let df := rename_columns raw in
  df <- coerce_numeric "longitude" df ;;
  df <- coerce_numeric "latitude" df ;;
  df <- strip_text "location" df ;;
  df <- dropna ["crime_id"; "crime_type"; "latitude"; "longitude"] df ;;
  drop_duplicates ["crime_id"] df.

(** The three column rewrites of lines 35-37 on one row. *)
Definition coerce_row (ilon ilat iloc : nat) (r : row) : row :=
  update iloc strip_cell (update ilat to_numeric (update ilon to_numeric r)).

Definition required : list string := ["crime_id"; "crime_type"; "latitude"; "longitude"].

Definition required_positions (cols : list string) : list nat :=
  concat (List.map (fun n => positions n cols) required).

Definition id_positions (cols : list string) : list nat :=
  concat (List.map (fun n => positions n cols) ["crime_id"]).

(** The rows [clean] keeps, given where the columns are. *)
Definition clean_rows (cols : list string) (ilon ilat iloc : nat) (rs : list row) : list row :=
  keep_first (key_of (id_positions cols)) []
    (List.filter (complete (required_positions cols))
       (List.map (coerce_row ilon ilat iloc) rs)).

End Loader.

(* ===================================================================== *)
(** ** Label columns *)

(** The label columns of the data set are texts; a missing label is NaN.
    A number in a label column is outside this model: [as_label] refuses
    it, as scikit-learn refuses a column that mixes texts and numbers. *)
Definition label : Type := option string.

Definition as_label (c : cell) : result label :=
  match c with
  | CStr s => Ok (Some s)
  | CNum x => if is_nan x then Ok None else Err TypeError
  end.

Definition cell_of_label (l : label) : cell :=
  match l with
  | Some s => CStr s
  | None => CNum nan
  end.

Definition label_eqb (a b : label) : bool :=
  match a, b with
  | Some s, Some t => String.eqb s t
  | None, None => true
  | _, _ => false
  end.

(** The texts of a column, missing values left out. *)
Fixpoint present (y : list label) : list string :=
  match y with
  | [] => []
  | Some s :: y' => s :: present y'
  | None :: y' => present y'
  end.

Definition count_label (v : label) (y : list label) : nat :=
  length (List.filter (label_eqb v) y).

Definition count_text (s : string) (l : list string) : nat :=
  length (List.filter (String.eqb s) l).

(** [sorted(set(values))]: one copy of every value, then an insertion
    sort. *)
Definition same {A} (cmp : A -> A -> comparison) (a b : A) : bool :=
  match cmp a b with
  | Eq => true
  | _ => false
  end.

(** The values of [l] that are not in [seen], each once, in the order of
    their first occurrence. *)
Fixpoint distinct_from {A} (cmp : A -> A -> comparison) (seen l : list A) : list A :=
  match l with
  | [] => []
  | a :: l' =>
      if existsb (same cmp a) seen then distinct_from cmp seen l'
      else a :: distinct_from cmp (a :: seen) l'
  end.

Definition dedupe {A} (cmp : A -> A -> comparison) (l : list A) : list A :=
  distinct_from cmp [] l.

Fixpoint insert_sorted {A} (cmp : A -> A -> comparison) (a : A) (l : list A) : list A :=
  match l with
  | [] => [a]
  | b :: l' =>
      match cmp a b with
      | Gt => b :: insert_sorted cmp a l'
      | _ => a :: l
      end
  end.

Definition sorted_set {A} (cmp : A -> A -> comparison) (l : list A) : list A :=
  fold_right (insert_sorted cmp) [] (dedupe cmp l).

Definition label_column (name : string) (df : DataFrame) : result (list label) :=
  i <- series_position TypeError name df ;;
  mapM as_label (column_at i df).

(** A numeric column as an array of floats; a text in it is a
    [ValueError] (could not convert string to float). *)
Definition as_float (c : cell) : result float64 :=
  match c with
  | CNum x => Ok x
  | CStr _ => Err ValueError
  end.

Definition numeric_column (name : string) (df : DataFrame) : result (list float64) :=
  i <- series_position ValueError name df ;;
  mapM as_float (column_at i df).

(** [df[name] = values], one value per row. *)
Fixpoint assign_rows (i : nat) (vals : list cell) (rs : list row) {struct rs}
  : list row :=
  match rs, vals with
  | r :: rs', v :: vals' => update i (fun _ => v) r :: assign_rows i vals' rs'
  | _, _ => rs
  end.

Definition assign_column (i : nat) (vals : list cell) (df : DataFrame) : DataFrame :=
  mkFrame (columns df) (assign_rows i vals (rows df)).

(* ===================================================================== *)
(** ** Category Collapser ([train_model], lines 45-46) *)

Definition rare_threshold : nat := 1000.
Arguments rare_threshold : simpl never.

(** [value_counts()]: every text of the column with its number of
    occurrences; missing values are not counted. pandas orders the counts
    downwards; the code only asks which texts are in the index. *)
Definition value_counts (y : list label) : list (string * nat) :=
  List.map (fun s => (s, count_text s (present y))) (sorted_set String.compare (present y)).

(** [vc[vc < 1000].index]. *)
Definition rare_categories (y : list label) : list string :=
  List.map fst (List.filter (fun p => snd p <? rare_threshold) (value_counts y)).

(** [x in rare]: a missing value is in no index of texts. *)
Definition in_index (x : label) (idx : list string) : bool :=
  match x with
  | Some s => existsb (String.eqb s) idx
  | None => false
  end.

(** [lambda x: 'Other' if x in rare else x]. *)
Definition relabel (rare : list string) (x : label) : label :=
  if in_index x rare then Some "Other" else x.

Definition collapse (y : list label) : list label :=
  List.map (relabel (rare_categories y)) y.

(* ===================================================================== *)
(** ** [sklearn.preprocessing.LabelEncoder] *)

Module LabelEncoder.

(** The one fitted attribute, absent until [fit]. *)
Record t : Type := mk { classes_ : option (list label) }.

Definition new : t := mk None.

(** [_unique]: the texts in increasing order, then NaN when the column
    has a missing value. *)
Definition unique (y : list label) : list label :=
  List.map Some (sorted_set String.compare (present y))
  ++ (if existsb (label_eqb None) y then [None] else []).

(** The position of [v] among the classes. *)
Fixpoint index_of (v : label) (classes : list label) : option nat :=
  match classes with
  | [] => None
  | c :: classes' =>
      if label_eqb v c then Some 0
      else match index_of v classes' with
           | Some i => Some (S i)
           | None => None
           end
  end.

Definition encode (classes : list label) (v : label) : result nat :=
  match index_of v classes with
  | Some i => Ok i
  | None => Err UnseenLabel
  end.

Definition decode (classes : list label) (i : nat) : result label :=
  match nth_error classes i with
  | Some v => Ok v
  | None => Err UnseenLabel
  end.

(** [fit_transform(y)] stores the classes and returns the codes. *)
Definition fit_transform (y : list label) (self : t) : result (list nat) * t :=
  let classes := unique y in
  (mapM (encode classes) y, mk (Some classes)).

(** [transform(y)] reads the classes; a value that is not among them
    raises. *)
Definition transform (y : list label) (self : t) : result (list nat) * t :=
  match classes_ self with
  | None => (Err NotFitted, self)
  | Some classes => (mapM (encode classes) y, self)
  end.

(** [inverse_transform(codes)]. *)
Definition inverse_transform (codes : list nat) (self : t) : result (list label) * t :=
  match classes_ self with
  | None => (Err NotFitted, self)
  | Some classes => (mapM (decode classes) codes, self)
  end.

End LabelEncoder.

(* ===================================================================== *)
(** ** [sklearn.preprocessing.StandardScaler] on the two coordinates *)

Module StandardScaler.
Section Statistics.

(** The mean and the scale (the standard deviation, 1 when it is 0) that
scikit-learn computes for one column: its summation order is the
library's own and stays abstract. *)
Variable col_mean : list float64 -> float64.
Variable col_scale : list float64 -> float64.

(** [mean_] and [scale_], one entry per column, absent until [fit]. *)
Record t : Type := mk { fitted : option ((float64 * float64) * (float64 * float64)) }.

Definition new : t := mk None.

(** [check_array]: at least one row, and no infinity (NaN passes). *)
Definition check (X : list (float64 * float64)) : result unit :=
if existsb (fun p => is_inf (fst p) || is_inf (snd p)) X then Err NonFinite
else match X with
   | [] => Err EmptyInput
   | _ => Ok tt
   end.

Definition scale_row (st : (float64 * float64) * (float64 * float64))
(p : float64 * float64) : float64 * float64 :=
let '((m1, m2), (s1, s2)) := st in
(fdiv (fsub (fst p) m1) s1, fdiv (fsub (snd p) m2) s2).

Definition fit_transform (X : list (float64 * float64)) (self : t)
: result (list (float64 * float64)) * t :=
match check X with
| Err e => (Err e, self)
| Ok _ =>
  let st := ((col_mean (List.map fst X), col_mean (List.map snd X)),
             (col_scale (List.map fst X), col_scale (List.map snd X))) in
  (Ok (List.map (scale_row st) X), mk (Some st))
end.

Definition transform (X : list (float64 * float64)) (self : t)
: result (list (float64 * float64)) * t :=
match fitted self with
| None => (Err NotFitted, self)
| Some st =>
  match check X with
  | Err e => (Err e, self)
  | Ok _ => (Ok (List.map (scale_row st) X), self)
  end
end.

End Statistics.
End StandardScaler.

(* ===================================================================== *)
(** ** [sklearn.ensemble.RandomForestClassifier] *)

Module RandomForest.
Section Forest.

(** The 100 trees grown with [random_state=42] and balanced class weights
are a function of the training matrix and target. [vote X y x] is the
position, among the classes of [y], of the class with the largest
averaged probability at [x]; [predict] reduces it modulo the number of
classes, an index into the classes being below their number. The
forest's cast of the matrix to single precision is not modelled. *)
Variable vote : list (list float64) -> list nat -> list float64 -> nat.

(** [classes_] and what the trees were grown from, absent until [fit]. *)
Record t : Type := mk {
fitted : option (list nat * (list (list float64) * list nat))
}.

Definition new : t := mk None.

(** [check_array]: every entry finite, at least one row. *)
Definition check (X : list (list float64)) : result unit :=
if forallb (forallb is_finite) X then
match X with
| [] => Err EmptyInput
| _ => Ok tt
end
else Err NonFinite.

Definition fit (X : list (list float64)) (y : list nat) (self : t) : result unit * t :=
match check X with
| Err e => (Err e, self)
| Ok _ =>
  if Nat.eqb (length X) (length y)
  then (Ok tt, mk (Some (sorted_set Nat.compare y, (X, y))))
  else (Err LengthMismatch, self)
end.

Definition predict_one (classes : list nat) (X : list (list float64)) (y : list nat)
(x : list float64) : nat :=
nth (vote X y x mod length classes) classes 0.

Definition predict (X : list (list float64)) (self : t) : result (list nat) * t :=
match fitted self with
| None => (Err NotFitted, self)
| Some (classes, (X0, y0)) =>
  match check X with
  | Err e => (Err e, self)
  | Ok _ => (Ok (List.map (predict_one classes X0 y0) X), self)
  end
end.

End Forest.
End RandomForest.

(* ===================================================================== *)
(** ** numpy's process-wide generator *)

(** [numpy.random] draws from one Mersenne Twister per process, seeded from
    the operating system when numpy is imported. The program never seeds
    it, so the 32-bit words it will deliver are an input of the run: [words]
    is that sequence and [drawn] counts the words taken so far. *)
Record RandomState : Type := mkRandomState {
  words : N -> Z;
  drawn : N
}.

Definition next_uint32 (g : RandomState) : Z * RandomState :=
  (Z.modulo (words g (drawn g)) (2 ^ 32), mkRandomState (words g) (N.succ (drawn g))).

(** [legacy_double]: 53 random bits from two words, over 2^53. *)
Definition next_double (g : RandomState) : float64 * RandomState :=
  let (a, g1) := next_uint32 g in
  let (b, g2) := next_uint32 g1 in
  (float_of_Z_scaled (Z.shiftr a 5 * 67108864 + Z.shiftr b 6) (-53), g2).

Fixpoint fill (n : nat) (low range : float64) (g : RandomState)
  : list float64 * RandomState :=
  match n with
  | O => ([], g)
  | S n' =>
      let (u, g1) := next_double g in
      let (xs, g2) := fill n' low range g1 in
      (fadd low (fmul range u) :: xs, g2)
  end.

(** [np.random.uniform(low, high, size)]: the range is computed once and
    must be finite; each value is [low + range * next_double]. *)
Definition uniform (low high : float64) (size : nat) (g : RandomState)
  : result (list float64) * RandomState :=
  let range := fsub high low in
  if is_finite range then
    let (xs, g') := fill size low range g in (Ok xs, g')
  else (Err OverflowError, g).

(* ===================================================================== *)
(** ** Series reductions used by [main] *)

(** [Series.min()] and [Series.max()] skip NaN and give NaN on nothing. *)
Definition fmin (a b : float64) : float64 :=
  if is_nan a then b else if is_nan b then a else if fltb b a then b else a.

Definition fmax (a b : float64) : float64 :=
  if is_nan a then b else if is_nan b then a else if fltb a b then b else a.

Definition series_min (l : list float64) : float64 := fold_left fmin l nan.
Definition series_max (l : list float64) : float64 := fold_left fmax l nan.

(** [Series.mode()]: the most frequent texts in increasing order; missing
    values do not take part. *)
Definition max_count (y : list label) : nat :=
  fold_right Nat.max 0 (List.map snd (value_counts y)).

Definition mode (y : list label) : list string :=
  List.map fst (List.filter (fun p => Nat.eqb (snd p) (max_count y)) (value_counts y)).

(** [Series.mode()[0]]: label 0 of an empty Series is a [KeyError]. *)
Definition mode0 (y : list label) : result string :=
  match mode y with
  | [] => Err KeyError
  | s :: _ => Ok s
  end.

(* ===================================================================== *)
(** ** [train_model] *)

Definition features : list string :=
  ["longitude"; "latitude"; "reported_by"; "falls_within"; "last_outcome_category"].

Definition label_features : list string :=
  ["reported_by"; "falls_within"; "last_outcome_category"].

(** [df[names]]: the columns under the named labels, in the order asked;
    a label that occurs twice brings both of its columns. *)
Definition select (names : list string) (df : DataFrame) : result DataFrame :=
  ps <- subset_positions names df ;;
  Ok (mkFrame
        (concat (List.map (fun n => List.map (fun _ => n) (positions n (columns df))) names))
        (List.map (key_of ps) (rows df))).

Fixpoint zip {A B} (a : list A) (b : list B) : list (A * B) :=
  match a, b with
  | x :: a', y :: b' => (x, y) :: zip a' b'
  | _, _ => []
  end.

Definition code_cell (n : nat) : cell := CNum (float_of_nat n).

(** What [train_model] returns: the forest, the target encoder, the scaler,
    the dictionary of feature encoders and the training subset ([X] is
    used for its column labels only, which are [features]). *)
Record Trained : Type := mkTrained {
  rf : RandomForest.t;
  le_target : LabelEncoder.t;
  scaler : StandardScaler.t;
  label_encoders : gmap string LabelEncoder.t;
  df_model : DataFrame
}.

Section Training.

Variable col_mean : list float64 -> float64.
Variable col_scale : list float64 -> float64.

(** Lines 53-56: one encoder per label feature, fitted on its column,
    which is replaced by its codes; the encoder goes into the
    dictionary. *)
Fixpoint fit_label_encoders (cols : list string) (X_enc : DataFrame)
    (encoders : gmap string LabelEncoder.t)
  : result (DataFrame * gmap string LabelEncoder.t) :=
  match cols with
  | [] => Ok (X_enc, encoders)
  | col :: cols' =>
      i <- series_position ValueError col X_enc ;;
      y <- mapM as_label (column_at i X_enc) ;;
      let (codes, le) := LabelEncoder.fit_transform y LabelEncoder.new in
      codes <- codes ;;
      fit_label_encoders cols'
        (assign_column i (List.map code_cell codes) X_enc)
        (<[col := le]> encoders)
  end.

Definition train_model (df : DataFrame) : result Trained :=
  (* line 44 *)
  df_model <- dropna ["lsoa_code"; "lsoa_name"] df ;;
  (* lines 45-46 *)
  ict <- series_position TypeError "crime_type" df_model ;;
  y0 <- mapM as_label (column_at ict df_model) ;;
  let df_model := assign_column ict (List.map cell_of_label (collapse y0)) df_model in
  (* lines 47-49 *)
  X <- select features df_model ;;
  y <- label_column "crime_type" df_model ;;
  (* lines 51-56 *)
  enc <- fit_label_encoders label_features X empty ;;
  let (X_enc, label_encoders) := enc : DataFrame * gmap string LabelEncoder.t in
  (* lines 57-58 *)
  ilon <- series_position ValueError "longitude" X_enc ;;
  ilat <- series_position ValueError "latitude" X_enc ;;
  lon <- mapM as_float (column_at ilon X_enc) ;;
  lat <- mapM as_float (column_at ilat X_enc) ;;
  let (scaled, scaler) :=
    StandardScaler.fit_transform col_mean col_scale (zip lon lat) StandardScaler.new in
  scaled <- scaled ;;
  let X_enc := assign_column ilon (List.map (fun p => CNum (fst p)) scaled) X_enc in
  let X_enc := assign_column ilat (List.map (fun p => CNum (snd p)) scaled) X_enc in
  (* lines 59-60 *)
  let (y_enc, le_target) := LabelEncoder.fit_transform y LabelEncoder.new in
  y_enc <- y_enc ;;
  (* lines 61-62 *)
  matrix <- mapM (mapM as_float) (rows X_enc) ;;
  let (fit, rf) := RandomForest.fit matrix y_enc RandomForest.new in
  _ <- fit ;;
  (* line 63 *)
  Ok (mkTrained rf le_target scaler label_encoders df_model).

End Training.

(* ===================================================================== *)
(** ** The prediction tab of [main] (lines 174-194 and 216) *)

(** One row of [df_f] once a period is scored: the scaled coordinates, the
    codes of the three label features, the period and the predicted
    category. *)
Record future_row : Type := mkFuture {
  longitude : float64;
  latitude : float64;
  reported_by : nat;
  falls_within : nat;
  last_outcome_category : nat;
  simulated_month : nat;
  predicted_crime_type : label
}.

Definition batch_size : nat := 5000.
Arguments batch_size : simpl never.

(** What the loop reads and writes: numpy's generator and the objects
    [train_model] returned. *)
Record World : Type := mkWorld {
  np_random : RandomState;
  trained : Trained
}.

Definition M (A : Type) : Type := World -> result A * World.

Definition ret {A} (a : A) : M A := fun w => (Ok a, w).

Definition lift {A} (r : result A) : M A := fun w => (r, w).

Definition bindM {A B} (m : M A) (k : A -> M B) : M B :=
  fun w =>
    match m w with
    | (Ok a, w') => k a w'
    | (Err e, w') => (Err e, w')
    end.

Declare Scope world_scope.
Delimit Scope world_scope with world.
Notation "x <~ e ;; k" := (bindM e (fun x => k))
  (at level 100, e at next level, right associativity) : world_scope.

Definition with_label_encoders (d : gmap string LabelEncoder.t) (t : Trained) : Trained :=
  mkTrained (rf t) (le_target t) (scaler t) d (df_model t).

Definition with_scaler (s : StandardScaler.t) (t : Trained) : Trained :=
  mkTrained (rf t) (le_target t) s (label_encoders t) (df_model t).

Definition with_rf (f : RandomForest.t) (t : Trained) : Trained :=
  mkTrained f (le_target t) (scaler t) (label_encoders t) (df_model t).

Definition with_le_target (le : LabelEncoder.t) (t : Trained) : Trained :=
  mkTrained (rf t) le (scaler t) (label_encoders t) (df_model t).

Section Prediction.

Variable vote : list (list float64) -> list nat -> list float64 -> nat.

Local Open Scope world_scope.

(** [np.random.uniform(low, high, size)] on the process-wide generator. *)
Definition np_random_uniform (low high : float64) (size : nat) : M (list float64) :=
  fun w =>
    let (r, g) := uniform low high size (np_random w) in
    (r, mkWorld g (trained w)).

(** [label_encoders[col].transform(y)]: the encoder is an object held by
    the dictionary, so what the call leaves of it stays under [col]. *)
Definition encoder_transform (col : string) (y : list label) : M (list nat) :=
  fun w =>
    match label_encoders (trained w) !! col with
    | None => (Err KeyError, w)
    | Some le =>
        let (r, le') := LabelEncoder.transform y le in
        (r, mkWorld (np_random w)
              (with_label_encoders (<[col := le']> (label_encoders (trained w)))
                 (trained w)))
    end.

Definition scaler_transform (X : list (float64 * float64)) : M (list (float64 * float64)) :=
  fun w =>
    let (r, s) := StandardScaler.transform X (scaler (trained w)) in
    (r, mkWorld (np_random w) (with_scaler s (trained w))).

Definition rf_predict (X : list (list float64)) : M (list nat) :=
  fun w =>
    let (r, f) := RandomForest.predict vote X (rf (trained w)) in
    (r, mkWorld (np_random w) (with_rf f (trained w))).

Definition target_inverse_transform (codes : list nat) : M (list label) :=
  fun w =>
    let (r, le) := LabelEncoder.inverse_transform codes (le_target (trained w)) in
    (r, mkWorld (np_random w) (with_le_target le (trained w))).

(** [label_encoders[col].transform([df_model[col].mode()[0]] * 5000)]. *)
Definition mode_codes (col : string) : M (list nat) :=
  fun w =>
    (y <~ lift (label_column col (df_model (trained w))) ;;
     v <~ lift (mode0 y) ;;
     encoder_transform col (repeat (Some v) batch_size)) w.

(** The row [i] of the matrix handed to the forest, in the order of
    [features]. *)
Definition feature_row (xy : float64 * float64) (rb fw loc : nat) : list float64 :=
  [fst xy; snd xy; float_of_nat rb; float_of_nat fw; float_of_nat loc].

Fixpoint build_rows (m : nat) (xy : list (float64 * float64)) (rb fw loc : list nat)
    (pred : list label) : list future_row :=
  match xy, rb, fw, loc, pred with
  | p :: xy', a :: rb', b :: fw', c :: loc', l :: pred' =>
      mkFuture (fst p) (snd p) a b c m l :: build_rows m xy' rb' fw' loc' pred'
  | _, _, _, _, _ => []
  end.

Fixpoint build_matrix (xy : list (float64 * float64)) (rb fw loc : list nat)
  : list (list float64) :=
  match xy, rb, fw, loc with
  | p :: xy', a :: rb', b :: fw', c :: loc' =>
      feature_row p a b c :: build_matrix xy' rb' fw' loc'
  | _, _, _, _ => []
  end.

(** [pd.DataFrame({...})] wants arrays of one length. *)
Definition same_length (n : nat) (ls : list nat) : result unit :=
  if forallb (Nat.eqb n) ls then Ok tt else Err LengthMismatch.

(** The body of the loop of line 179 for the period [m]. *)
Definition period (lon_min lon_max lat_min lat_max : float64) (m : nat)
  : M (list future_row) :=
  random_lons <~ np_random_uniform lon_min lon_max batch_size ;;
  random_lats <~ np_random_uniform lat_min lat_max batch_size ;;
  rb <~ mode_codes "reported_by" ;;
  fw <~ mode_codes "falls_within" ;;
  loc <~ mode_codes "last_outcome_category" ;;
  _ <~ lift (same_length (length random_lons)
               [length random_lats; length rb; length fw; length loc]) ;;
  xy <~ scaler_transform (zip random_lons random_lats) ;;
  preds <~ rf_predict (build_matrix xy rb fw loc) ;;
  predicted <~ target_inverse_transform preds ;;
  ret (build_rows m xy rb fw loc predicted).

(** [for m in range(1, 7): ...; future_list.append(df_f)]. *)
Fixpoint period_loop (lon_min lon_max lat_min lat_max : float64) (months : list nat)
    (future_list : list (list future_row)) : M (list (list future_row)) :=
  match months with
  | [] => ret future_list
  | m :: months' =>
      df_f <~ period lon_min lon_max lat_min lat_max m ;;
      period_loop lon_min lon_max lat_min lat_max months' (future_list ++ [df_f])
  end.

(** Lines 176-194: the bounding box, the loop and [pd.concat]. *)
Definition future_incidents : M (list future_row) :=
  fun w =>
    (lon <~ lift (numeric_column "longitude" (df_model (trained w))) ;;
     lat <~ lift (numeric_column "latitude" (df_model (trained w))) ;;
     future_list <~ period_loop (series_min lon) (series_max lon)
                      (series_min lat) (series_max lat) (seq 1 6) [] ;;
     ret (concat future_list)) w.

End Prediction.

(* ===================================================================== *)
(** ** The pivot of line 216 *)

Definition has_key (r : future_row) : bool :=
  match predicted_crime_type r with
  | Some _ => true
  | None => false
  end.

Definition in_group (m : nat) (c : string) (r : future_row) : bool :=
  Nat.eqb (simulated_month r) m && label_eqb (predicted_crime_type r) (Some c).

(** [groupby([month, category]).size().unstack(fill_value=0)]: a row per
    period, a column per predicted category, both in increasing order; a
    record whose category is missing belongs to no group. *)
Record Pivot : Type := mkPivot {
  pivot_index : list nat;
  pivot_columns : list string;
  pivot_values : list (list nat)
}.

Definition pivot (fut_df : list future_row) : Pivot :=
  let keyed := List.filter has_key fut_df in
  let months := sorted_set Nat.compare (List.map simulated_month keyed) in
  let cats := sorted_set String.compare (present (List.map predicted_crime_type keyed)) in
  mkPivot months cats
    (List.map (fun m => List.map (fun c => length (List.filter (in_group m c) keyed)) cats)
       months).

(** The pivot's row of a period, zero-filled when the period is absent. *)
Definition pivot_row (p : Pivot) (m : nat) : list nat :=
  match List.find (fun q => Nat.eqb (fst q) m) (zip (pivot_index p) (pivot_values p)) with
  | Some q => snd q
  | None => []
  end.

Definition total (l : list nat) : nat := fold_right Nat.add 0 l.

(* ===================================================================== *)
(** ** The pipeline of [main] *)

Section Pipeline.

Variable parse_float : string -> float64.
Variable str_of_float : float64 -> string.
Variable col_mean : list float64 -> float64.
Variable col_scale : list float64 -> float64.
Variable vote : list (list float64) -> list nat -> list float64 -> nat.

(** [main] without its display: the table read from the archive is
    cleaned (line 67), the model is trained (line 174), the six periods
    are simulated and pivoted. [g] is the state of numpy's generator when
    [main] starts. *)
Definition main (raw : DataFrame) (g : RandomState)
  : result (list future_row * Pivot) :=
  df <- clean parse_float str_of_float raw ;;
  t <- train_model col_mean col_scale df ;;
  fut_df <- fst (future_incidents vote (mkWorld g t)) ;;
  Ok (fut_df, pivot fut_df).

End Pipeline.


(* ===================================================================== *)
(** ** Vocabulary of the statements *)

(** The identifier of a record: its cells under the label [crime_id]. *)
Definition identifier (df : DataFrame) (r : row) : list cell :=
  key_of (positions "crime_id" (columns df)) r.

(** What the Category Collapser writes for one category of the column [y]. *)
Definition collapsed_label (y : list label) (x : label) : label :=
  match x with
  | Some s => if rare_threshold <=? count_label x y then x else Some "Other"
  | None => None
  end.

(** A text with no white space at either end. *)
Definition trimmed (l : list ascii) : Prop :=
  dropwhile is_space l = l /\ dropwhile is_space (rev l) = rev l.

Definition fold_char (c : ascii) : ascii := underscore_char (lower_char c).

(** A computation that leaves the trained objects as it found them. *)
Definition keeps_trained {A} (m : M A) : Prop :=
  forall w, trained (snd (m w)) = trained w.

(** A batch of the period [m]: [batch_size] records, all of that period,
    each with a predicted category that is a label of the target column
    [y]. *)
Definition batch_of (y : list label) (m : nat) (batch : list future_row) : Prop :=
  length batch = batch_size /\
  List.Forall (fun x => simulated_month x = m /\ In (predicted_crime_type x) y) batch.

(** [x] lies in the closed interval from [low] to [high], by the floats' own
    comparison. *)
Definition within (low high x : float64) : Prop :=
  fleb low x = true /\ fleb x high = true.

(* ===================================================================== *)
(** ** Library behaviour chosen for the examples

    The abstract library functions, instantiated to run the pipeline on
    concrete tables: a reader of unsigned whole numbers and of [inf], a
    printer that names the class of a float, the mean and the standard
    deviation summed from left to right, a forest that always votes for
    the first class, and two sequences of generator words. *)

Fixpoint digits_value (acc : N) (s : string) : option N :=
  match s with
  | EmptyString => Some acc
  | String c s' =>
      let n := N_of_ascii c in
      if ((48 <=? n) && (n <=? 57))%N then digits_value (acc * 10 + (n - 48)) s' else None
  end.

Definition parse_whole (s : string) : float64 :=
  if String.eqb s "inf" then S754_infinity false
  else match s with
       | EmptyString => nan
       | _ => match digits_value 0 s with
              | Some n => float_of_Z_scaled (Z.of_N n) 0
              | None => nan
              end
       end.

Definition str_class (x : float64) : string :=
  match x with
  | S754_nan => "nan"
  | S754_infinity false => "inf"
  | S754_infinity true => "-inf"
  | S754_zero false => "0.0"
  | S754_zero true => "-0.0"
  | S754_finite false _ _ => "finite"
  | S754_finite true _ _ => "-finite"
  end.

Definition plain_mean (l : list float64) : float64 :=
  fdiv (fold_left fadd l fzero) (float_of_nat (length l)).

Definition plain_scale (l : list float64) : float64 :=
  let m := plain_mean l in
  let s := SFsqrt prec emax (plain_mean (List.map (fun x => fmul (fsub x m) (fsub x m)) l)) in
  if feqb s fzero then float_of_nat 1 else s.

Definition first_class (X : list (list float64)) (y : list nat) (x : list float64) : nat := 0.

Definition words_zero : RandomState := mkRandomState (fun _ => 0%Z) 0.

Definition words_counting : RandomState :=
  mkRandomState (fun i => (Z.of_N i * 2654435761 + 2147483648)%Z) 0.

(** A table as [read_csv] hands it over: headers with capitals and blanks,
    a repeated identifier, a coordinate that is no number, a missing
    outcome. *)
Definition headers : list string :=
  [" Crime ID"; "Crime type"; "Location"; "Latitude"; "Longitude"; "Reported by";
   "Falls within"; "Last outcome category"; "LSOA code"; "LSOA name"].

Definition raw_example : DataFrame :=
  mkFrame headers
    [ [CStr "a1"; CStr "Burglary"; CStr " On or near High Street "; CNum (float_of_nat 53);
       CStr "1"; CStr "Humberside Police"; CStr "Humberside Police";
       CStr "Under investigation"; CStr "E01"; CStr "Hull 001A"];
      [CStr "b2"; CStr "Theft"; CStr "On or near Park Road"; CNum (float_of_nat 54);
       CStr "3"; CStr "Humberside Police"; CStr "Humberside Police";
       CNum nan; CStr "E02"; CStr "Hull 002A"];
      [CStr "a1"; CStr "Theft"; CStr "On or near Park Road"; CNum (float_of_nat 54);
       CStr "3"; CStr "Humberside Police"; CStr "Humberside Police";
       CNum nan; CStr "E02"; CStr "Hull 002A"];
      [CStr "c3"; CStr "Theft"; CStr "On or near Mill Lane"; CStr "north";
       CStr "3"; CStr "Humberside Police"; CStr "Humberside Police";
       CNum nan; CStr "E02"; CStr "Hull 002A"] ].

Definition cleaned_example : DataFrame :=
  Eval vm_compute in
    match clean parse_whole str_class raw_example with
    | Ok df => df
    | Err _ => mkFrame [] []
    end.

(** A table with an infinite latitude, once as a float and once as the
    text [inf]. *)
Definition raw_infinite : DataFrame :=
  mkFrame headers
    [ [CStr "a1"; CStr "Burglary"; CStr "On or near High Street"; CNum (S754_infinity false);
       CNum (float_of_nat 1); CStr "Humberside Police"; CStr "Humberside Police";
       CStr "Under investigation"; CStr "E01"; CStr "Hull 001A"];
      [CStr "b2"; CStr "Theft"; CStr "On or near Park Road"; CStr "inf";
       CNum (float_of_nat 3); CStr "Humberside Police"; CStr "Humberside Police";
       CNum nan; CStr "E02"; CStr "Hull 002A"] ].

Definition cleaned_infinite : DataFrame :=
  Eval vm_compute in
    match clean parse_whole str_class raw_infinite with
    | Ok df => df
    | Err _ => mkFrame [] []
    end.

Definition trained_example : Trained :=
  Eval vm_compute in
    match train_model plain_mean plain_scale cleaned_example with
    | Ok t => t
    | Err _ =>
        mkTrained RandomForest.new LabelEncoder.new StandardScaler.new empty (mkFrame [] [])
    end.

(** A cleaned table with the columns of the data set and no record. *)
Definition empty_table : DataFrame :=
  mkFrame (List.map normalize_name headers) [].

(* ===================================================================== *)
(** ** The code around the pipeline: vocabulary, the archive, the charts *)

(** [P] holds of the value of [r], when [r] is one. *)
Definition when_ok {A} (r : result A) (P : A -> Prop) : Prop :=
  match r with
  | Ok a => P a
  | Err _ => True
  end.

(** The labels [load_data] reads or filters by. *)
Definition loader_labels : list string :=
  ["longitude"; "latitude"; "location"; "crime_id"; "crime_type"].

(** The order of the classes of a [LabelEncoder]: texts as Python compares
    them, the missing value last. *)
Definition label_compare (a b : label) : comparison :=
  match a, b with
  | Some s, Some t => String.compare s t
  | Some _, None => Lt
  | None, Some _ => Gt
  | None, None => Eq
  end.

(** Where a float that is no NaN stands among the others: its scaled value,
    the infinities beyond every finite one. *)
Definition rank (x : float64) : Z :=
  match x with
  | S754_infinity false => (magnitude largest_mantissa 971 + 1)%Z
  | S754_infinity true => (- magnitude largest_mantissa 971 - 1)%Z
  | _ => scaled x
  end.

(** *** The chart of the ten most frequent LSOA names (lines 158-160) *)

(** [s[k] = v] on a Series with distinct labels: the entry under [k] is
    rewritten, or a new one is added at the end. *)
Definition set_item (k : string) (v : nat) (s : list (string * nat)) : list (string * nat) :=
  if existsb (fun p => String.eqb (fst p) k) s
  then List.map (fun p => if String.eqb (fst p) k then (fst p, v) else p) s
  else s ++ [(k, v)].

(** [top10 = counts.iloc[:10]; top10['Other'] = counts.iloc[10:].sum()],
    for [counts] as [value_counts()] orders it. *)
Definition top10_other (counts : list (string * nat)) : list (string * nat) :=
  set_item "Other" (total (List.map snd (skipn 10 counts))) (firstn 10 counts).

(** A computation that, when it returns, has taken the next [k] words of
    numpy's generator and left the sequence they come from alone. *)
Definition draws {A} (k : N) (m : M A) : Prop :=
  forall w, when_ok (fst (m w))
              (fun _ => words (np_random (snd (m w))) = words (np_random w) /\
                        drawn (np_random (snd (m w))) = (drawn (np_random w) + k)%N).

(** *** Reading the archive ([load_data], lines 19-31) *)

(** How [load_data] can end: with the table, with [st.error(message)] and
    [st.stop()], or with an exception ([BadZipFile] is [zipfile]'s own, the
    others are the libraries' of [exn]). *)
Inductive load_error : Type :=
| BadZipFile
| Library (e : exn).

Inductive loaded (A : Type) : Type :=
| Loaded (a : A)
| Stopped (message : string)
| Raised (e : load_error).
Arguments Loaded {A} a.
Arguments Stopped {A} message.
Arguments Raised {A} e.

(** What is at [data/humberside-street-merged.zip]: nothing, a file that
    is no archive, or an archive, whose members are names and contents in
    the order of its directory. *)
Definition ZipFile : Type := list (string * string).

Inductive data_path : Type :=
| NoFile
| NotZip
| Zip (zf : ZipFile).

(** [s.endswith(suffix)]. *)
Definition endswith (suffix s : string) : bool :=
  (String.length suffix <=? String.length s)
  && String.eqb (substring (String.length s - String.length suffix)
                           (String.length suffix) s) suffix.

(** [f.lower().endswith('.csv')]. *)
Definition is_csv (f : string) : bool := endswith ".csv" (lower f).

(** [zf.namelist()]: every member, a repeated name as often as it
    occurs. *)
Definition namelist (zf : ZipFile) : list string := List.map fst zf.

(** [zf.open(name)]: the archive looks a name up in a dictionary that the
    later member of a repeated name has overwritten. *)
Fixpoint zip_open (name : string) (zf : ZipFile) : option string :=
  match zf with
  | [] => None
  | (n, content) :: zf' =>
      match zip_open name zf' with
      | Some later => Some later
      | None => if String.eqb n name then Some content else None
      end
  end.

Definition no_archive : string :=
  "Data archive not found in data/. Please add humberside-street-merged.zip.".

Definition no_csv : string :=
  "No CSV file found inside data/humberside-street-merged.zip.".

Section Archive.

(** [pd.read_csv] is the library's own. *)
Variable read_csv : string -> result DataFrame.
Variable parse_float : string -> float64.
Variable str_of_float : float64 -> string.

Definition load_data (data : data_path) : loaded DataFrame :=
  match data with
  | NoFile => Stopped no_archive
  | NotZip => Raised BadZipFile
  | Zip zf =>
      match List.filter is_csv (namelist zf) with
      | [] => Stopped no_csv
      | first :: _ =>
          match zip_open first zf with
          | None => Raised (Library KeyError)
          | Some f =>
              match (df <- read_csv f ;; clean parse_float str_of_float df) with
              | Ok df => Loaded df
              | Err e => Raised (Library e)
              end
          end
      end
  end.

End Archive.

(** The ways a forecast can fail once there is a trained model: the range
    of a bounding box is not finite, a label feature of the training subset
    [df_model] has no value to take the mode of, or a matrix handed to the
    scaler or the forest holds an infinity or a NaN. *)
Definition forecast_failure (df_model : DataFrame) (e : exn) : Prop :=
  e = OverflowError \/
  (e = KeyError /\
   exists col ycol, In col label_features /\ label_column col df_model = Ok ycol /\
                    forall s, ~ In (Some s) ycol) \/
  e = NonFinite.

(** A training subset of one record that has no last outcome, and what
    [train_model] returns for it. *)
Definition no_outcome_table : DataFrame :=
  mkFrame (List.map normalize_name headers)
    [ [CStr "a1"; CStr "Burglary"; CStr "On or near High Street"; CNum (float_of_nat 53);
       CNum (float_of_nat 1); CStr "Humberside Police"; CStr "Humberside Police";
       CNum nan; CStr "E01"; CStr "Hull 001A"] ].

Definition trained_no_outcome : Trained :=
  Eval vm_compute in
    match train_model plain_mean plain_scale no_outcome_table with
    | Ok t => t
    | Err _ =>
        mkTrained RandomForest.new LabelEncoder.new StandardScaler.new empty (mkFrame [] [])
    end.

(* ===================================================================== *)
(** * Properties *)

(** ** Texts and sorted sets *)

Lemma string_compare_refl (s : string) : String.compare s s = Eq.
Proof.
  induction s as [|c s IH]; simpl; [reflexivity|].
  assert (E : Ascii.compare c c = Eq) by (unfold Ascii.compare; apply N.compare_refl).
  now rewrite E.
Qed.

Lemma string_compare_eq (a b : string) : String.compare a b = Eq <-> a = b.
Proof.
  split; [apply String.compare_eq_iff | intros ->; apply string_compare_refl].
Qed.

Lemma nat_compare_eq (a b : nat) : Nat.compare a b = Eq <-> a = b.
Proof. apply Nat.compare_eq_iff. Qed.

Lemma existsb_eqb_In (s : string) (l : list string) :
  existsb (String.eqb s) l = true <-> In s l.
Proof.
  rewrite existsb_exists. split.
  - intros [t [Ht E]]. apply String.eqb_eq in E. now subst.
  - intros H. exists s. split; [assumption | apply String.eqb_refl].
Qed.

Section SortedSet.

Context {A : Type}.
Variable cmp : A -> A -> comparison.
Hypothesis cmp_eq : forall a b, cmp a b = Eq <-> a = b.

Lemma same_true (a b : A) : same cmp a b = true <-> a = b.
Proof.
  unfold same. rewrite <- cmp_eq. destruct (cmp a b); split; congruence.
Qed.

Lemma existsb_same_In (a : A) (l : list A) :
  existsb (same cmp a) l = true <-> In a l.
Proof.
  rewrite existsb_exists. split.
  - intros [b [Hb E]]. apply same_true in E. now subst.
  - intros H. exists a. split; [assumption | now apply same_true].
Qed.

Lemma In_distinct_from (x : A) (seen l : list A) :
  In x (distinct_from cmp seen l) <-> In x l /\ ~ In x seen.
Proof.
  revert seen. induction l as [|a l IH]; intros seen; simpl; [tauto|].
  destruct (existsb (same cmp a) seen) eqn:E.
  - apply existsb_same_In in E. rewrite IH. split.
    + tauto.
    + intros [[->|H] N]; [contradiction | tauto].
  - assert (Na : ~ In a seen).
    { intros H. apply existsb_same_In in H. congruence. }
    simpl. rewrite IH. simpl. split.
    + intros [->|[H N]]; [tauto|]. split; [tauto|]. intros K. apply N. now right.
    + intros [[->|H] N]; [now left|].
      destruct (cmp a x) eqn:C.
      * apply cmp_eq in C. now left.
      * right. split; [assumption|]. intros [K|K]; [|contradiction].
        apply cmp_eq in K. congruence.
      * right. split; [assumption|]. intros [K|K]; [|contradiction].
        apply cmp_eq in K. congruence.
Qed.

Lemma NoDup_distinct_from (seen l : list A) : List.NoDup (distinct_from cmp seen l).
Proof.
  revert seen. induction l as [|a l IH]; intros seen; simpl; [constructor|].
  destruct (existsb (same cmp a) seen); [apply IH|].
  constructor; [|apply IH].
  rewrite In_distinct_from. intros [_ N]. apply N. now left.
Qed.

Lemma In_dedupe (x : A) (l : list A) : In x (dedupe cmp l) <-> In x l.
Proof. unfold dedupe. rewrite In_distinct_from. simpl. tauto. Qed.

Lemma NoDup_dedupe (l : list A) : List.NoDup (dedupe cmp l).
Proof. apply NoDup_distinct_from. Qed.

Lemma In_insert_sorted (a x : A) (l : list A) :
  In x (insert_sorted cmp a l) <-> x = a \/ In x l.
Proof.
  induction l as [|b l IH]; simpl.
  - intuition.
  - destruct (cmp a b); simpl; try rewrite IH; intuition.
Qed.

Lemma NoDup_insert_sorted (a : A) (l : list A) :
  ~ In a l -> List.NoDup l -> List.NoDup (insert_sorted cmp a l).
Proof.
  induction l as [|b l IH]; simpl; intros Ha Hl.
  - constructor; [intros [] | constructor].
  - destruct (cmp a b); try (constructor; assumption).
    inversion Hl; subst.
    constructor.
    + rewrite In_insert_sorted. intros [->|H]; [apply Ha; now left | contradiction].
    + apply IH; [intros H; apply Ha; now right | assumption].
Qed.

Lemma In_sort (x : A) (l : list A) :
  In x (fold_right (insert_sorted cmp) [] l) <-> In x l.
Proof.
  induction l as [|a l IH]; simpl; [reflexivity|].
  rewrite In_insert_sorted, IH. intuition.
Qed.

Lemma NoDup_sort (l : list A) :
  List.NoDup l -> List.NoDup (fold_right (insert_sorted cmp) [] l).
Proof.
  induction l as [|a l IH]; simpl; intros H; [constructor|].
  inversion H; subst.
  apply NoDup_insert_sorted; [rewrite In_sort; assumption | auto].
Qed.

Lemma In_sorted_set (x : A) (l : list A) : In x (sorted_set cmp l) <-> In x l.
Proof. unfold sorted_set. now rewrite In_sort, In_dedupe. Qed.

Lemma NoDup_sorted_set (l : list A) : List.NoDup (sorted_set cmp l).
Proof. apply NoDup_sort, NoDup_dedupe. Qed.

End SortedSet.

(** ** Category Collapser *)

Lemma label_eqb_eq (a b : label) : label_eqb a b = true <-> a = b.
Proof.
  destruct a as [s|], b as [t|]; simpl; try (split; congruence).
  rewrite String.eqb_eq. split; congruence.
Qed.

Lemma label_eqb_refl (a : label) : label_eqb a a = true.
Proof. now apply label_eqb_eq. Qed.

Lemma count_label_present (s : string) (y : list label) :
  count_label (Some s) y = count_text s (present y).
Proof.
  unfold count_label, count_text.
  induction y as [|[t|] y IH]; simpl; [reflexivity| |assumption].
  destruct (String.eqb s t); simpl; now rewrite IH.
Qed.

Lemma In_present (s : string) (y : list label) : In s (present y) <-> In (Some s) y.
Proof.
  induction y as [|[t|] y IH]; simpl; [reflexivity| |].
  - rewrite IH. split; intros [H|H]; auto; left; congruence.
  - rewrite IH. split; [auto | intros [H|H]; [discriminate | assumption]].
Qed.

Lemma In_rare_categories (s : string) (y : list label) :
  In s (rare_categories y) <->
  In (Some s) y /\ count_label (Some s) y < rare_threshold.
Proof.
  unfold rare_categories, value_counts.
  rewrite in_map_iff. split.
  - intros [[t n] [E H]]. simpl in E. subst t.
    apply filter_In in H. destruct H as [H Hn]. simpl in Hn.
    apply in_map_iff in H. destruct H as [t [Et Ht]].
    inversion Et; subst.
    apply (proj1 (In_sorted_set _ string_compare_eq _ _)) in Ht.
    rewrite count_label_present. split.
    + apply In_present. exact Ht.
    + apply Nat.ltb_lt. exact Hn.
  - intros [Hin Hn]. exists (s, count_text s (present y)). split; [reflexivity|].
    apply filter_In. split.
    + apply in_map_iff. exists s. split; [reflexivity|].
      apply (In_sorted_set _ string_compare_eq). now apply In_present.
    + simpl. apply Nat.ltb_lt. now rewrite <- count_label_present.
Qed.

Lemma in_index_rare (s : string) (y : list label) :
  In (Some s) y ->
  in_index (Some s) (rare_categories y) = (count_label (Some s) y <? rare_threshold).
Proof.
  intros Hin. simpl.
  destruct (count_label (Some s) y <? rare_threshold) eqn:E.
  - apply existsb_eqb_In, In_rare_categories. split; [assumption | now apply Nat.ltb_lt].
  - destruct (existsb (String.eqb s) (rare_categories y)) eqn:F; [|reflexivity].
    apply existsb_eqb_In, In_rare_categories in F. destruct F as [_ F].
    apply Nat.ltb_lt in F. congruence.
Qed.

Lemma count_label_relabel (rare : list string) (s : string) (y : list label) :
  s <> "Other" -> in_index (Some s) rare = false ->
  count_label (Some s) (List.map (relabel rare) y) = count_label (Some s) y.
Proof.
  intros Hs Hr. unfold count_label.
  induction y as [|x y IH]; cbn [List.map List.filter]; [reflexivity|].
  assert (E : label_eqb (Some s) (relabel rare x) = label_eqb (Some s) x).
  { unfold relabel. destruct (in_index x rare) eqn:F; [|reflexivity].
    destruct (label_eqb (Some s) x) eqn:G.
    - apply label_eqb_eq in G. subst x. congruence.
    - simpl. apply String.eqb_neq. assumption. }
  rewrite E. destruct (label_eqb (Some s) x); cbn [length]; now rewrite IH.
Qed.

Lemma relabel_fixed (y : list label) (x : label) :
  In x (collapse y) -> relabel (rare_categories (collapse y)) x = x.
Proof.
  intros Hx. unfold relabel.
  destruct (in_index x (rare_categories (collapse y))) eqn:E; [|reflexivity].
  destruct x as [s|]; [|discriminate].
  destruct (String.eqb s "Other") eqn:Eo.
  - apply String.eqb_eq in Eo. now subst.
  - apply String.eqb_neq in Eo. exfalso.
    rewrite (in_index_rare _ _ Hx) in E. apply Nat.ltb_lt in E.
    unfold collapse in Hx. apply in_map_iff in Hx. destruct Hx as [x0 [Ex Hx0]].
    unfold relabel in Ex.
    destruct (in_index x0 (rare_categories y)) eqn:F; [congruence|].
    subst x0.
    unfold collapse in E. rewrite (count_label_relabel _ _ _ Eo F) in E.
    rewrite (in_index_rare _ _ Hx0) in F. apply Nat.ltb_ge in F. lia.
Qed.

(** C4. The Category Collapser keeps every record ([collapse] returns one
    label per label of the training column), maps a category to itself when
    it occurs at least 1000 times in the column and to ["Other"] when it
    occurs fewer times, and collapsing its own output changes nothing. *)
Theorem collapse_correct (y : list label) :
  length (collapse y) = length y /\
  collapse y = List.map (collapsed_label y) y /\
  collapse (collapse y) = collapse y.
Proof.
  split; [apply length_map|]. split.
  - unfold collapse. apply map_ext_in. intros [s|] Hx; [|reflexivity].
    unfold relabel, collapsed_label. rewrite (in_index_rare _ _ Hx).
    rewrite Nat.ltb_antisym. now destruct (rare_threshold <=? count_label (Some s) y).
  - transitivity (List.map (fun x => x) (collapse y)); [|apply map_id].
    unfold collapse at 1. apply map_ext_in. intros x Hx. now apply relabel_fixed.
Qed.

(** ** Label encoders *)

Module LabelEncoderFacts.
Import LabelEncoder.

Lemma index_of_Some (v : label) (classes : list label) (i : nat) :
  index_of v classes = Some i -> nth_error classes i = Some v.
Proof.
  revert i. induction classes as [|c classes IH]; simpl; intros i H; [discriminate|].
  destruct (label_eqb v c) eqn:E.
  - apply label_eqb_eq in E. inversion H; subst. reflexivity.
  - destruct (index_of v classes) as [j|]; [|discriminate].
    inversion H; subst. simpl. now apply IH.
Qed.

Lemma index_of_In (v : label) (classes : list label) :
  In v classes -> exists i, index_of v classes = Some i.
Proof.
  induction classes as [|c classes IH]; simpl; intros H; [contradiction|].
  destruct (label_eqb v c) eqn:E; [now exists 0|].
  destruct H as [->|H]; [rewrite label_eqb_refl in E; discriminate|].
  destruct (IH H) as [i Hi]. rewrite Hi. now exists (S i).
Qed.

Lemma index_of_None (v : label) (classes : list label) :
  ~ In v classes -> index_of v classes = None.
Proof.
  intros H. destruct (index_of v classes) as [i|] eqn:E; [|reflexivity].
  exfalso. apply H. apply index_of_Some in E. now apply nth_error_In in E.
Qed.

Lemma In_unique (v : label) (y : list label) : In v (unique y) <-> In v y.
Proof.
  unfold unique. rewrite in_app_iff, in_map_iff. split.
  - intros [[s [<- Hs]]|H].
    + apply (proj1 (In_sorted_set _ string_compare_eq _ _)) in Hs.
      apply In_present. exact Hs.
    + destruct (existsb (label_eqb None) y) eqn:E; [|contradiction].
      destruct H as [<-|[]]. apply existsb_exists in E.
      destruct E as [x [Hx E]]. apply label_eqb_eq in E. now subst.
  - intros H. destruct v as [s|].
    + left. exists s. split; [reflexivity|].
      apply (proj2 (In_sorted_set _ string_compare_eq _ _)).
      apply In_present. exact H.
    + right. assert (E : existsb (label_eqb None) y = true).
      { apply existsb_exists. exists None. split; [assumption | reflexivity]. }
      rewrite E. now left.
Qed.

Lemma encode_repeat (classes : list label) (v : label) (i n : nat) :
  index_of v classes = Some i ->
  mapM (encode classes) (repeat v n) = Ok (repeat i n).
Proof.
  intros H. induction n as [|n IH]; simpl; [reflexivity|].
  unfold encode at 1. rewrite H. simpl. now rewrite IH.
Qed.

Lemma encode_unseen (classes : list label) (v : label) (y : list label) :
  ~ In v classes -> In v y -> mapM (encode classes) y = Err UnseenLabel.
Proof.
  intros Hv. induction y as [|x y IH]; simpl; intros H; [contradiction|].
  unfold encode at 1. destruct (index_of x classes) as [i|] eqn:E.
  - destruct H as [->|H]; [rewrite (index_of_None _ _ Hv) in E; discriminate|].
    simpl. now rewrite (IH H).
  - reflexivity.
Qed.

End LabelEncoderFacts.

(** C8. For every label [v] of the column the target encoder is fitted on,
    [transform] gives a class id and [inverse_transform] of that id gives
    [v] back, the encoder staying as fitted. *)
Theorem label_round_trip (y : list label) (v : label) :
  In v y ->
  let le := snd (LabelEncoder.fit_transform y LabelEncoder.new) in
  exists i : nat,
    LabelEncoder.transform [v] le = (Ok [i], le) /\
    LabelEncoder.inverse_transform [i] le = (Ok [v], le).
Proof.
  intros Hv le.
  apply LabelEncoderFacts.In_unique in Hv.
  destruct (LabelEncoderFacts.index_of_In _ _ Hv) as [i Hi].
  exists i. unfold le, LabelEncoder.transform, LabelEncoder.inverse_transform. simpl.
  unfold LabelEncoder.encode, LabelEncoder.decode. rewrite Hi.
  now rewrite (LabelEncoderFacts.index_of_Some _ _ _ Hi).
Qed.

Lemma label_round_trip_witness :
  In (Some "Theft") [Some "Theft"; Some "Burglary"; Some "Other"] /\
  exists i : nat,
    LabelEncoder.transform [Some "Theft"]
      (snd (LabelEncoder.fit_transform [Some "Theft"; Some "Burglary"; Some "Other"]
              LabelEncoder.new))
    = (Ok [i], snd (LabelEncoder.fit_transform [Some "Theft"; Some "Burglary"; Some "Other"]
                      LabelEncoder.new)) /\
    LabelEncoder.inverse_transform [i]
      (snd (LabelEncoder.fit_transform [Some "Theft"; Some "Burglary"; Some "Other"]
              LabelEncoder.new))
    = (Ok [Some "Theft"],
       snd (LabelEncoder.fit_transform [Some "Theft"; Some "Burglary"; Some "Other"]
              LabelEncoder.new)).
Proof.
  split.
  - simpl. now left.
  - apply (label_round_trip [Some "Theft"; Some "Burglary"; Some "Other"] (Some "Theft")).
    simpl. now left.
Defined.

(** ** Column labels: [strip], [lower], [replace] *)

Lemma dropwhile_idem {A} (p : A -> bool) (l : list A) :
  dropwhile p (dropwhile p l) = dropwhile p l.
Proof.
  induction l as [|a l IH]; simpl; [reflexivity|].
  destruct (p a) eqn:E; [assumption|]. simpl. now rewrite E.
Qed.

Lemma dropwhile_split {A} (p : A -> bool) (l : list A) :
  exists pre, l = pre ++ dropwhile p l.
Proof.
  induction l as [|a l [pre IH]]; simpl.
  - now exists [].
  - destruct (p a).
    + exists (a :: pre). simpl. now rewrite <- IH.
    + now exists [].
Qed.

Lemma dropwhile_fixed_head {A} (p : A -> bool) (a : A) (l l' : list A) :
  dropwhile p (a :: l ++ l') = a :: l ++ l' -> dropwhile p (a :: l) = a :: l.
Proof.
  simpl. destruct (p a) eqn:E; [|reflexivity].
  intros H. exfalso.
  destruct (dropwhile_split p (l ++ l')) as [pre Hpre].
  rewrite H in Hpre.
  apply (f_equal (@length A)) in Hpre.
  rewrite length_app in Hpre. simpl in Hpre. rewrite length_app in Hpre. simpl in Hpre.
  rewrite length_app in Hpre. lia.
Qed.

Lemma strip_chars_trimmed (l : list ascii) : trimmed (strip_chars l).
Proof.
  unfold trimmed, strip_chars. split.
  - set (z := dropwhile is_space l).
    destruct (dropwhile_split is_space (rev z)) as [pre Hpre].
    set (y := dropwhile is_space (rev z)) in *.
    assert (Hz : z = rev y ++ rev pre).
    { rewrite <- rev_app_distr, <- Hpre. now rewrite rev_involutive. }
    assert (Hd : dropwhile is_space z = z) by apply dropwhile_idem.
    destruct (rev y) as [|a x] eqn:E; [reflexivity|].
    rewrite Hz in Hd. simpl in Hd. now apply dropwhile_fixed_head in Hd.
  - rewrite rev_involutive. apply dropwhile_idem.
Qed.

Lemma strip_chars_of_trimmed (l : list ascii) : trimmed l -> strip_chars l = l.
Proof.
  intros [H1 H2]. unfold strip_chars. rewrite H1, H2. apply rev_involutive.
Qed.

Lemma strip_chars_idem (l : list ascii) : strip_chars (strip_chars l) = strip_chars l.
Proof. apply strip_chars_of_trimmed, strip_chars_trimmed. Qed.

Lemma strip_idem (s : string) : strip (strip s) = strip s.
Proof.
  unfold strip. rewrite list_ascii_of_string_of_list_ascii. now rewrite strip_chars_idem.
Qed.

Lemma dropwhile_map_fixed (f : ascii -> ascii) (l : list ascii) :
  (forall c, is_space c = false -> is_space (f c) = false) ->
  dropwhile is_space l = l -> dropwhile is_space (List.map f l) = List.map f l.
Proof.
  intros Hf. destruct l as [|a l]; simpl; [reflexivity|].
  destruct (is_space a) eqn:E.
  - intros H. exfalso. destruct (dropwhile_split is_space l) as [pre Hpre].
    rewrite H in Hpre. apply (f_equal (@length ascii)) in Hpre.
    rewrite length_app in Hpre. simpl in Hpre. lia.
  - intros _. now rewrite (Hf a E).
Qed.

Lemma trimmed_map (f : ascii -> ascii) (l : list ascii) :
  (forall c, is_space c = false -> is_space (f c) = false) ->
  trimmed l -> trimmed (List.map f l).
Proof.
  intros Hf [H1 H2]. split.
  - now apply dropwhile_map_fixed.
  - rewrite <- map_rev. now apply dropwhile_map_fixed.
Qed.

Lemma fold_char_idem (c : ascii) : fold_char (fold_char c) = fold_char c.
Proof. destruct c as [[] [] [] [] [] [] [] []]; reflexivity. Qed.

Lemma fold_char_space (c : ascii) : is_space c = false -> is_space (fold_char c) = false.
Proof. destruct c as [[] [] [] [] [] [] [] []]; intros H; solve [reflexivity | discriminate H]. Qed.

Lemma normalize_name_chars (s : string) :
  normalize_name s =
  string_of_list_ascii (List.map fold_char (strip_chars (list_ascii_of_string s))).
Proof.
  unfold normalize_name, replace_space, lower, strip, map_string.
  rewrite !list_ascii_of_string_of_list_ascii. now rewrite map_map.
Qed.

Lemma normalize_name_idem (s : string) :
  normalize_name (normalize_name s) = normalize_name s.
Proof.
  rewrite !normalize_name_chars. rewrite list_ascii_of_string_of_list_ascii.
  f_equal.
  rewrite strip_chars_of_trimmed.
  - rewrite map_map. apply map_ext. intros c. apply fold_char_idem.
  - apply trimmed_map; [apply fold_char_space | apply strip_chars_trimmed].
Qed.

(** ** Positions, cells and rows *)

Lemma positions_from_nth (k : nat) (name : string) (cols : list string) (i : nat) :
  In i (positions_from k name cols) -> k <= i /\ nth_error cols (i - k) = Some name.
Proof.
  revert k. induction cols as [|c cols IH]; simpl; intros k H; [contradiction|].
  destruct (String.eqb c name) eqn:E.
  - destruct H as [<-|H].
    + split; [lia|]. rewrite Nat.sub_diag. simpl. apply String.eqb_eq in E. now subst.
    + destruct (IH _ H) as [Hk Hn]. split; [lia|].
      replace (i - k) with (S (i - S k)) by lia. exact Hn.
  - destruct (IH _ H) as [Hk Hn]. split; [lia|].
    replace (i - k) with (S (i - S k)) by lia. exact Hn.
Qed.

Lemma positions_nth (name : string) (cols : list string) (i : nat) :
  In i (positions name cols) -> nth_error cols i = Some name.
Proof.
  intros H. apply positions_from_nth in H. destruct H as [_ H].
  now rewrite Nat.sub_0_r in H.
Qed.

Lemma series_position_nth (dup : exn) (name : string) (df : DataFrame) (i : nat) :
  series_position dup name df = Ok i -> positions name (columns df) = [i].
Proof.
  unfold series_position.
  destruct (positions name (columns df)) as [|j [|k l]]; intros H; inversion H.
  reflexivity.
Qed.

Lemma positions_distinct (a b : string) (cols : list string) (i j : nat) :
  a <> b -> In i (positions a cols) -> In j (positions b cols) -> i <> j.
Proof.
  intros Hab Hi Hj E. subst j.
  apply positions_nth in Hi. apply positions_nth in Hj. congruence.
Qed.

Lemma get_update_other (i j : nat) (f : cell -> cell) (r : row) :
  i <> j -> get j (update i f r) = get j r.
Proof.
  unfold get. revert i j. induction r as [|c r IH]; intros i j H; [reflexivity|].
  destruct i as [|i], j as [|j]; simpl; try reflexivity; try congruence.
  apply IH. congruence.
Qed.

Lemma get_update_same (i : nat) (f : cell -> cell) (r : row) :
  i < length r -> get i (update i f r) = f (get i r).
Proof.
  unfold get. revert i. induction r as [|c r IH]; intros i H; simpl in H; [lia|].
  destruct i as [|i]; simpl; [reflexivity|]. apply IH. lia.
Qed.

Lemma get_update_short (i : nat) (f : cell -> cell) (r : row) :
  length r <= i -> get i (update i f r) = CNum nan.
Proof.
  unfold get. revert i. induction r as [|c r IH]; intros i H; simpl in *.
  - now destruct i.
  - destruct i as [|i]; [lia|]. simpl. apply IH. lia.
Qed.

Lemma update_comm (i j : nat) (f g : cell -> cell) (r : row) :
  i <> j -> update i f (update j g r) = update j g (update i f r).
Proof.
  revert i j. induction r as [|c r IH]; intros i j H; [reflexivity|].
  destruct i as [|i], j as [|j]; simpl; try reflexivity; try congruence.
  f_equal. apply IH. congruence.
Qed.

Lemma update_idem (i : nat) (f : cell -> cell) (r : row) :
  (forall c, f (f c) = f c) -> update i f (update i f r) = update i f r.
Proof.
  intros Hf. revert i. induction r as [|c r IH]; intros i; [reflexivity|].
  destruct i as [|i]; simpl; [now rewrite Hf | now rewrite IH].
Qed.

(** ** [drop_duplicates] *)

Lemma SFcompare_antisym (x y : float64) :
  SFcompare y x = option_map CompOpp (SFcompare x y).
Proof.
  destruct x as [sx|sx| |sx mx ex], y as [sy|sy| |sy my ey]; simpl; try reflexivity;
    try (destruct sx, sy; reflexivity); try (destruct sx; reflexivity);
    try (destruct sy; reflexivity).
  destruct sx, sy; try reflexivity; f_equal;
    rewrite (Z.compare_antisym ey ex); destruct (ey ?= ex)%Z; simpl; try reflexivity.
  - rewrite CompOpp_involutive. apply (Pos.compare_cont_antisym my mx Eq).
  - symmetry. apply (Pos.compare_cont_antisym mx my Eq).
Qed.

Lemma feqb_sym (x y : float64) : feqb x y = feqb y x.
Proof.
  unfold feqb, SFeqb. rewrite (SFcompare_antisym x y).
  destruct (SFcompare x y) as [[]|]; reflexivity.
Qed.

Lemma cell_eqb_sym (a b : cell) : cell_eqb a b = cell_eqb b a.
Proof.
  destruct a as [s|x], b as [t|y]; simpl; try reflexivity.
  - apply String.eqb_sym.
  - now rewrite feqb_sym, andb_comm.
Qed.

Lemma key_eqb_sym (a b : list cell) : key_eqb a b = key_eqb b a.
Proof.
  revert b. induction a as [|x a IH]; intros [|y b]; simpl; try reflexivity.
  now rewrite cell_eqb_sym, IH.
Qed.

Section KeepFirst.

Variable key : row -> list cell.

Lemma keep_first_incl (seen : list (list cell)) (rs : list row) (r : row) :
  In r (keep_first key seen rs) -> In r rs.
Proof.
  revert seen. induction rs as [|a rs IH]; simpl; intros seen H; [assumption|].
  destruct (existsb (key_eqb (key a)) seen).
  - right. eapply IH. eassumption.
  - destruct H as [H|H]; [now left | right; eapply IH; eassumption].
Qed.

Lemma keep_first_fresh (seen : list (list cell)) (rs : list row) (r : row) :
  In r (keep_first key seen rs) -> existsb (key_eqb (key r)) seen = false.
Proof.
  revert seen. induction rs as [|a rs IH]; simpl; intros seen H; [contradiction|].
  destruct (existsb (key_eqb (key a)) seen) eqn:E.
  - now apply IH.
  - destruct H as [<-|H]; [assumption|].
    apply IH in H. simpl in H. now apply orb_false_iff in H.
Qed.

Lemma keep_first_distinct (seen : list (list cell)) (rs : list row) :
  ForallOrdPairs (fun a b => key_eqb (key a) (key b) = false) (keep_first key seen rs).
Proof.
  revert seen. induction rs as [|a rs IH]; simpl; intros seen; [constructor|].
  destruct (existsb (key_eqb (key a)) seen) eqn:E; [apply IH|].
  constructor; [|apply IH].
  apply List.Forall_forall. intros b Hb. apply keep_first_fresh in Hb.
  simpl in Hb. apply orb_false_iff in Hb. rewrite key_eqb_sym. tauto.
Qed.

Lemma keep_first_fixed (seen : list (list cell)) (rs : list row) :
  (forall r, In r rs -> existsb (key_eqb (key r)) seen = false) ->
  ForallOrdPairs (fun a b => key_eqb (key a) (key b) = false) rs ->
  keep_first key seen rs = rs.
Proof.
  revert seen. induction rs as [|a rs IH]; simpl; intros seen Hs Hd; [reflexivity|].
  rewrite (Hs a (or_introl eq_refl)).
  inversion Hd as [|x l Hx Hl]; subst.
  f_equal. apply IH; [|assumption].
  intros r Hr. simpl. rewrite (Hs r (or_intror Hr)).
  rewrite List.Forall_forall in Hx. rewrite key_eqb_sym, (Hx r Hr). reflexivity.
Qed.

Lemma keep_first_idem (rs : list row) :
  keep_first key [] (keep_first key [] rs) = keep_first key [] rs.
Proof.
  apply keep_first_fixed; [reflexivity | apply keep_first_distinct].
Qed.

End KeepFirst.

Lemma ForallOrdPairs_nth {A} (R : A -> A -> Prop) (l : list A) :
  ForallOrdPairs R l ->
  forall i j a b, i < j -> nth_error l i = Some a -> nth_error l j = Some b -> R a b.
Proof.
  induction 1 as [|x l Hx Hl IH]; intros i j a b Hij Hi Hj.
  - now destruct i.
  - destruct j as [|j]; [lia|]. simpl in Hj.
    destruct i as [|i]; simpl in Hi.
    + inversion Hi; subst. rewrite List.Forall_forall in Hx. apply Hx.
      eapply nth_error_In. eassumption.
    + eapply IH; [|eassumption|eassumption]. lia.
Qed.

(** ** The loader *)

Section LoaderFacts.

Variable parse_float : string -> float64.
Variable str_of_float : float64 -> string.

Abbreviation clean' := (clean parse_float str_of_float).
Abbreviation to_numeric' := (to_numeric parse_float).
Abbreviation strip_cell' := (strip_cell str_of_float).

Abbreviation coerce_row' := (coerce_row parse_float str_of_float).
Abbreviation clean_rows' := (clean_rows parse_float str_of_float).

Lemma clean_inv (raw df : DataFrame) :
  clean' raw = Ok df ->
  exists ilon ilat iloc,
    let cols := List.map normalize_name (columns raw) in
    positions "longitude" cols = [ilon] /\
    positions "latitude" cols = [ilat] /\
    positions "location" cols = [iloc] /\
    positions "crime_id" cols <> [] /\
    positions "crime_type" cols <> [] /\
    df = mkFrame cols (clean_rows' cols ilon ilat iloc (rows raw)).
Proof.
  unfold clean, coerce_numeric, strip_text, dropna, drop_duplicates.
  intros H.
  destruct (series_position TypeError "longitude" (rename_columns raw)) as [ilon|] eqn:E1;
    [|discriminate].
  apply series_position_nth in E1. simpl in H, E1.
  unfold series_position in H at 1. simpl in H.
  destruct (positions "latitude" (List.map normalize_name (columns raw)))
    as [|ilat [|]] eqn:E2; try discriminate.
  simpl in H.
  unfold series_position in H at 1. simpl in H.
  destruct (positions "location" (List.map normalize_name (columns raw)))
    as [|iloc [|]] eqn:E3; try discriminate.
  simpl in H.
  unfold subset_positions in H. simpl in H.
  rewrite E1, E2 in H. simpl in H.
  destruct (positions "crime_id" (List.map normalize_name (columns raw))) as [|i0 l0] eqn:E4;
    [discriminate|].
  destruct (positions "crime_type" (List.map normalize_name (columns raw))) as [|i1 l1] eqn:E5;
    [simpl in H; discriminate|].
  simpl in H. rewrite E4 in H. simpl in H. inversion H; subst. clear H.
  exists ilon, ilat, iloc. cbv zeta.
  repeat split; try assumption; try discriminate.
  unfold clean_rows, required_positions, id_positions, required. simpl.
  rewrite E1, E2, E4, E5. unfold coerce_row. rewrite !map_map. simpl.
  rewrite !app_nil_r. reflexivity.
Qed.

Lemma clean_compute (raw : DataFrame) (ilon ilat iloc : nat) :
  let cols := List.map normalize_name (columns raw) in
  positions "longitude" cols = [ilon] ->
  positions "latitude" cols = [ilat] ->
  positions "location" cols = [iloc] ->
  positions "crime_id" cols <> [] ->
  positions "crime_type" cols <> [] ->
  clean' raw = Ok (mkFrame cols (clean_rows' cols ilon ilat iloc (rows raw))).
Proof.
  intros cols E1 E2 E3 E4 E5.
  unfold clean, coerce_numeric, strip_text, dropna, drop_duplicates.
  unfold series_position at 1. simpl. fold cols. rewrite E1. simpl.
  unfold series_position at 1. simpl. fold cols. rewrite E2. simpl.
  unfold series_position at 1. simpl. fold cols. rewrite E3. simpl.
  unfold subset_positions. simpl. fold cols. rewrite E1, E2. simpl.
  destruct (positions "crime_id" cols) as [|i0 l0] eqn:F4; [congruence|].
  destruct (positions "crime_type" cols) as [|i1 l1] eqn:F5; [congruence|].
  simpl.
  unfold clean_rows, required_positions, id_positions, required. simpl.
  rewrite E1, E2, F4, F5. unfold coerce_row. rewrite !map_map. simpl.
  rewrite !app_nil_r. reflexivity.
Qed.

Lemma to_numeric_idem (c : cell) : to_numeric' (to_numeric' c) = to_numeric' c.
Proof. now destruct c. Qed.

Lemma strip_cell_idem (c : cell) : strip_cell' (strip_cell' c) = strip_cell' c.
Proof. unfold strip_cell. simpl. now rewrite strip_idem. Qed.

Lemma coerce_row_idem (ilon ilat iloc : nat) (r : row) :
  ilon <> ilat -> ilon <> iloc -> ilat <> iloc ->
  coerce_row' ilon ilat iloc (coerce_row' ilon ilat iloc r) = coerce_row' ilon ilat iloc r.
Proof.
  intros H1 H2 H3. unfold coerce_row.
  rewrite (update_comm ilon iloc) by assumption.
  rewrite (update_comm ilon ilat) by assumption.
  rewrite (update_idem ilon) by apply to_numeric_idem.
  rewrite (update_comm ilat iloc) by assumption.
  rewrite (update_idem ilat) by apply to_numeric_idem.
  rewrite (update_idem iloc) by apply strip_cell_idem.
  reflexivity.
Qed.

Lemma filter_fixed {A} (f : A -> bool) (l : list A) :
  (forall x, In x l -> f x = true) -> List.filter f l = l.
Proof.
  induction l as [|a l IH]; simpl; intros H; [reflexivity|].
  rewrite (H a (or_introl eq_refl)). f_equal. apply IH. intros x Hx. apply H. now right.
Qed.

Lemma map_fixed {A} (f : A -> A) (l : list A) :
  (forall x, In x l -> f x = x) -> List.map f l = l.
Proof.
  induction l as [|a l IH]; simpl; intros H; [reflexivity|].
  rewrite (H a (or_introl eq_refl)). f_equal. apply IH. intros x Hx. apply H. now right.
Qed.

Lemma clean_rows_In (cols : list string) (ilon ilat iloc : nat) (rs : list row) (r : row) :
  In r (clean_rows' cols ilon ilat iloc rs) ->
  complete (required_positions cols) r = true /\
  exists r0, In r0 rs /\ r = coerce_row' ilon ilat iloc r0.
Proof.
  unfold clean_rows. intros H. apply keep_first_incl in H.
  apply filter_In in H. destruct H as [H C]. split; [assumption|].
  apply in_map_iff in H. destruct H as [r0 [E H]]. now exists r0.
Qed.

Lemma clean_rows_idem (cols : list string) (ilon ilat iloc : nat) (rs : list row) :
  ilon <> ilat -> ilon <> iloc -> ilat <> iloc ->
  clean_rows' cols ilon ilat iloc (clean_rows' cols ilon ilat iloc rs)
  = clean_rows' cols ilon ilat iloc rs.
Proof.
  intros H1 H2 H3. unfold clean_rows at 1.
  rewrite map_fixed.
  - rewrite filter_fixed.
    + unfold clean_rows. apply keep_first_idem.
    + intros r Hr. now apply clean_rows_In in Hr.
  - intros r Hr. apply clean_rows_In in Hr. destruct Hr as [_ [r0 [_ ->]]].
    now apply coerce_row_idem.
Qed.

Lemma get_coerced_numeric (i : nat) (r : row) :
  exists x, get i (update i to_numeric' r) = CNum x.
Proof.
  destruct (Nat.lt_ge_cases i (length r)) as [H|H].
  - rewrite get_update_same by assumption. destruct (get i r) as [s|x]; simpl; eauto.
  - rewrite get_update_short by assumption. eauto.
Qed.

Lemma complete_In (ps : list nat) (r : row) (i : nat) :
  complete ps r = true -> In i ps -> isna (get i r) = false.
Proof.
  unfold complete. rewrite forallb_forall. intros H Hi.
  apply H in Hi. now apply negb_true_iff in Hi.
Qed.

(** C9. Cleaning a collection that is the loader's own output gives that
    collection back: the same column labels, the same rows with the same
    values, in the same order. *)
Theorem clean_idempotent (raw df : DataFrame) :
  clean' raw = Ok df -> clean' df = Ok df.
Proof.
  intros H. apply clean_inv in H.
  destruct H as [ilon [ilat [iloc [E1 [E2 [E3 [E4 [E5 ->]]]]]]]].
  set (cols := List.map normalize_name (columns raw)) in *.
  assert (Hc : List.map normalize_name cols = cols).
  { unfold cols. rewrite map_map. apply map_ext. intros s. apply normalize_name_idem. }
  pose proof (clean_compute (mkFrame cols (clean_rows' cols ilon ilat iloc (rows raw)))
                ilon ilat iloc) as K.
  simpl in K. rewrite Hc in K. rewrite (K E1 E2 E3 E4 E5). f_equal. f_equal.
  apply clean_rows_idem.
  - eapply (positions_distinct "longitude" "latitude" cols);
      [discriminate | rewrite E1 | rewrite E2]; now left.
  - eapply (positions_distinct "longitude" "location" cols);
      [discriminate | rewrite E1 | rewrite E3]; now left.
  - eapply (positions_distinct "latitude" "location" cols);
      [discriminate | rewrite E2 | rewrite E3]; now left.
Qed.

(** C3, as the code has it. In the collection the loader returns no two
    records share an identifier, and every record has a latitude and a
    longitude that are numbers and not NaN. (An infinite coordinate is not
    a missing one: the loader keeps it.) *)
Theorem clean_unique_and_located (raw df : DataFrame) :
  clean' raw = Ok df ->
  (forall i j ri rj, i <> j ->
     nth_error (rows df) i = Some ri -> nth_error (rows df) j = Some rj ->
     key_eqb (identifier df ri) (identifier df rj) = false) /\
  exists ilat ilon,
    positions "latitude" (columns df) = [ilat] /\
    positions "longitude" (columns df) = [ilon] /\
    forall r, In r (rows df) ->
      exists lat lon,
        get ilat r = CNum lat /\ get ilon r = CNum lon /\
        is_nan lat = false /\ is_nan lon = false.
Proof.
  intros H. apply clean_inv in H.
  destruct H as [ilon [ilat [iloc [E1 [E2 [E3 [E4 [E5 ->]]]]]]]].
  set (cols := List.map normalize_name (columns raw)) in *.
  assert (N1 : ilon <> ilat).
  { eapply (positions_distinct "longitude" "latitude" cols);
      [discriminate | rewrite E1 | rewrite E2]; now left. }
  assert (N2 : ilon <> iloc).
  { eapply (positions_distinct "longitude" "location" cols);
      [discriminate | rewrite E1 | rewrite E3]; now left. }
  assert (N3 : ilat <> iloc).
  { eapply (positions_distinct "latitude" "location" cols);
      [discriminate | rewrite E2 | rewrite E3]; now left. }
  split.
  - intros i j ri rj Hij Hi Hj. unfold identifier. simpl.
    pose proof (keep_first_distinct (key_of (id_positions cols)) []
                  (List.filter (complete (required_positions cols))
                     (List.map (coerce_row' ilon ilat iloc) (rows raw)))) as D.
    fold (clean_rows' cols ilon ilat iloc (rows raw)) in D.
    assert (P : positions "crime_id" cols = id_positions cols).
    { unfold id_positions. simpl. now rewrite app_nil_r. }
    rewrite P. simpl in Hi, Hj.
    destruct (Nat.lt_total i j) as [L|[L|L]]; [|contradiction|].
    + exact (ForallOrdPairs_nth _ _ D i j ri rj L Hi Hj).
    + rewrite key_eqb_sym. exact (ForallOrdPairs_nth _ _ D j i rj ri L Hj Hi).
  - exists ilat, ilon. simpl. repeat split; try assumption.
    intros r Hr. apply clean_rows_In in Hr. destruct Hr as [C [r0 [_ E]]].
    assert (Clat : isna (get ilat r) = false).
    { apply (complete_In _ _ _ C). unfold required_positions, required. simpl.
      rewrite E2. rewrite !in_app_iff. right. right. left. now left. }
    assert (Clon : isna (get ilon r) = false).
    { apply (complete_In _ _ _ C). unfold required_positions, required. simpl.
      rewrite E1. rewrite !in_app_iff. right. right. right. left. now left. }
    assert (Glat : exists x, get ilat r = CNum x).
    { subst r. unfold coerce_row. rewrite get_update_other by congruence.
      apply get_coerced_numeric. }
    assert (Glon : exists x, get ilon r = CNum x).
    { subst r. unfold coerce_row. rewrite get_update_other by congruence.
      rewrite get_update_other by congruence. apply get_coerced_numeric. }
    destruct Glat as [lat Glat], Glon as [lon Glon].
    exists lat, lon. rewrite Glat in Clat. rewrite Glon in Clon. simpl in *.
    repeat split; assumption.
Qed.

End LoaderFacts.

Lemma clean_idempotent_witness :
  clean parse_whole str_class raw_example = Ok cleaned_example /\
  clean parse_whole str_class cleaned_example = Ok cleaned_example.
Proof.
  split; [vm_compute; reflexivity|].
  apply (clean_idempotent parse_whole str_class raw_example).
  vm_compute. reflexivity.
Defined.

Lemma clean_unique_and_located_witness :
  clean parse_whole str_class raw_example = Ok cleaned_example /\
  (forall i j ri rj, i <> j ->
     nth_error (rows cleaned_example) i = Some ri ->
     nth_error (rows cleaned_example) j = Some rj ->
     key_eqb (identifier cleaned_example ri) (identifier cleaned_example rj) = false) /\
  exists ilat ilon,
    positions "latitude" (columns cleaned_example) = [ilat] /\
    positions "longitude" (columns cleaned_example) = [ilon] /\
    forall r, In r (rows cleaned_example) ->
      exists lat lon,
        get ilat r = CNum lat /\ get ilon r = CNum lon /\
        is_nan lat = false /\ is_nan lon = false.
Proof.
  split; [vm_compute; reflexivity|].
  apply (clean_unique_and_located parse_whole str_class raw_example).
  vm_compute. reflexivity.
Defined.

(** C3, as the specification states it, fails: the loader returns both
    records of [raw_infinite], and their latitude, at position 3, is
    infinite. *)
Lemma clean_keeps_infinite_latitude :
  clean parse_whole str_class raw_infinite = Ok cleaned_infinite /\
  positions "latitude" (columns cleaned_infinite) = [3] /\
  List.map (get 3) (rows cleaned_infinite)
  = [CNum (S754_infinity false); CNum (S754_infinity false)] /\
  is_finite (S754_infinity false) = false.
Proof. vm_compute. repeat split. Qed.

(** ** Results and traversals *)

Lemma bind_Ok {A B} (r : result A) (k : A -> result B) (b : B) :
  bind r k = Ok b -> exists a, r = Ok a /\ k a = Ok b.
Proof. destruct r as [a|e]; simpl; intros H; [eauto | discriminate]. Qed.

Ltac bind_inv H a E :=
  apply bind_Ok in H; destruct H as [a [E H]].

Lemma mapM_Forall2 {A B} (f : A -> result B) (l : list A) (l' : list B) :
  mapM f l = Ok l' -> List.Forall2 (fun a b => f a = Ok b) l l'.
Proof.
  revert l'. induction l as [|a l IH]; simpl; intros l' H.
  - inversion H. constructor.
  - bind_inv H b E. bind_inv H bs Es. inversion H; subst.
    constructor; [assumption | now apply IH].
Qed.

Lemma mapM_length {A B} (f : A -> result B) (l : list A) (l' : list B) :
  mapM f l = Ok l' -> length l' = length l.
Proof.
  intros H. apply mapM_Forall2 in H. symmetry. eapply List.Forall2_length. eassumption.
Qed.

Lemma mapM_In {A B} (f : A -> result B) (l : list A) (l' : list B) (b : B) :
  mapM f l = Ok l' -> In b l' -> exists a, In a l /\ f a = Ok b.
Proof.
  intros H. apply mapM_Forall2 in H. induction H as [|a b' l l' Hab H IH]; intros Hb.
  - contradiction.
  - destruct Hb as [<-|Hb].
    + exists a. split; [now left | assumption].
    + destruct (IH Hb) as [a' [Ha' Hf]]. exists a'. split; [now right | assumption].
Qed.

Lemma mapM_ext_in {A B} (f g : A -> result B) (l : list A) :
  (forall a, In a l -> f a = g a) -> mapM f l = mapM g l.
Proof.
  induction l as [|a l IH]; simpl; intros H; [reflexivity|].
  rewrite (H a (or_introl eq_refl)). rewrite IH; [reflexivity|].
  intros x Hx. apply H. now right.
Qed.

Lemma mapM_map {A B C} (f : B -> result C) (g : A -> B) (l : list A) :
  mapM f (List.map g l) = mapM (fun a => f (g a)) l.
Proof.
  induction l as [|a l IH]; simpl; [reflexivity|]. now rewrite IH.
Qed.

Lemma mapM_Ok_map {A B} (f : A -> result B) (g : A -> B) (l : list A) :
  (forall a, In a l -> f a = Ok (g a)) -> mapM f l = Ok (List.map g l).
Proof.
  induction l as [|a l IH]; simpl; intros H; [reflexivity|].
  rewrite (H a (or_introl eq_refl)). simpl. rewrite IH; [reflexivity|].
  intros x Hx. apply H. now right.
Qed.

(** ** Columns under assignment *)

Lemma column_at_assign_other (i j : nat) (vals : list cell) (df : DataFrame) :
  i <> j -> column_at j (assign_column i vals df) = column_at j df.
Proof.
  intros H. unfold column_at, assign_column. simpl.
  generalize (rows df). intros rs. revert vals.
  induction rs as [|r rs IH]; intros vals; [reflexivity|].
  destruct vals as [|v vals]; [reflexivity|]. simpl.
  rewrite get_update_other by assumption. now rewrite IH.
Qed.

Lemma length_assign_rows (i : nat) (vals : list cell) (rs : list row) :
  length (assign_rows i vals rs) = length rs.
Proof.
  revert vals. induction rs as [|r rs IH]; intros vals; [reflexivity|].
  destruct vals as [|v vals]; [reflexivity|]. simpl. now rewrite IH.
Qed.

Lemma as_label_cell (l : label) : as_label (cell_of_label l) = Ok l.
Proof. now destruct l. Qed.

(** Writing back a relabelled column and reading it again. *)
Lemma relabelled_column (i : nat) (f : label -> label) (df : DataFrame) (y0 : list label) :
  f None = None ->
  mapM as_label (column_at i df) = Ok y0 ->
  mapM as_label (column_at i (assign_column i (List.map cell_of_label (List.map f y0)) df))
  = Ok (List.map f y0).
Proof.
  intros Hf. unfold column_at, assign_column. simpl.
  generalize (rows df). intros rs. revert y0.
  induction rs as [|r rs IH]; simpl; intros y0 H.
  - inversion H. reflexivity.
  - bind_inv H l E. bind_inv H ls Es. inversion H; subst. simpl.
    rewrite (IH _ Es). simpl.
    destruct (Nat.lt_ge_cases i (length r)) as [L|L].
    + rewrite get_update_same by assumption. now rewrite as_label_cell.
    + rewrite get_update_short by assumption.
      assert (G : get i r = CNum nan).
      { unfold get. apply nth_overflow. assumption. }
      rewrite G in E. simpl in E. inversion E; subst. simpl. now rewrite Hf.
Qed.

(** ** [train_model], step by step *)

Lemma select_features_inv (dfm X : DataFrame) (i1 i2 i3 i4 i5 : nat) :
  select features dfm = Ok X ->
  positions "longitude" (columns X) = [i1] ->
  positions "latitude" (columns X) = [i2] ->
  positions "reported_by" (columns X) = [i3] ->
  positions "falls_within" (columns X) = [i4] ->
  positions "last_outcome_category" (columns X) = [i5] ->
  exists p1 p2 p3 p4 p5,
    positions "longitude" (columns dfm) = [p1] /\
    positions "latitude" (columns dfm) = [p2] /\
    positions "reported_by" (columns dfm) = [p3] /\
    positions "falls_within" (columns dfm) = [p4] /\
    positions "last_outcome_category" (columns dfm) = [p5] /\
    X = mkFrame features (List.map (key_of [p1; p2; p3; p4; p5]) (rows dfm)).
Proof.
  unfold select, subset_positions, features. intros H H1 H2 H3 H4 H5.
  cbn [forallb List.map concat] in H.
  assert (G : forall (c : bool) (a : list nat) (k : list nat -> result DataFrame),
             ((ps <- (if c then Ok a else Err KeyError) ;; k ps) = Ok X) -> k a = Ok X).
  { intros [] a k K; [exact K | discriminate K]. }
  destruct (positions "longitude" (columns dfm)) as [|p1 [|q1 l1]] eqn:E1;
    [discriminate H| |].
  2:{ exfalso. apply G in H. inversion H; subst X. simpl in H1. discriminate H1. }
  destruct (positions "latitude" (columns dfm)) as [|p2 [|q2 l2]] eqn:E2;
    [discriminate H| |].
  2:{ exfalso. apply G in H. inversion H; subst X. simpl in H2. discriminate H2. }
  destruct (positions "reported_by" (columns dfm)) as [|p3 [|q3 l3]] eqn:E3;
    [discriminate H| |].
  2:{ exfalso. apply G in H. inversion H; subst X. simpl in H3. discriminate H3. }
  destruct (positions "falls_within" (columns dfm)) as [|p4 [|q4 l4]] eqn:E4;
    [discriminate H| |].
  2:{ exfalso. apply G in H. inversion H; subst X. simpl in H4. discriminate H4. }
  destruct (positions "last_outcome_category" (columns dfm)) as [|p5 [|q5 l5]] eqn:E5;
    [discriminate H| |].
  2:{ exfalso. apply G in H. inversion H; subst X. simpl in H5. discriminate H5. }
  apply G in H. inversion H; subst X.
  exists p1, p2, p3, p4, p5. repeat split; reflexivity.
Qed.

Section TrainingFacts.

Variable col_mean : list float64 -> float64.
Variable col_scale : list float64 -> float64.

Abbreviation train_model' := (train_model col_mean col_scale).

Lemma column_at_key_of (cols : list string) (ps : list nat) (rs : list row) (k p : nat) :
  nth_error ps k = Some p ->
  column_at k (mkFrame cols (List.map (key_of ps) rs)) = List.map (get p) rs.
Proof.
  intros H. unfold column_at. simpl. rewrite map_map. apply map_ext. intros r.
  unfold get at 1, key_of.
  erewrite nth_error_nth; [reflexivity|].
  exact (map_nth_error (fun i => get i r) k ps H).
Qed.

Lemma train_model_inv (df : DataFrame) (t : Trained) :
  train_model' df = Ok t ->
  exists dfm0 ict y0 y3 y4 y5 lon lat y_enc matrix st,
    dropna ["lsoa_code"; "lsoa_name"] df = Ok dfm0 /\
    positions "crime_type" (columns dfm0) = [ict] /\
    mapM as_label (column_at ict dfm0) = Ok y0 /\
    df_model t = assign_column ict (List.map cell_of_label (collapse y0)) dfm0 /\
    label_column "crime_type" (df_model t) = Ok (collapse y0) /\
    label_column "reported_by" (df_model t) = Ok y3 /\
    label_column "falls_within" (df_model t) = Ok y4 /\
    label_column "last_outcome_category" (df_model t) = Ok y5 /\
    label_encoders t =
      <["last_outcome_category" := LabelEncoder.mk (Some (LabelEncoder.unique y5))]>
        (<["falls_within" := LabelEncoder.mk (Some (LabelEncoder.unique y4))]>
           (<["reported_by" := LabelEncoder.mk (Some (LabelEncoder.unique y3))]> empty)) /\
    numeric_column "longitude" (df_model t) = Ok lon /\
    numeric_column "latitude" (df_model t) = Ok lat /\
    StandardScaler.check (zip lon lat) = Ok tt /\
    scaler t = StandardScaler.mk (Some st) /\
    le_target t = LabelEncoder.mk (Some (LabelEncoder.unique (collapse y0))) /\
    mapM (LabelEncoder.encode (LabelEncoder.unique (collapse y0))) (collapse y0) = Ok y_enc /\
    rf t = RandomForest.mk (Some (sorted_set Nat.compare y_enc, (matrix, y_enc))) /\
    matrix <> [] /\
    length matrix = length y_enc.
Proof.
  unfold train_model. intros H.
  bind_inv H dfm0 E0. bind_inv H ict Eict. bind_inv H y0 Ey0.
  bind_inv H X EX. bind_inv H y Ey. bind_inv H enc Eenc.
  destruct enc as [X_enc encoders].
  cbn [fit_label_encoders label_features] in Eenc.
  bind_inv Eenc i3 Ei3. bind_inv Eenc y3 Ey3.
  cbn [LabelEncoder.fit_transform] in Eenc.
  bind_inv Eenc c3 Ec3.
  bind_inv Eenc i4 Ei4. bind_inv Eenc y4 Ey4.
  bind_inv Eenc c4 Ec4.
  bind_inv Eenc i5 Ei5. bind_inv Eenc y5 Ey5.
  bind_inv Eenc c5 Ec5.
  inversion Eenc; subst X_enc encoders; clear Eenc.
  bind_inv H ilon Eilon. bind_inv H ilat Eilat.
  apply series_position_nth in Ei3, Ei4, Ei5, Eilon, Eilat, Eict.
  cbn [columns assign_column] in Ei4, Ei5, Eilon, Eilat.
  destruct (select_features_inv _ _ _ _ _ _ _ EX Eilon Eilat Ei3 Ei4 Ei5)
    as [p1 [p2 [p3 [p4 [p5 [P1 [P2 [P3 [P4 [P5 ->]]]]]]]]]].
  cbn [columns assign_column] in P1, P2, P3, P4, P5.
  cbv in Ei3, Ei4, Ei5, Eilon, Eilat.
  inversion Ei3; inversion Ei4; inversion Ei5; inversion Eilon; inversion Eilat.
  subst i3 i4 i5 ilon ilat. clear Ei3 Ei4 Ei5 Eilon Eilat EX.
  set (dfm := assign_column ict (List.map cell_of_label (collapse y0)) dfm0) in *.
  assert (D1 : p1 <> ict).
  { eapply (positions_distinct "longitude" "crime_type" (columns dfm0));
      [discriminate | rewrite P1 | rewrite Eict]; now left. }
  assert (D2 : p2 <> ict).
  { eapply (positions_distinct "latitude" "crime_type" (columns dfm0));
      [discriminate | rewrite P2 | rewrite Eict]; now left. }
  bind_inv H lon Elon. bind_inv H lat Elat.
  repeat rewrite column_at_assign_other in Ey4 by discriminate.
  repeat rewrite column_at_assign_other in Ey5 by discriminate.
  repeat rewrite column_at_assign_other in Elon by discriminate.
  repeat rewrite column_at_assign_other in Elat by discriminate.
  rewrite (column_at_key_of _ _ _ 2 p3) in Ey3 by reflexivity.
  rewrite (column_at_key_of _ _ _ 3 p4) in Ey4 by reflexivity.
  rewrite (column_at_key_of _ _ _ 4 p5) in Ey5 by reflexivity.
  rewrite (column_at_key_of _ _ _ 0 p1) in Elon by reflexivity.
  rewrite (column_at_key_of _ _ _ 1 p2) in Elat by reflexivity.
  fold (column_at p3 dfm) in Ey3. fold (column_at p4 dfm) in Ey4.
  fold (column_at p5 dfm) in Ey5. fold (column_at p1 dfm) in Elon.
  fold (column_at p2 dfm) in Elat.
  assert (Ey' : y = collapse y0).
  { unfold label_column, series_position in Ey. cbn [columns assign_column dfm] in Ey.
    rewrite Eict in Ey. simpl in Ey.
    unfold dfm, collapse in Ey.
    rewrite (relabelled_column _ _ _ _ eq_refl Ey0) in Ey.
    inversion Ey. reflexivity. }
  subst y.
  unfold StandardScaler.fit_transform in H.
  destruct (StandardScaler.check (zip lon lat)) as [[]|e] eqn:Echeck; [|discriminate H].
  simpl in H.
  bind_inv H y_enc Eenc. bind_inv H matrix Ematrix.
  unfold RandomForest.fit in H.
  destruct (RandomForest.check matrix) as [[]|e] eqn:Efit; [|discriminate H].
  destruct (length matrix =? length y_enc) eqn:Elen; [|discriminate H].
  simpl in H. inversion H; subst t; clear H. simpl.
  eexists dfm0, ict, y0, y3, y4, y5, lon, lat, y_enc, matrix, _.
  repeat match goal with |- _ /\ _ => split end; try reflexivity; try assumption.
  - unfold label_column, series_position. cbn [columns assign_column dfm].
    now rewrite P3.
  - unfold label_column, series_position. cbn [columns assign_column dfm].
    now rewrite P4.
  - unfold label_column, series_position. cbn [columns assign_column dfm].
    now rewrite P5.
  - unfold numeric_column, series_position. cbn [columns assign_column dfm].
    now rewrite P1.
  - unfold numeric_column, series_position. cbn [columns assign_column dfm].
    now rewrite P2.
  - unfold RandomForest.check in Efit. intros ->.
    destruct (forallb _ _) in Efit; discriminate Efit.
  - now apply Nat.eqb_eq.
Qed.

End TrainingFacts.

(** ** The objects under [transform] and [predict] *)

Lemma LabelEncoder_transform_self (y : list label) (le : LabelEncoder.t) :
  snd (LabelEncoder.transform y le) = le.
Proof. unfold LabelEncoder.transform. now destruct (LabelEncoder.classes_ le). Qed.

Lemma LabelEncoder_inverse_transform_self (codes : list nat) (le : LabelEncoder.t) :
  snd (LabelEncoder.inverse_transform codes le) = le.
Proof. unfold LabelEncoder.inverse_transform. now destruct (LabelEncoder.classes_ le). Qed.

Lemma StandardScaler_transform_self (X : list (float64 * float64)) (sc : StandardScaler.t) :
  snd (StandardScaler.transform X sc) = sc.
Proof.
  unfold StandardScaler.transform. destruct (StandardScaler.fitted sc); [|reflexivity].
  now destruct (StandardScaler.check X).
Qed.

Lemma RandomForest_predict_self (vote : list (list float64) -> list nat -> list float64 -> nat)
    (X : list (list float64)) (f : RandomForest.t) :
  snd (RandomForest.predict vote X f) = f.
Proof.
  unfold RandomForest.predict. destruct (RandomForest.fitted f) as [[c [X0 y0]]|]; [|reflexivity].
  now destruct (RandomForest.check X).
Qed.

Lemma with_label_encoders_same (t : Trained) (col : string) (le : LabelEncoder.t) :
  label_encoders t !! col = Some le ->
  with_label_encoders (<[col := le]> (label_encoders t)) t = t.
Proof.
  intros H. rewrite (insert_id _ _ _ H). now destruct t.
Qed.

(** ** The loop as a computation over the world *)

Lemma bindM_Ok {A B} (m : M A) (k : A -> M B) (w w' : World) (b : B) :
  bindM m k w = (Ok b, w') ->
  exists a w1, m w = (Ok a, w1) /\ k a w1 = (Ok b, w').
Proof.
  unfold bindM. destruct (m w) as [[a|e] w1]; intros H; [eauto | discriminate].
Qed.

Lemma keeps_ret {A} (a : A) : keeps_trained (ret a).
Proof. intros w. reflexivity. Qed.

Lemma keeps_lift {A} (r : result A) : keeps_trained (lift r).
Proof. intros w. reflexivity. Qed.

Lemma keeps_bindM {A B} (m : M A) (k : A -> M B) :
  keeps_trained m -> (forall a, keeps_trained (k a)) -> keeps_trained (bindM m k).
Proof.
  intros Hm Hk w. unfold bindM. specialize (Hm w).
  destruct (m w) as [[a|e] w1]; simpl in *; [|assumption].
  now rewrite Hk.
Qed.

Section LoopFacts.

Variable vote : list (list float64) -> list nat -> list float64 -> nat.

Lemma keeps_np_random_uniform (low high : float64) (n : nat) :
  keeps_trained (np_random_uniform low high n).
Proof.
  intros w. unfold np_random_uniform. now destruct (uniform low high n (np_random w)).
Qed.

Lemma keeps_encoder_transform (col : string) (y : list label) :
  keeps_trained (encoder_transform col y).
Proof.
  intros w. unfold encoder_transform.
  destruct (label_encoders (trained w) !! col) as [le|] eqn:E; [|reflexivity].
  pose proof (LabelEncoder_transform_self y le) as S.
  destruct (LabelEncoder.transform y le) as [r le']. simpl in *. subst le'.
  now apply with_label_encoders_same.
Qed.

Lemma keeps_scaler_transform (X : list (float64 * float64)) :
  keeps_trained (scaler_transform X).
Proof.
  intros w. unfold scaler_transform.
  pose proof (StandardScaler_transform_self X (scaler (trained w))) as S.
  destruct (StandardScaler.transform X (scaler (trained w))) as [r s]. simpl in *.
  subst s. now destruct (trained w).
Qed.

Lemma keeps_rf_predict (X : list (list float64)) : keeps_trained (rf_predict vote X).
Proof.
  intros w. unfold rf_predict.
  pose proof (RandomForest_predict_self vote X (rf (trained w))) as S.
  destruct (RandomForest.predict vote X (rf (trained w))) as [r f]. simpl in *.
  subst f. now destruct (trained w).
Qed.

Lemma keeps_target_inverse_transform (codes : list nat) :
  keeps_trained (target_inverse_transform codes).
Proof.
  intros w. unfold target_inverse_transform.
  pose proof (LabelEncoder_inverse_transform_self codes (le_target (trained w))) as S.
  destruct (LabelEncoder.inverse_transform codes (le_target (trained w))) as [r le].
  simpl in *. subst le. now destruct (trained w).
Qed.

Lemma keeps_mode_codes (col : string) : keeps_trained (mode_codes col).
Proof.
  intros w. unfold mode_codes.
  apply (keeps_bindM (lift (label_column col (df_model (trained w))))); [apply keeps_lift|].
  intros y. apply keeps_bindM; [apply keeps_lift|].
  intros v. apply keeps_encoder_transform.
Qed.

Lemma keeps_period (a b c d : float64) (m : nat) : keeps_trained (period vote a b c d m).
Proof.
  unfold period.
  repeat (apply keeps_bindM;
          [first [ apply keeps_np_random_uniform | apply keeps_mode_codes | apply keeps_lift
                 | apply keeps_scaler_transform | apply keeps_rf_predict
                 | apply keeps_target_inverse_transform ]
          | intros ?]).
  apply keeps_ret.
Qed.

Lemma keeps_period_loop (a b c d : float64) (months : list nat)
    (acc : list (list future_row)) :
  keeps_trained (period_loop vote a b c d months acc).
Proof.
  revert acc. induction months as [|m months IH]; intros acc; simpl.
  - apply keeps_ret.
  - apply keeps_bindM; [apply keeps_period | intros df_f; apply IH].
Qed.

Lemma keeps_future_incidents : keeps_trained (future_incidents vote).
Proof.
  intros w. unfold future_incidents.
  apply (keeps_bindM (lift (numeric_column "longitude" (df_model (trained w)))));
    [apply keeps_lift|].
  intros lon. apply keeps_bindM; [apply keeps_lift|].
  intros lat. apply keeps_bindM; [apply keeps_period_loop|].
  intros l. apply keeps_ret.
Qed.

End LoopFacts.

(** ** Encoder determinism *)

Lemma encoder_transform_world (col : string) (y : list label) (w : World) :
  snd (encoder_transform col y w) = w.
Proof.
  pose proof (keeps_encoder_transform col y w) as K.
  unfold encoder_transform in *.
  destruct (label_encoders (trained w) !! col) as [le|]; [|reflexivity].
  destruct (LabelEncoder.transform y le) as [r le']. simpl in *.
  rewrite K. now destruct w.
Qed.

Lemma scaler_transform_world (X : list (float64 * float64)) (w : World) :
  snd (scaler_transform X w) = w.
Proof.
  pose proof (keeps_scaler_transform X w) as K.
  unfold scaler_transform in *.
  destruct (StandardScaler.transform X (scaler (trained w))) as [r s]. simpl in *.
  rewrite K. now destruct w.
Qed.

Lemma encoder_transform_unseen (col : string) (y : list label) (w : World)
    (le : LabelEncoder.t) (classes : list label) (v : label) :
  label_encoders (trained w) !! col = Some le ->
  LabelEncoder.classes_ le = Some classes ->
  In v y -> ~ In v classes ->
  encoder_transform col y w = (Err UnseenLabel, w).
Proof.
  intros Hle Hc Hv Hn.
  pose proof (encoder_transform_world col y w) as S.
  unfold encoder_transform in *. rewrite Hle in *.
  unfold LabelEncoder.transform in *. rewrite Hc in *. simpl in *.
  rewrite S. now rewrite (LabelEncoderFacts.encode_unseen _ _ _ Hn Hv).
Qed.

(** C5. Through the fitted encoders a transform changes nothing of the
    fitted state (the feature encoders of the dictionary, the scaler's
    means and scales, and so every object the period loop uses), so the
    same input transformed again gives the same output; and a column that
    holds a value absent from an encoder's classes makes [transform] raise
    the unseen-label error, whatever was transformed before. *)
Theorem transform_deterministic :
  (forall (col : string) (y : list label) (w : World),
     snd (encoder_transform col y w) = w /\
     encoder_transform col y (snd (encoder_transform col y w)) = encoder_transform col y w) /\
  (forall (X : list (float64 * float64)) (w : World),
     snd (scaler_transform X w) = w /\
     scaler_transform X (snd (scaler_transform X w)) = scaler_transform X w) /\
  (forall (vote : list (list float64) -> list nat -> list float64 -> nat) (w : World),
     trained (snd (future_incidents vote w)) = trained w) /\
  (forall (col : string) (y : list label) (w : World) (le : LabelEncoder.t)
          (classes : list label) (v : label),
     label_encoders (trained w) !! col = Some le ->
     LabelEncoder.classes_ le = Some classes ->
     In v y -> ~ In v classes ->
     encoder_transform col y w = (Err UnseenLabel, w)).
Proof.
  repeat split.
  - apply encoder_transform_world.
  - now rewrite encoder_transform_world.
  - apply scaler_transform_world.
  - now rewrite scaler_transform_world.
  - apply keeps_future_incidents.
  - intros. eapply encoder_transform_unseen; eassumption.
Qed.

(** ** One period, step by step *)

Lemma length_fill (n : nat) (low range : float64) (g : RandomState) :
  length (fst (fill n low range g)) = n.
Proof.
  revert g. induction n as [|n IH]; intros g; cbn [fill]; [reflexivity|].
  destruct (next_double g) as [u g1]. specialize (IH g1).
  destruct (fill n low range g1) as [xs g2]. cbn [fst length] in *. now rewrite IH.
Qed.

Lemma uniform_spec (low high : float64) (n : nat) (g : RandomState) :
  match fst (uniform low high n g) with
  | Ok xs => length xs = n
  | Err e => e = OverflowError
  end.
Proof.
  unfold uniform. destruct (is_finite (fsub high low)); [|reflexivity].
  pose proof (length_fill n low (fsub high low) g) as L.
  now destruct (fill n low (fsub high low) g).
Qed.

Lemma np_random_uniform_spec (low high : float64) (n : nat) (w : World) :
  trained (snd (np_random_uniform low high n w)) = trained w /\
  match fst (np_random_uniform low high n w) with
  | Ok xs => length xs = n
  | Err e => e = OverflowError
  end.
Proof.
  split; [apply keeps_np_random_uniform|].
  unfold np_random_uniform. pose proof (uniform_spec low high n (np_random w)) as U.
  now destruct (uniform low high n (np_random w)).
Qed.

Lemma In_mode (v : string) (y : list label) : In v (mode y) -> In (Some v) y.
Proof.
  unfold mode, value_counts. intros H.
  apply in_map_iff in H. destruct H as [[s n] [E H]]. simpl in E. subst s.
  apply filter_In in H. destruct H as [H _].
  apply in_map_iff in H. destruct H as [s [E H]]. inversion E; subst.
  apply (proj1 (In_sorted_set _ string_compare_eq _ _)) in H.
  apply In_present. exact H.
Qed.

Lemma mode0_In (v : string) (y : list label) : mode0 y = Ok v -> In (Some v) y.
Proof.
  unfold mode0. destruct (mode y) as [|s l] eqn:E; intros H; inversion H; subst.
  apply In_mode. rewrite E. now left.
Qed.

Lemma mode0_error (y : list label) (e : exn) : mode0 y = Err e -> e = KeyError.
Proof. unfold mode0. destruct (mode y); intros H; inversion H. reflexivity. Qed.

Lemma mode_codes_spec (col : string) (w : World) (y : list label) :
  label_column col (df_model (trained w)) = Ok y ->
  label_encoders (trained w) !! col = Some (LabelEncoder.mk (Some (LabelEncoder.unique y))) ->
  snd (mode_codes col w) = w /\
  match mode0 y with
  | Ok v => exists i, LabelEncoder.index_of (Some v) (LabelEncoder.unique y) = Some i /\
                      fst (mode_codes col w) = Ok (repeat i batch_size)
  | Err _ => fst (mode_codes col w) = Err KeyError
  end.
Proof.
  intros Hy Hle. unfold mode_codes, bindM, lift. rewrite Hy.
  destruct (mode0 y) as [v|e] eqn:Ev.
  - split; [apply encoder_transform_world|].
    apply mode0_In, LabelEncoderFacts.In_unique in Ev.
    destruct (LabelEncoderFacts.index_of_In _ _ Ev) as [i Hi].
    exists i. split; [assumption|].
    unfold encoder_transform. rewrite Hle.
    unfold LabelEncoder.transform. cbn [LabelEncoder.classes_ fst].
    now rewrite (LabelEncoderFacts.encode_repeat _ _ _ _ Hi).
  - split; [reflexivity|]. now rewrite (mode0_error _ _ Ev).
Qed.

Lemma same_length_spec (n : nat) (ls : list nat) :
  match same_length n ls with
  | Ok _ => List.Forall (eq n) ls
  | Err e => e = LengthMismatch
  end.
Proof.
  unfold same_length. destruct (forallb (Nat.eqb n) ls) eqn:E; [|reflexivity].
  apply List.Forall_forall. intros x Hx.
  rewrite forallb_forall in E. apply Nat.eqb_eq. now apply E.
Qed.

Lemma length_zip {A B} (a : list A) (b : list B) :
  length a = length b -> length (zip a b) = length a.
Proof.
  revert b. induction a as [|x a IH]; intros [|y b] H; simpl in *; try reflexivity; try lia.
  f_equal. apply IH. lia.
Qed.

Lemma scaler_transform_spec (X : list (float64 * float64)) (w : World) :
  match fst (scaler_transform X w) with
  | Ok xy => length xy = length X
  | Err e => e <> UnseenLabel
  end.
Proof.
  unfold scaler_transform, StandardScaler.transform.
  destruct (StandardScaler.fitted (scaler (trained w))) as [st|]; [|simpl; discriminate].
  unfold StandardScaler.check.
  destruct (existsb _ X); [simpl; discriminate|].
  destruct X; simpl; [discriminate|]. now rewrite length_map.
Qed.

Lemma length_build_matrix (n : nat) (xy : list (float64 * float64)) (rb fw loc : list nat) :
  length xy = n -> length rb = n -> length fw = n -> length loc = n ->
  length (build_matrix xy rb fw loc) = n.
Proof.
  revert xy rb fw loc. induction n as [|n IH];
    intros [|p xy] [|a rb] [|b fw] [|c loc] H1 H2 H3 H4; simpl in *; try lia.
  f_equal. apply IH; lia.
Qed.

Lemma length_build_rows (n m : nat) (xy : list (float64 * float64)) (rb fw loc : list nat)
    (pred : list label) :
  length xy = n -> length rb = n -> length fw = n -> length loc = n -> length pred = n ->
  length (build_rows m xy rb fw loc pred) = n.
Proof.
  revert xy rb fw loc pred. induction n as [|n IH];
    intros [|p xy] [|a rb] [|b fw] [|c loc] [|l pred] H1 H2 H3 H4 H5; simpl in *; try lia.
  f_equal. apply IH; lia.
Qed.

Lemma build_rows_spec (m : nat) (xy : list (float64 * float64)) (rb fw loc : list nat)
    (pred : list label) (x : future_row) :
  In x (build_rows m xy rb fw loc pred) ->
  simulated_month x = m /\ In (predicted_crime_type x) pred.
Proof.
  revert rb fw loc pred. induction xy as [|p xy IH];
    intros [|a rb] [|b fw] [|c loc] [|l pred] H; simpl in H; try contradiction.
  destruct H as [<-|H]; simpl.
  - split; [reflexivity | now left].
  - destruct (IH _ _ _ _ H) as [H1 H2]. split; [assumption | now right].
Qed.

Section PeriodFacts.

Variable vote : list (list float64) -> list nat -> list float64 -> nat.

(** The facts about the trained objects that [train_model] establishes. *)
Variable t : Trained.
Variables y3 y4 y5 y : list label.
Variable y_enc : list nat.
Variable matrix : list (list float64).

Hypothesis H3 : label_column "reported_by" (df_model t) = Ok y3.
Hypothesis H4 : label_column "falls_within" (df_model t) = Ok y4.
Hypothesis H5 : label_column "last_outcome_category" (df_model t) = Ok y5.
Hypothesis Hencoders :
  label_encoders t =
    <["last_outcome_category" := LabelEncoder.mk (Some (LabelEncoder.unique y5))]>
      (<["falls_within" := LabelEncoder.mk (Some (LabelEncoder.unique y4))]>
         (<["reported_by" := LabelEncoder.mk (Some (LabelEncoder.unique y3))]> empty)).
Hypothesis Htarget : le_target t = LabelEncoder.mk (Some (LabelEncoder.unique y)).
Hypothesis Hy_enc : mapM (LabelEncoder.encode (LabelEncoder.unique y)) y = Ok y_enc.
Hypothesis Hrf : rf t = RandomForest.mk (Some (sorted_set Nat.compare y_enc, (matrix, y_enc))).
Hypothesis Hsamples : y_enc <> [].

Lemma lookup_reported_by :
  label_encoders t !! "reported_by" = Some (LabelEncoder.mk (Some (LabelEncoder.unique y3))).
Proof.
  rewrite Hencoders.
  rewrite lookup_insert_ne by discriminate. rewrite lookup_insert_ne by discriminate.
  apply lookup_insert_eq.
Qed.

Lemma lookup_falls_within :
  label_encoders t !! "falls_within" = Some (LabelEncoder.mk (Some (LabelEncoder.unique y4))).
Proof.
  rewrite Hencoders. rewrite lookup_insert_ne by discriminate. apply lookup_insert_eq.
Qed.

Lemma lookup_last_outcome_category :
  label_encoders t !! "last_outcome_category"
  = Some (LabelEncoder.mk (Some (LabelEncoder.unique y5))).
Proof. rewrite Hencoders. apply lookup_insert_eq. Qed.

Lemma class_id_bound (c : nat) :
  In c (sorted_set Nat.compare y_enc) ->
  exists v, nth_error (LabelEncoder.unique y) c = Some v /\ In v y.
Proof.
  intros H. apply (proj1 (In_sorted_set _ nat_compare_eq _ _)) in H.
  destruct (mapM_In _ _ _ _ Hy_enc H) as [v [Hv E]].
  unfold LabelEncoder.encode in E.
  destruct (LabelEncoder.index_of v (LabelEncoder.unique y)) as [i|] eqn:Ei; [|discriminate].
  inversion E; subst. exists v. split; [|assumption].
  now apply LabelEncoderFacts.index_of_Some.
Qed.

Lemma predict_one_class (X0 : list (list float64)) (y0 : list nat) (x : list float64) :
  In (RandomForest.predict_one vote (sorted_set Nat.compare y_enc) X0 y0 x)
     (sorted_set Nat.compare y_enc).
Proof.
  unfold RandomForest.predict_one. apply nth_In.
  apply Nat.mod_upper_bound.
  destruct (sorted_set Nat.compare y_enc) as [|c l] eqn:E; [|simpl; lia].
  exfalso. destruct y_enc as [|c l]; [now apply Hsamples|].
  assert (In c (sorted_set Nat.compare (c :: l))).
  { apply (proj2 (In_sorted_set _ nat_compare_eq _ _)). now left. }
  rewrite E in H. contradiction.
Qed.

Lemma rf_predict_spec (X : list (list float64)) (w : World) :
  trained w = t ->
  match fst (rf_predict vote X w) with
  | Ok preds =>
      length preds = length X /\
      List.Forall (fun c => In c (sorted_set Nat.compare y_enc)) preds
  | Err e => e <> UnseenLabel
  end.
Proof.
  intros Hw. unfold rf_predict, RandomForest.predict. rewrite Hw, Hrf.
  cbn [RandomForest.fitted].
  unfold RandomForest.check.
  destruct (forallb (forallb is_finite) X); [|simpl; discriminate].
  destruct X as [|x X]; [simpl; discriminate|].
  cbn [fst]. split; [apply length_map|].
  apply List.Forall_forall. intros c Hc. apply in_map_iff in Hc.
  destruct Hc as [x0 [<- _]]. apply predict_one_class.
Qed.

Lemma target_inverse_transform_spec (codes : list nat) (w : World) :
  trained w = t ->
  List.Forall (fun c => In c (sorted_set Nat.compare y_enc)) codes ->
  exists labels,
    fst (target_inverse_transform codes w) = Ok labels /\
    length labels = length codes /\
    List.Forall (fun v => In v y) labels.
Proof.
  intros Hw Hc. unfold target_inverse_transform, LabelEncoder.inverse_transform.
  rewrite Hw, Htarget. cbn [LabelEncoder.classes_ fst].
  induction Hc as [|c codes Hc1 Hc IH].
  - exists []. repeat split. constructor.
  - destruct IH as [labels [E [L F]]].
    destruct (class_id_bound c Hc1) as [v [Hv Hin]].
    exists (v :: labels). cbn [mapM]. unfold LabelEncoder.decode at 1. rewrite Hv.
    cbn [bind]. rewrite E. cbn [bind]. repeat split.
    + simpl. now rewrite L.
    + now constructor.
Qed.

Lemma mode_codes_outcome (col : string) (ycol : list label) (w : World) :
  trained w = t ->
  label_column col (df_model t) = Ok ycol ->
  label_encoders t !! col = Some (LabelEncoder.mk (Some (LabelEncoder.unique ycol))) ->
  snd (mode_codes col w) = w /\
  match fst (mode_codes col w) with
  | Ok codes => length codes = batch_size
  | Err e => e = KeyError
  end.
Proof.
  intros Hw Hy Hle. rewrite <- Hw in Hy, Hle.
  destruct (mode_codes_spec col w ycol Hy Hle) as [S M]. split; [assumption|].
  destruct (mode0 ycol) as [v|e].
  - destruct M as [i [_ ->]]. apply repeat_length.
  - now rewrite M.
Qed.

Lemma period_spec (a b c d : float64) (m : nat) (w : World) :
  trained w = t ->
  match fst (period vote a b c d m w) with
  | Ok batch =>
      length batch = batch_size /\
      List.Forall (fun x => simulated_month x = m /\ In (predicted_crime_type x) y) batch
  | Err e => e <> UnseenLabel
  end.
Proof.
  intros Hw. unfold period, bindM.
  destruct (np_random_uniform_spec a b batch_size w) as [K1 S1].
  destruct (np_random_uniform a b batch_size w) as [[lons|e] w1]; cbn [fst snd] in *;
    [|subst e; discriminate].
  rewrite Hw in K1.
  destruct (np_random_uniform_spec c d batch_size w1) as [K2 S2].
  destruct (np_random_uniform c d batch_size w1) as [[lats|e] w2]; cbn [fst snd] in *;
    [|subst e; discriminate].
  rewrite K1 in K2.
  destruct (mode_codes_outcome _ _ w2 K2 H3 lookup_reported_by) as [W3 M3].
  destruct (mode_codes "reported_by" w2) as [[rb|e] w3]; cbn [fst snd] in *;
    [|subst e; discriminate].
  subst w3.
  destruct (mode_codes_outcome _ _ w2 K2 H4 lookup_falls_within) as [W4 M4].
  destruct (mode_codes "falls_within" w2) as [[fw|e] w4]; cbn [fst snd] in *;
    [|subst e; discriminate].
  subst w4.
  destruct (mode_codes_outcome _ _ w2 K2 H5 lookup_last_outcome_category) as [W5 M5].
  destruct (mode_codes "last_outcome_category" w2) as [[loc|e] w5]; cbn [fst snd] in *;
    [|subst e; discriminate].
  subst w5.
  unfold lift.
  pose proof (same_length_spec (length lons) [length lats; length rb; length fw; length loc])
    as SL.
  destruct (same_length (length lons) [length lats; length rb; length fw; length loc])
    as [[]|e]; [|subst e; discriminate].
  clear SL.
  pose proof (scaler_transform_spec (zip lons lats) w2) as SS.
  pose proof (keeps_scaler_transform (zip lons lats) w2) as KS.
  destruct (scaler_transform (zip lons lats) w2) as [[xy|e] w6]; cbn [fst snd] in *;
    [|assumption].
  rewrite K2 in KS. rewrite length_zip in SS by congruence.
  pose proof (rf_predict_spec (build_matrix xy rb fw loc) w6 KS) as SP.
  pose proof (keeps_rf_predict vote (build_matrix xy rb fw loc) w6) as KP.
  destruct (rf_predict vote (build_matrix xy rb fw loc) w6) as [[preds|e] w7];
    cbn [fst snd] in *; [|assumption].
  rewrite KS in KP. destruct SP as [LP FP].
  destruct (target_inverse_transform_spec preds w7 KP FP) as [labels [EL [LL FL]]].
  destruct (target_inverse_transform preds w7) as [[labels'|e] w8]; cbn [fst snd] in *;
    [|discriminate].
  inversion EL; subst labels'. unfold ret. cbn [fst].
  rewrite (length_build_matrix batch_size) in LP by congruence.
  split.
  - apply length_build_rows; congruence.
  - apply List.Forall_forall. intros x Hx. apply build_rows_spec in Hx.
    destruct Hx as [Hm Hp]. split; [assumption|].
    rewrite List.Forall_forall in FL. now apply FL.
Qed.

Abbreviation batch_of' := (batch_of y).

Lemma period_loop_spec (a b c d : float64) (months : list nat)
    (acc : list (list future_row)) (w : World) :
  trained w = t ->
  match fst (period_loop vote a b c d months acc w) with
  | Ok future_list =>
      exists batches, future_list = acc ++ batches /\ List.Forall2 batch_of' months batches
  | Err e => e <> UnseenLabel
  end.
Proof.
  revert acc w. induction months as [|m months IH]; intros acc w Hw.
  - simpl. exists []. split; [now rewrite app_nil_r | constructor].
  - cbn [period_loop]. unfold bindM.
    pose proof (period_spec a b c d m w Hw) as P.
    pose proof (keeps_period vote a b c d m w) as K.
    destruct (period vote a b c d m w) as [[batch|e] w1]; cbn [fst snd] in *; [|assumption].
    rewrite Hw in K. specialize (IH (acc ++ [batch]) w1 K).
    destruct (fst (period_loop vote a b c d months (acc ++ [batch]) w1)) as [fl|e];
      [|assumption].
    destruct IH as [batches [-> F]].
    exists (batch :: batches). split.
    + now rewrite <- app_assoc.
    + constructor; assumption.
Qed.

Lemma future_incidents_spec (w : World) :
  trained w = t ->
  match fst (future_incidents vote w) with
  | Ok fut_df =>
      exists batches, fut_df = concat batches /\ List.Forall2 batch_of' (seq 1 6) batches
  | Err e => e <> UnseenLabel
  end.
Proof.
  intros Hw. unfold future_incidents, bindM, lift.
  destruct (numeric_column "longitude" (df_model (trained w))) as [lon|e] eqn:Elon.
  2:{ cbn [fst]. unfold numeric_column in Elon.
      destruct (series_position ValueError "longitude" (df_model (trained w))) as [i|e'] eqn:Ei.
      - simpl in Elon. intros ->.
        assert (F : forall l, mapM as_float l <> Err UnseenLabel).
        { induction l as [|[s|x] l IHl]; simpl; try discriminate.
          destruct (mapM as_float l); simpl; [discriminate|]. congruence. }
        now apply F in Elon.
      - simpl in Elon. inversion Elon; subst. unfold series_position in Ei.
        destruct (positions _ _) as [|? [|? ?]] in Ei; inversion Ei; discriminate. }
  destruct (numeric_column "latitude" (df_model (trained w))) as [lat|e] eqn:Elat.
  2:{ cbn [fst]. unfold numeric_column in Elat.
      destruct (series_position ValueError "latitude" (df_model (trained w))) as [i|e'] eqn:Ei.
      - simpl in Elat. intros ->.
        assert (F : forall l, mapM as_float l <> Err UnseenLabel).
        { induction l as [|[s|x] l IHl]; simpl; try discriminate.
          destruct (mapM as_float l); simpl; [discriminate|]. congruence. }
        now apply F in Elat.
      - simpl in Elat. inversion Elat; subst. unfold series_position in Ei.
        destruct (positions _ _) as [|? [|? ?]] in Ei; inversion Ei; discriminate. }
  pose proof (period_loop_spec (series_min lon) (series_max lon) (series_min lat)
                (series_max lat) (seq 1 6) [] w Hw) as P.
  destruct (period_loop vote (series_min lon) (series_max lon) (series_min lat)
              (series_max lat) (seq 1 6) [] w) as [[fl|e] w1]; cbn [fst snd] in *;
    [|assumption].
  destruct P as [batches [-> F]]. exists batches. split; [reflexivity | assumption].
Qed.

End PeriodFacts.

(** ** The mode of a label column *)

Lemma max_attained (l : list (string * nat)) :
  l <> [] -> exists p, In p l /\ snd p = fold_right Nat.max 0 (List.map snd l).
Proof.
  induction l as [|p l IH]; intros H; [contradiction|].
  destruct l as [|q l].
  - exists p. split; [now left|]. simpl. lia.
  - destruct IH as [r [Hr Er]]; [discriminate|].
    cbn [List.map fold_right] in *.
    destruct (Nat.max_spec (snd p) (Nat.max (snd q) (fold_right Nat.max 0 (List.map snd l))))
      as [[_ E]|[_ E]]; rewrite E.
    + exists r. split; [now right | assumption].
    + exists p. split; [now left | reflexivity].
Qed.

Lemma mode0_exists (y : list label) (s : string) :
  In (Some s) y -> exists v, mode0 y = Ok v.
Proof.
  intros H. unfold mode0.
  destruct (mode y) as [|v l] eqn:E; [|now exists v].
  exfalso. unfold mode, max_count in E.
  destruct (max_attained (value_counts y)) as [p [Hp Ep]].
  - unfold value_counts. intros N. apply map_eq_nil in N.
    assert (I : In s (sorted_set String.compare (present y))).
    { apply (proj2 (In_sorted_set _ string_compare_eq _ _)). now apply In_present. }
    rewrite N in I. contradiction.
  - assert (I : In (fst p) (List.map fst
               (List.filter (fun p => snd p =? fold_right Nat.max 0 (List.map snd (value_counts y)))
                  (value_counts y)))).
    { apply in_map. apply filter_In. split; [assumption | now apply Nat.eqb_eq]. }
    rewrite E in I. contradiction.
Qed.

(** ** Inference on the trained objects *)

Section InferenceFacts.

Variable col_mean : list float64 -> float64.
Variable col_scale : list float64 -> float64.
Variable vote : list (list float64) -> list nat -> list float64 -> nat.

Lemma trained_label_feature (df : DataFrame) (t : Trained) (col : string) :
  train_model col_mean col_scale df = Ok t ->
  In col label_features ->
  exists ycol,
    label_column col (df_model t) = Ok ycol /\
    label_encoders t !! col = Some (LabelEncoder.mk (Some (LabelEncoder.unique ycol))).
Proof.
  intros H Hcol. apply train_model_inv in H.
  destruct H as (dfm0 & ict & y0 & y3 & y4 & y5 & lon & lat & y_enc & matrix & st & H).
  destruct H as (_ & _ & _ & _ & _ & H3 & H4 & H5 & He & _).
  destruct Hcol as [<-|[<-|[<-|[]]]].
  - exists y3. split; [assumption|]. eapply lookup_reported_by; eassumption.
  - exists y4. split; [assumption|]. eapply lookup_falls_within; eassumption.
  - exists y5. split; [assumption|]. eapply lookup_last_outcome_category; eassumption.
Qed.

Lemma trained_never_unseen (df : DataFrame) (t : Trained) (w : World) :
  train_model col_mean col_scale df = Ok t ->
  trained w = t ->
  fst (future_incidents vote w) <> Err UnseenLabel.
Proof.
  intros H Hw. apply train_model_inv in H.
  destruct H as (dfm0 & ict & y0 & y3 & y4 & y5 & lon & lat & y_enc & matrix & st & H).
  destruct H as (_ & _ & _ & _ & _ & H3 & H4 & H5 & He & _ & _ & _ & _ & Ht & Hy & Hrf & Hm & Hl).
  assert (Hs : y_enc <> []).
  { intros ->. destruct matrix; [now apply Hm | discriminate Hl]. }
  pose proof (future_incidents_spec vote t y3 y4 y5 (collapse y0) y_enc matrix
                H3 H4 H5 He Ht Hy Hrf Hs w Hw) as P.
  destruct (fst (future_incidents vote w)) as [fut|e]; [discriminate|].
  congruence.
Qed.

(** C10. After a successful training (which needs a training subset that is
    not empty) and for each of the three label features: the column of the
    training subset has a fitted encoder in the dictionary; whenever the
    column has a mode, that mode is one of the encoder's classes and the
    loop's call [transform([mode] * 5000)] returns 5000 copies of its code
    and leaves the world as it was; a column that holds a text has a mode;
    and the whole loop never ends in the unseen-label error. *)
Theorem inference_never_unseen (df : DataFrame) (t : Trained) (g : RandomState) :
  train_model col_mean col_scale df = Ok t ->
  rows (df_model t) <> [] /\
  (forall col, In col label_features ->
     exists ycol,
       label_column col (df_model t) = Ok ycol /\
       label_encoders t !! col = Some (LabelEncoder.mk (Some (LabelEncoder.unique ycol))) /\
       (forall s, In (Some s) ycol -> exists v, mode0 ycol = Ok v) /\
       (forall v, mode0 ycol = Ok v ->
          In (Some v) (LabelEncoder.unique ycol) /\
          exists i, mode_codes col (mkWorld g t) = (Ok (repeat i batch_size), mkWorld g t)) /\
       fst (mode_codes col (mkWorld g t)) <> Err UnseenLabel) /\
  fst (future_incidents vote (mkWorld g t)) <> Err UnseenLabel.
Proof.
  intros H. split; [|split].
  - pose proof H as H'. apply train_model_inv in H'.
    destruct H' as (dfm0 & ict & y0 & y3 & y4 & y5 & lon & lat & y_enc & matrix & st & H').
    destruct H' as (_ & _ & _ & _ & _ & _ & _ & _ & _ & Hlon & _ & Hc & _).
    intros N. unfold numeric_column in Hlon.
    destruct (series_position ValueError "longitude" (df_model t)); [|discriminate].
    simpl in Hlon. unfold column_at in Hlon. rewrite N in Hlon. simpl in Hlon.
    inversion Hlon; subst. simpl in Hc. discriminate.
  - intros col Hcol.
    destruct (trained_label_feature df t col H Hcol) as [ycol [Hy Hle]].
    exists ycol. split; [assumption|]. split; [assumption|].
    destruct (mode_codes_spec col (mkWorld g t) ycol Hy Hle) as [S M].
    split; [|split].
    + intros s Hs. eapply mode0_exists. eassumption.
    + intros v Hv. rewrite Hv in M. destruct M as [i [Hi Hm]].
      split.
      * apply LabelEncoderFacts.In_unique. now apply mode0_In.
      * exists i. rewrite <- S at 2. rewrite <- Hm. now destruct (mode_codes col (mkWorld g t)).
    + destruct (mode0 ycol) as [v|e].
      * destruct M as [i [_ ->]]. discriminate.
      * rewrite M. discriminate.
  - eapply trained_never_unseen; [eassumption | reflexivity].
Qed.

End InferenceFacts.

(** ** Counting the future records *)

Lemma distinct_from_seen {A} (cmp : A -> A -> comparison) (a : A) (n : nat)
    (seen l : list A) :
  existsb (same cmp a) seen = true ->
  distinct_from cmp seen (repeat a n ++ l) = distinct_from cmp seen l.
Proof.
  intros H. induction n as [|n IH]; [reflexivity|].
  cbn [repeat app distinct_from]. now rewrite H.
Qed.

Lemma distinct_from_block {A} (cmp : A -> A -> comparison) (a : A) (n : nat)
    (seen l : list A) :
  same cmp a a = true ->
  distinct_from cmp seen (repeat a (S n) ++ l)
  = if existsb (same cmp a) seen then distinct_from cmp seen l
    else a :: distinct_from cmp (a :: seen) l.
Proof.
  intros Ha. cbn [repeat app distinct_from].
  destruct (existsb (same cmp a) seen) eqn:E.
  - now apply distinct_from_seen.
  - f_equal. apply distinct_from_seen. simpl. now rewrite Ha.
Qed.

Lemma months_of_six_batches (n : nat) :
  0 < n ->
  sorted_set Nat.compare (concat (List.map (fun m => repeat m n) (seq 1 6))) = seq 1 6.
Proof.
  intros H. destruct n as [|n]; [lia|].
  unfold sorted_set, dedupe. cbn [seq List.map concat].
  repeat (rewrite distinct_from_block by reflexivity; cbn [existsb same Nat.compare orb]).
  reflexivity.
Qed.

Lemma months_of_batch (m n : nat) (batch : list future_row) :
  length batch = n ->
  List.Forall (fun x => simulated_month x = m) batch ->
  List.map simulated_month batch = repeat m n.
Proof.
  intros <- F. induction F as [|x batch Hx F IH]; simpl; [reflexivity|].
  now rewrite Hx, IH.
Qed.

Lemma filter_month_batch (m m' : nat) (batch : list future_row) :
  List.Forall (fun x => simulated_month x = m') batch ->
  List.filter (fun r => simulated_month r =? m) batch = if m' =? m then batch else [].
Proof.
  intros F. induction F as [|x batch Hx F IH]; simpl.
  - now destruct (m' =? m).
  - rewrite Hx, IH. now destruct (m' =? m).
Qed.

Lemma total_app (a b : list nat) : total (a ++ b) = total a + total b.
Proof.
  unfold total. induction a as [|x a IH]; simpl; [reflexivity|]. rewrite IH. lia.
Qed.

Lemma total_indicator (s : string) (cats : list string) :
  List.NoDup cats -> In s cats ->
  total (List.map (fun c => if String.eqb s c then 1 else 0) cats) = 1.
Proof.
  intros N. induction N as [|c cats Hc N IH]; intros H; [contradiction|].
  simpl. destruct (String.eqb s c) eqn:E.
  - apply String.eqb_eq in E. subst c.
    assert (Z : total (List.map (fun c => if String.eqb s c then 1 else 0) cats) = 0).
    { clear IH H N. induction cats as [|d cats IH]; [reflexivity|]. simpl.
      destruct (String.eqb s d) eqn:F.
      - apply String.eqb_eq in F. subst d. exfalso. apply Hc. now left.
      - apply IH. intros K. apply Hc. now right. }
    unfold total in *. rewrite Z. reflexivity.
  - destruct H as [->|H]; [rewrite String.eqb_refl in E; discriminate|].
    unfold total in *. now rewrite IH.
Qed.

Lemma total_zero (cats : list string) : total (List.map (fun _ => 0) cats) = 0.
Proof. unfold total. induction cats; simpl; [reflexivity | assumption]. Qed.

Lemma total_map_add (f g : string -> nat) (cats : list string) :
  total (List.map (fun c => f c + g c) cats)
  = total (List.map f cats) + total (List.map g cats).
Proof.
  unfold total. induction cats as [|c cats IH]; simpl; [reflexivity|]. rewrite IH. lia.
Qed.

(** The counts of one period over all categories add up to the period's
    number of records. *)
Lemma group_total (m : nat) (cats : list string) (rs : list future_row) :
  List.NoDup cats ->
  (forall r, In r rs -> exists s, predicted_crime_type r = Some s /\ In s cats) ->
  total (List.map (fun c => length (List.filter (in_group m c) rs)) cats)
  = length (List.filter (fun r => simulated_month r =? m) rs).
Proof.
  intros N. induction rs as [|r rs IH]; intros H.
  - simpl. apply total_zero.
  - destruct (H r (or_introl eq_refl)) as [s [Es Hs]].
    assert (IH' := IH (fun x Hx => H x (or_intror Hx))).
    transitivity
      (total (List.map (fun c => (if in_group m c r then 1 else 0)
                                 + length (List.filter (in_group m c) rs)) cats)).
    { f_equal. apply map_ext. intros c. cbn [List.filter].
      now destruct (in_group m c r). }
    rewrite total_map_add, IH'. cbn [List.filter].
    unfold in_group at 1. rewrite Es. cbn [label_eqb].
    destruct (simulated_month r =? m); cbn [andb length].
    + now rewrite (total_indicator s cats N Hs).
    + now rewrite total_zero.
Qed.

Lemma find_zip_map {B} (f : nat -> B) (m : nat) (l : list nat) :
  In m l ->
  List.find (fun q => fst q =? m) (zip l (List.map f l)) = Some (m, f m).
Proof.
  induction l as [|a l IH]; intros H; [contradiction|].
  simpl. destruct (a =? m) eqn:E.
  - apply Nat.eqb_eq in E. now subst.
  - destruct H as [->|H]; [rewrite Nat.eqb_refl in E; discriminate|]. now apply IH.
Qed.

Lemma dropna_rows (names : list string) (df d : DataFrame) :
  dropna names df = Ok d ->
  columns d = columns df /\ forall r, In r (rows d) -> In r (rows df).
Proof.
  unfold dropna. intros H. bind_inv H ps E. inversion H; subst. simpl.
  split; [reflexivity|]. intros r Hr. apply filter_In in Hr. tauto.
Qed.

Lemma cleaned_crime_type (parse_float : string -> float64) (str_of_float : float64 -> string)
    (raw df : DataFrame) (r : row) (i : nat) :
  clean parse_float str_of_float raw = Ok df ->
  In r (rows df) -> In i (positions "crime_type" (columns df)) ->
  isna (get i r) = false.
Proof.
  intros H Hr Hi. apply clean_inv in H.
  destruct H as [ilon [ilat [iloc [E1 [E2 [E3 [E4 [E5 ->]]]]]]]].
  simpl in Hr, Hi. apply clean_rows_In in Hr. destruct Hr as [C _].
  apply (complete_In _ _ _ C). unfold required_positions, required. simpl.
  rewrite !in_app_iff. right. now left.
Qed.

Lemma collapse_present (y0 : list label) :
  (forall l, In l y0 -> l <> None) -> forall l, In l (collapse y0) -> l <> None.
Proof.
  intros H l Hl. unfold collapse in Hl. apply in_map_iff in Hl.
  destruct Hl as [x [<- Hx]]. unfold relabel.
  destruct (in_index x (rare_categories y0)); [discriminate | now apply H].
Qed.

Lemma filter_none {A} (f : A -> bool) (l : list A) :
  (forall x, In x l -> f x = false) -> List.filter f l = [].
Proof.
  induction l as [|a l IH]; simpl; intros H; [reflexivity|].
  rewrite (H a (or_introl eq_refl)). apply IH. intros x Hx. apply H. now right.
Qed.

Lemma concat_batches (y : list label) (months : list nat) (batches : list (list future_row)) :
  List.Forall2 (batch_of y) months batches ->
  List.map simulated_month (concat batches)
  = concat (List.map (fun m => repeat m batch_size) months) /\
  (forall r, In r (concat batches) -> In (predicted_crime_type r) y) /\
  (forall m, List.NoDup months -> In m months ->
     length (List.filter (fun r => simulated_month r =? m) (concat batches)) = batch_size).
Proof.
  induction 1 as [|m batch months batches [L F] H2 [IH1 [IH2 IH3]]].
  - repeat split; intros; contradiction.
  - assert (Fm : List.Forall (fun x => simulated_month x = m) batch).
    { eapply List.Forall_impl; [|exact F]. simpl. tauto. }
    split; [|split].
    + cbn [concat List.map]. rewrite map_app, IH1.
      now rewrite (months_of_batch m batch_size batch L Fm).
    + intros r Hr. cbn [concat] in Hr. apply in_app_iff in Hr. destruct Hr as [Hr|Hr].
      * rewrite List.Forall_forall in F. now apply F.
      * now apply IH2.
    + intros m' N Hm'. inversion N as [|? ? Hnot N']; subst.
      cbn [concat]. rewrite List.filter_app, length_app.
      rewrite (filter_month_batch m' m batch Fm).
      destruct (m =? m') eqn:E.
      * apply Nat.eqb_eq in E. subst m'.
        assert (Z : List.filter (fun r => simulated_month r =? m) (concat batches) = []).
        { clear -IH1 Hnot.
          assert (G : forall r, In r (concat batches) -> (simulated_month r =? m) = false).
          { intros r Hr. apply Nat.eqb_neq. intros Em. apply Hnot.
            assert (K : In (simulated_month r) (List.map simulated_month (concat batches)))
              by now apply in_map.
            rewrite IH1 in K. apply in_concat in K. destruct K as [l [Hl Hr']].
            apply in_map_iff in Hl. destruct Hl as [m0 [<- Hm0]].
            apply repeat_spec in Hr'. congruence. }
          now apply filter_none. }
        rewrite Z. simpl. lia.
      * destruct Hm' as [->|Hm']; [rewrite Nat.eqb_refl in E; discriminate|].
        simpl. now apply IH3.
Qed.

(** ** The pipeline *)

Section PipelineFacts.

Variable parse_float : string -> float64.
Variable str_of_float : float64 -> string.
Variable col_mean : list float64 -> float64.
Variable col_scale : list float64 -> float64.
Variable vote : list (list float64) -> list nat -> list float64 -> nat.

Abbreviation main' := (main parse_float str_of_float col_mean col_scale vote).

Lemma pivot_row_total (fut : list future_row) (m : nat) :
  (forall r, In r fut -> exists s, predicted_crime_type r = Some s) ->
  In m (pivot_index (pivot fut)) ->
  total (pivot_row (pivot fut) m)
  = length (List.filter (fun r => simulated_month r =? m) fut).
Proof.
  intros Hk Hm.
  assert (K : List.filter has_key fut = fut).
  { apply filter_fixed. intros r Hr. destruct (Hk r Hr) as [s Hs].
    unfold has_key. now rewrite Hs. }
  unfold pivot_row, pivot in *. cbn [pivot_index pivot_values] in *. rewrite K in *.
  rewrite (find_zip_map _ m _ Hm). cbn [snd].
  apply group_total.
  - apply NoDup_sorted_set. apply string_compare_eq.
  - intros r Hr. destruct (Hk r Hr) as [s Hs]. exists s. split; [assumption|].
    apply (proj2 (In_sorted_set _ string_compare_eq _ _)). apply In_present.
    rewrite <- Hs. now apply in_map.
Qed.

(** C6. When the pipeline returns, the future-incident collection holds
    the periods 1 to 6 and no other, 5000 records of each, in the order of
    the periods; the pivot has one row per period, and the counts of each
    row add up to 5000. *)
Theorem period_coverage (raw : DataFrame) (g : RandomState)
    (fut_df : list future_row) (pv : Pivot) :
  main' raw g = Ok (fut_df, pv) ->
  List.map simulated_month fut_df
  = concat (List.map (fun m => repeat m 5000) [1; 2; 3; 4; 5; 6]) /\
  pivot_index pv = [1; 2; 3; 4; 5; 6] /\
  forall m, In m [1; 2; 3; 4; 5; 6] ->
    length (List.filter (fun r => simulated_month r =? m) fut_df) = 5000 /\
    total (pivot_row pv m) = 5000.
Proof.
  unfold main. intros H.
  bind_inv H df Ec. bind_inv H t Et. bind_inv H fut Ef. inversion H; subst fut pv; clear H.
  pose proof Et as Et'. apply train_model_inv in Et'.
  destruct Et' as (dfm0 & ict & y0 & y3 & y4 & y5 & lon & lat & y_enc & matrix & st & Et').
  destruct Et' as (Ed & Eict & Ey0 & _ & _ & H3 & H4 & H5 & He & _ & _ & _ & _ & Ht & Hy
                   & Hrf & Hm & Hl).
  assert (Hs : y_enc <> []).
  { intros ->. destruct matrix; [now apply Hm | discriminate Hl]. }
  pose proof (future_incidents_spec vote t y3 y4 y5 (collapse y0) y_enc matrix
                H3 H4 H5 He Ht Hy Hrf Hs (mkWorld g t) eq_refl) as P.
  rewrite Ef in P. destruct P as [batches [-> F]].
  destruct (concat_batches _ _ _ F) as [C1 [C2 C3]].
  assert (Hpresent : forall r, In r (concat batches) ->
                       exists s, predicted_crime_type r = Some s).
  { intros r Hr. apply C2 in Hr.
    assert (N : predicted_crime_type r <> None).
    { apply (collapse_present y0); [|assumption].
      intros l Hl0 ->. destruct (mapM_In _ _ _ _ Ey0 Hl0) as [c [Hc Ec']].
      unfold column_at in Hc. apply in_map_iff in Hc. destruct Hc as [r0 [<- Hr0]].
      destruct (dropna_rows _ _ _ Ed) as [Dc Dr].
      assert (I : isna (get ict r0) = false).
      { eapply cleaned_crime_type; [exact Ec | now apply Dr |].
        rewrite <- Dc, Eict. now left. }
      destruct (get ict r0) as [s|x]; simpl in *; [discriminate|].
      rewrite I in Ec'. discriminate. }
    destruct (predicted_crime_type r) as [s|]; [now exists s | congruence]. }
  assert (Hindex : pivot_index (pivot (concat batches)) = [1; 2; 3; 4; 5; 6]).
  { unfold pivot. cbn [pivot_index].
    rewrite filter_fixed.
    - rewrite C1. apply months_of_six_batches. unfold batch_size. lia.
    - intros r Hr. destruct (Hpresent r Hr) as [s Es]. unfold has_key. now rewrite Es. }
  split; [exact C1|]. split; [exact Hindex|].
  intros m Hin.
  assert (Hcount : length (List.filter (fun r => simulated_month r =? m) (concat batches))
                   = 5000).
  { apply C3; [|exact Hin]. repeat constructor; simpl; intuition discriminate. }
  split; [exact Hcount|].
  rewrite pivot_row_total; [exact Hcount | exact Hpresent | now rewrite Hindex].
Qed.

End PipelineFacts.


Lemma holds_on_intro {A} (r : result A) (P : A -> Prop) :
  is_ok r = true -> (forall a, r = Ok a -> P a) -> holds_on r P.
Proof. destruct r as [a|e]; intros E H; [now apply H | discriminate E]. Qed.

Lemma period_coverage_witness :
  is_ok (main parse_whole str_class plain_mean plain_scale first_class
           raw_example words_zero) = true /\
  holds_on
    (main parse_whole str_class plain_mean plain_scale first_class raw_example words_zero)
    (fun a =>
       List.map simulated_month (fst a)
       = concat (List.map (fun m => repeat m 5000) [1; 2; 3; 4; 5; 6]) /\
       pivot_index (snd a) = [1; 2; 3; 4; 5; 6] /\
       forall m, In m [1; 2; 3; 4; 5; 6] ->
         length (List.filter (fun r => simulated_month r =? m) (fst a)) = 5000 /\
         total (pivot_row (snd a) m) = 5000).
Proof.
  assert (E : is_ok (main parse_whole str_class plain_mean plain_scale first_class
                       raw_example words_zero) = true)
    by (vm_compute; reflexivity).
  split; [exact E|].
  apply holds_on_intro; [exact E|].
  intros [fut_df pv] H.
  exact (period_coverage parse_whole str_class plain_mean plain_scale first_class
           raw_example words_zero fut_df pv H).
Defined.

Lemma inference_never_unseen_witness :
  train_model plain_mean plain_scale cleaned_example = Ok trained_example /\
  rows (df_model trained_example) <> [] /\
  (forall col, In col label_features ->
     exists ycol,
       label_column col (df_model trained_example) = Ok ycol /\
       label_encoders trained_example !! col
       = Some (LabelEncoder.mk (Some (LabelEncoder.unique ycol))) /\
       (forall s, In (Some s) ycol -> exists v, mode0 ycol = Ok v) /\
       (forall v, mode0 ycol = Ok v ->
          In (Some v) (LabelEncoder.unique ycol) /\
          exists i, mode_codes col (mkWorld words_counting trained_example)
                    = (Ok (repeat i batch_size), mkWorld words_counting trained_example)) /\
       fst (mode_codes col (mkWorld words_counting trained_example)) <> Err UnseenLabel) /\
  fst (future_incidents first_class (mkWorld words_counting trained_example))
  <> Err UnseenLabel.
Proof.
  assert (E : train_model plain_mean plain_scale cleaned_example = Ok trained_example)
    by (vm_compute; reflexivity).
  split; [exact E|].
  exact (inference_never_unseen plain_mean plain_scale first_class cleaned_example
           trained_example words_counting E).
Defined.

(** ** The trainer and the size of its input *)

Section TrainerFacts.

Variable col_mean : list float64 -> float64.
Variable col_scale : list float64 -> float64.

Lemma trained_rows (df : DataFrame) (t : Trained) :
  train_model col_mean col_scale df = Ok t ->
  exists dfm0, dropna ["lsoa_code"; "lsoa_name"] df = Ok dfm0 /\
               length (rows (df_model t)) = length (rows dfm0) /\
               rows (df_model t) <> [].
Proof.
  intros H. apply train_model_inv in H.
  destruct H as (dfm0 & ict & y0 & y3 & y4 & y5 & lon & lat & y_enc & matrix & st & H).
  destruct H as (Ed & _ & _ & Em & _ & _ & _ & _ & _ & Hlon & _ & Hc & _).
  exists dfm0. split; [assumption|]. split.
  - rewrite Em. simpl. apply length_assign_rows.
  - intros N. unfold numeric_column in Hlon.
    destruct (series_position ValueError "longitude" (df_model t)); [|discriminate].
    simpl in Hlon. unfold column_at in Hlon. rewrite N in Hlon. simpl in Hlon.
    inversion Hlon; subst. simpl in Hc. discriminate.
Qed.

(** C2, as the code has it. Training on an empty subset (no record of the
    table carries both statistical-area fields, so the feature matrix has
    no row) returns no trained model but an error. The number of distinct
    target classes is not looked at. *)
Theorem train_model_empty (df dfm0 : DataFrame) :
  dropna ["lsoa_code"; "lsoa_name"] df = Ok dfm0 ->
  rows dfm0 = [] ->
  exists e, train_model col_mean col_scale df = Err e.
Proof.
  intros Hd He.
  destruct (train_model col_mean col_scale df) as [t|e] eqn:E; [|now exists e].
  exfalso. destruct (trained_rows df t E) as [d [Hd' [L N]]].
  rewrite Hd in Hd'. inversion Hd'; subst d. rewrite He in L. simpl in L.
  destruct (rows (df_model t)); [now apply N | discriminate L].
Qed.

End TrainerFacts.

Lemma train_model_empty_witness :
  dropna ["lsoa_code"; "lsoa_name"] empty_table = Ok empty_table /\
  rows empty_table = [] /\
  exists e, train_model plain_mean plain_scale empty_table = Err e.
Proof.
  assert (E : dropna ["lsoa_code"; "lsoa_name"] empty_table = Ok empty_table)
    by (vm_compute; reflexivity).
  split; [exact E|]. split; [reflexivity|].
  exact (train_model_empty plain_mean plain_scale empty_table empty_table E eq_refl).
Defined.

(** C2, as the specification states it, fails: the two records of
    [cleaned_example] end in the single class ["Other"], and [train_model]
    returns its trained objects. *)
Lemma train_model_single_class :
  train_model plain_mean plain_scale cleaned_example = Ok trained_example /\
  LabelEncoder.classes_ (le_target trained_example) = Some [Some "Other"] /\
  length (rows (df_model trained_example)) = 2.
Proof. vm_compute. repeat split. Qed.

(** ** The generator is never seeded *)

(** C1 fails on the code. [main] takes the generator as the process left
    it: nothing between its start and the draws of line 180 sets the
    state, so the coordinates drawn for the same bounding box (here the
    longitudes 1 to 3 of [cleaned_example]) depend on the words the
    generator happens to hold. Two states, two different arrays. *)
Theorem unseeded_draws_differ :
  series_min [float_of_nat 1; float_of_nat 3] = float_of_nat 1 /\
  series_max [float_of_nat 1; float_of_nat 3] = float_of_nat 3 /\
  fst (np_random_uniform (float_of_nat 1) (float_of_nat 3) batch_size
         (mkWorld words_zero trained_example))
  <> fst (np_random_uniform (float_of_nat 1) (float_of_nat 3) batch_size
            (mkWorld words_counting trained_example)).
Proof.
  split; [reflexivity|]. split; [reflexivity|].
  intros H.
  apply (f_equal (fun r => match r with
                           | Ok (x :: _) => Some x
                           | _ => None
                           end)) in H.
  vm_compute in H. discriminate H.
Qed.

(* ===================================================================== *)
(** ** Rounding in binary64 *)

Section FloatFacts.
Local Open Scope Z_scope.

(** *** Binary digits *)

Lemma digits2_pos_size (m : positive) : digits2_pos m = Pos.size m.
Proof. induction m; simpl; congruence. Qed.

Lemma digits_bounds (m : positive) :
  2 ^ (Zpos (digits2_pos m) - 1) <= Zpos m < 2 ^ Zpos (digits2_pos m).
Proof.
  rewrite digits2_pos_size. split.
  - pose proof (Pos.size_le m) as H.
    assert (K : 2 ^ Zpos (Pos.size m) <= 2 * Zpos m).
    { change (2 * Zpos m) with (Zpos (m~0)). rewrite <- Pos2Z.inj_pow. now apply Pos2Z.pos_le_pos. }
    replace (Zpos (Pos.size m)) with (Zpos (Pos.size m) - 1 + 1) in K by lia.
    rewrite Z.pow_add_r in K by lia. lia.
  - pose proof (Pos.size_gt m) as H.
    rewrite <- Pos2Z.inj_pow. now apply Pos2Z.pos_lt_pos.
Qed.

(** The number of binary digits is the one [d] with [2^(d-1) <= m < 2^d]. *)
Lemma digits_unique (m : positive) (d : Z) :
  2 ^ (d - 1) <= Zpos m < 2 ^ d -> Zpos (digits2_pos m) = d.
Proof.
  intros [H1 H2]. pose proof (digits_bounds m) as [K1 K2].
  assert (D : 0 < d).
  { destruct (Z.lt_trichotomy d 0) as [L|[L|L]]; [| |assumption].
    - rewrite Z.pow_neg_r in H2 by assumption. lia.
    - subst. simpl in H2. lia. }
  destruct (Z.lt_trichotomy (Zpos (digits2_pos m)) d) as [L|[L|L]]; [|assumption|].
  - exfalso. assert (2 ^ Zpos (digits2_pos m) <= 2 ^ (d - 1)) by (apply Z.pow_le_mono_r; lia). lia.
  - exfalso. assert (2 ^ d <= 2 ^ (Zpos (digits2_pos m) - 1)) by (apply Z.pow_le_mono_r; lia). lia.
Qed.

(** *** Shifting a mantissa right *)

Lemma shr_1_m (mrs : shr_record) :
  0 <= shr_m mrs -> shr_m (shr_1 mrs) = shr_m mrs / 2 /\
  shr_r (shr_1 mrs) = Z.odd (shr_m mrs) /\
  shr_s (shr_1 mrs) = shr_r mrs || shr_s mrs.
Proof.
  destruct mrs as [m r s]. simpl. intros H.
  destruct m as [|[p|p|]|p]; try lia; simpl; repeat split; try reflexivity.
  - rewrite Pos2Z.inj_xI. apply Z.div_unique with (r := 1); lia.
  - rewrite Pos2Z.inj_xO. apply Z.div_unique with (r := 0); lia.
Qed.

Lemma tracks_step (x c : Z) (mrs : shr_record) :
  0 <= x -> 0 <= c -> tracks x c mrs -> tracks x (c + 1) (shr_1 mrs).
Proof.
  intros Hx Hc [Hm Hl].
  assert (P : 0 < 2 ^ c) by (apply Z.pow_pos_nonneg; lia).
  assert (M : 0 <= shr_m mrs) by (rewrite Hm; apply Z.div_pos; lia).
  destruct (shr_1_m mrs M) as [E1 [E2 E3]].
  assert (Q : 2 ^ (c + 1) = 2 * 2 ^ c) by (rewrite Z.pow_add_r by lia; lia).
  pose proof (Z.div_mod x (2 ^ c) ltac:(lia)) as D.
  pose proof (Z.mod_pos_bound x (2 ^ c) P) as B.
  pose proof (Z.div_mod (x / 2 ^ c) 2 ltac:(lia)) as D2.
  pose proof (Z.mod_pos_bound (x / 2 ^ c) 2 ltac:(lia)) as B2.
  set (q := x / 2 ^ c) in *. set (r := x mod 2 ^ c) in *.
  set (q2 := q / 2) in *. set (b := q mod 2) in *.
  assert (Ediv : x / 2 ^ (c + 1) = q2).
  { rewrite Q. symmetry. apply Z.div_unique with (r := b * 2 ^ c + r); nia. }
  assert (Emod : x mod 2 ^ (c + 1) = b * 2 ^ c + r).
  { rewrite Q. symmetry. apply Z.mod_unique with (q := q2); nia. }
  split.
  - rewrite E1, Hm. fold q. fold q2. now rewrite Ediv.
  - rewrite Emod, Q.
    assert (Eodd : Z.odd q = (b =? 1)).
    { unfold b. rewrite Zmod_odd. now destruct (Z.odd q). }
    destruct (shr_1 mrs) as [m' r' s']. destruct mrs as [m0 r0 s0].
    cbn [shr_m shr_r shr_s] in *. subst r' s' m0.
    rewrite Eodd. unfold remainder_place in *.
    assert (Hb : b = 0 \/ b = 1) by lia.
    destruct (r =? 0) eqn:R0.
    + apply Z.eqb_eq in R0.
      assert (S0 : r0 = false /\ s0 = false).
      { destruct r0, s0; try discriminate Hl. now split. }
      destruct S0 as [-> ->]. cbn [orb].
      destruct Hb as [Eb | Eb]; rewrite Eb.
      * replace (0 * 2 ^ c + r =? 0) with true by (symmetry; apply Z.eqb_eq; lia).
        reflexivity.
      * replace (1 * 2 ^ c + r =? 0) with false by (symmetry; apply Z.eqb_neq; lia).
        replace (2 * (1 * 2 ^ c + r) ?= 2 * 2 ^ c) with Eq
          by (symmetry; apply Z.compare_eq_iff; lia).
        reflexivity.
    + apply Z.eqb_neq in R0.
      assert (S0 : r0 || s0 = true).
      { destruct r0, s0; try reflexivity. discriminate Hl. }
      rewrite S0.
      replace (b * 2 ^ c + r =? 0) with false by (symmetry; apply Z.eqb_neq; nia).
      destruct Hb as [Eb | Eb]; rewrite Eb.
      * replace (2 * (0 * 2 ^ c + r) ?= 2 * 2 ^ c) with Lt
          by (symmetry; apply Z.compare_lt_iff; lia).
        reflexivity.
      * replace (2 * (1 * 2 ^ c + r) ?= 2 * 2 ^ c) with Gt
          by (symmetry; apply Z.compare_gt_iff; lia).
        reflexivity.
Qed.

Lemma tracks_iter (x : Z) (n : positive) :
  forall c mrs, 0 <= x -> 0 <= c -> tracks x c mrs ->
  tracks x (c + Zpos n) (SpecFloat.iter_pos shr_1 n mrs).
Proof.
  induction n as [n IH|n IH|]; intros c mrs Hx Hc H; simpl.
  - replace (c + Zpos n~1) with (c + 1 + Zpos n + Zpos n) by lia.
    apply IH; try lia. apply IH; try lia. now apply tracks_step.
  - replace (c + Zpos n~0) with (c + Zpos n + Zpos n) by lia.
    apply IH; try lia. now apply IH.
  - now apply tracks_step.
Qed.

Lemma tracks_start (x : Z) : tracks x 0 (Build_shr_record x false false).
Proof.
  unfold tracks. simpl. rewrite Z.div_1_r, Z.mod_1_r. now split.
Qed.

(** Rounding to nearest_to even picks a multiple of the step that is at least
    as close to [x] as every other multiple. *)
Lemma round_nearest_even_spec (x c : Z) (mrs : shr_record) :
  0 <= x -> 0 <= c -> tracks x c mrs ->
  let m2 := round_nearest_even (shr_m mrs) (loc_of_shr_record mrs) in
  x / 2 ^ c <= m2 <= x / 2 ^ c + 1 /\
  (x mod 2 ^ c = 0 -> m2 = x / 2 ^ c) /\
  forall j, Z.abs (m2 * 2 ^ c - x) <= Z.abs (j * 2 ^ c - x).
Proof.
  intros Hx Hc [Hm Hl] m2.
  assert (P : 0 < 2 ^ c) by (apply Z.pow_pos_nonneg; lia).
  pose proof (Z.div_mod x (2 ^ c) ltac:(lia)) as D.
  pose proof (Z.mod_pos_bound x (2 ^ c) P) as B.
  unfold m2. rewrite Hl, Hm. clear m2 Hl Hm.
  set (q := x / 2 ^ c) in *. set (r := x mod 2 ^ c) in *. set (T := 2 ^ c) in *.
  assert (J : forall j, j * T <= q * T \/ (q + 1) * T <= j * T).
  { intros j. destruct (Z_le_gt_dec j q) as [L|L]; [left | right];
      apply Z.mul_le_mono_nonneg_r; lia. }
  unfold remainder_place. destruct (r =? 0) eqn:R0.
  - apply Z.eqb_eq in R0. simpl. repeat split; try lia;
      try (intros j; destruct (J j); lia).
  - apply Z.eqb_neq in R0.
    destruct (Z.compare_spec (2 * r) T) as [C|C|C]; simpl.
    + destruct (Z.even q); repeat split; try lia; try (intros j; destruct (J j); lia).
    + repeat split; try lia; try (intros j; destruct (J j); lia).
    + repeat split; try lia; try (intros j; destruct (J j); lia).
Qed.

(** *** The binary64 format *)

Lemma fexp_eq (e : Z) : fexp prec emax e = Z.max (e - 53) (-1074).
Proof. reflexivity. Qed.

Lemma pow2_pos (a : Z) : 0 <= a -> 0 < 2 ^ a.
Proof. intros. apply Z.pow_pos_nonneg; lia. Qed.

Lemma pow2_add (a b : Z) : 0 <= a -> 0 <= b -> 2 ^ (a + b) = 2 ^ a * 2 ^ b.
Proof. intros. apply Z.pow_add_r; lia. Qed.

Lemma pow2_le (a b : Z) : 0 <= a <= b -> 2 ^ a <= 2 ^ b.
Proof. intros. apply Z.pow_le_mono_r; lia. Qed.

Lemma pow2_lt (a b : Z) : 0 <= a < b -> 2 ^ a < 2 ^ b.
Proof. intros. apply Z.pow_lt_mono_r; lia. Qed.

Lemma canonical_cases (m : positive) (e : Z) :
  canonical m e <->
  (Zpos (digits2_pos m) = 53 /\ -1074 <= e) \/ (Zpos (digits2_pos m) <= 53 /\ e = -1074).
Proof.
  unfold canonical, canonical_mantissa. rewrite Z.eqb_eq, fexp_eq.
  pose proof (Pos2Z.is_pos (digits2_pos m)). lia.
Qed.

Lemma binary_round_aux_core (s : bool) (mx ex : Z) :
  binary_round_aux prec emax s mx ex loc_Exact =
  match fst (round_core mx ex) with
  | Z0 => S754_zero s
  | Zpos m =>
      if snd (round_core mx ex) <=? emax - prec then S754_finite s m (snd (round_core mx ex))
      else S754_infinity s
  | Zneg _ => S754_nan
  end.
Proof.
  unfold binary_round_aux, round_core.
  destruct (shr_fexp prec emax mx ex loc_Exact) as [mrs' e'].
  destruct (shr_fexp prec emax _ e' loc_Exact) as [mrs'' e'']. reflexivity.
Qed.

(** [shr_fexp] on an exact, non-negative mantissa. *)
Lemma shr_fexp_exact (m e : Z) :
  0 <= m ->
  let n := fexp prec emax (Zdigits2 m + e) - e in
  (n <= 0 -> shr_fexp prec emax m e loc_Exact = (Build_shr_record m false false, e)) /\
  (0 < n -> exists mrs, shr_fexp prec emax m e loc_Exact = (mrs, e + n) /\ tracks m n mrs).
Proof.
  intros Hm n. unfold shr_fexp, shr. fold n. cbn [shr_record_of_loc].
  split; intros Hn.
  - destruct n; try lia; reflexivity.
  - destruct n as [|p|p]; try lia.
    eexists. split; [reflexivity|].
    apply (tracks_iter m p 0); try lia. apply tracks_start.
Qed.

Lemma Zdigits2_pos (m : positive) : Zdigits2 (Zpos m) = Zpos (digits2_pos m).
Proof. reflexivity. Qed.

Lemma Zdigits2_bounds (m d : Z) :
  0 < m -> 0 <= d -> 2 ^ (d - 1) <= m < 2 ^ d -> Zdigits2 m = d.
Proof.
  intros Hm Hd H. destruct m as [|p|p]; try lia.
  rewrite Zdigits2_pos. now apply digits_unique.
Qed.

Lemma shift_none (m e : Z) :
  0 <= m -> fexp prec emax (Zdigits2 m + e) <= e ->
  shr_fexp prec emax m e loc_Exact = (Build_shr_record m false false, e).
Proof.
  intros Hm H. apply (proj1 (shr_fexp_exact m e Hm)). lia.
Qed.

Lemma shift_carry (e : Z) :
  -1074 <= e ->
  shr_fexp prec emax (2 ^ 53) e loc_Exact = (Build_shr_record (2 ^ 52) false false, e + 1).
Proof.
  intros H. unfold shr_fexp.
  replace (fexp prec emax (Zdigits2 (2 ^ 53) + e) - e) with 1.
  - reflexivity.
  - rewrite fexp_eq. change (Zdigits2 (2 ^ 53)) with 54. lia.
Qed.

Lemma digits_le_53 (p : positive) : Zpos p < 2 ^ 53 -> Zpos (digits2_pos p) <= 53.
Proof.
  intros H. pose proof (digits_bounds p) as [L _].
  destruct (Z_le_gt_dec (Zpos (digits2_pos p)) 53) as [K|K]; [assumption|].
  exfalso. assert (2 ^ 53 <= 2 ^ (Zpos (digits2_pos p) - 1)) by (apply pow2_le; lia). lia.
Qed.

Lemma mantissa_lt_53 (p : positive) : Zpos (digits2_pos p) <= 53 -> Zpos p < 2 ^ 53.
Proof.
  intros H. pose proof (digits_bounds p) as [_ U].
  assert (2 ^ Zpos (digits2_pos p) <= 2 ^ 53) by (apply pow2_le; lia). lia.
Qed.

Lemma canonical_bounds (mf : positive) (ef : Z) :
  canonical mf ef -> -1074 <= ef /\ Zpos mf < 2 ^ 53 /\ (-1074 < ef -> 2 ^ 52 <= Zpos mf).
Proof.
  intros H. apply canonical_cases in H. pose proof (digits_bounds mf) as [L U].
  destruct H as [[D E]|[D E]].
  - rewrite D in *. split; [lia|]. split; [lia|]. intros _. exact L.
  - split; [lia|]. split; [now apply mantissa_lt_53 | lia].
Qed.

Section RoundCore.

Variable mx : positive.
Variable ex : Z.
Hypothesis Hex : 0 <= ex + bias.
Hypothesis Hfexp : ex <= fexp prec emax (Zpos (digits2_pos mx) + ex).

Let X : Z := Zpos mx * 2 ^ (ex + bias).

Lemma nearest_canonical (val : Z) :
  (forall j, Z.abs (val - X)
             <= Z.abs (j * 2 ^ (fexp prec emax (Zpos (digits2_pos mx) + ex) + bias) - X)) ->
  forall mf ef, canonical mf ef ->
    Z.abs (val - X) <= Z.abs (Zpos mf * 2 ^ (ef + bias) - X).
Proof.
  intros Near mf ef Hf.
  pose proof (digits_bounds mx) as Dm.
  pose proof (Pos2Z.is_pos (digits2_pos mx)) as Dpos.
  set (d := Zpos (digits2_pos mx)) in *.
  set (e1 := fexp prec emax (d + ex)) in *.
  assert (E1 : e1 = Z.max (d + ex - 53) (-1074)) by apply fexp_eq.
  destruct (canonical_bounds mf ef Hf) as [Fe [Fm _]].
  destruct (Z_le_gt_dec e1 ef) as [L|L].
  - specialize (Near (Zpos mf * 2 ^ (ef - e1))).
    replace (Zpos mf * 2 ^ (ef - e1) * 2 ^ (e1 + bias)) with (Zpos mf * 2 ^ (ef + bias))
      in Near; [exact Near|].
    replace (ef + bias) with ((ef - e1) + (e1 + bias)) by lia.
    rewrite pow2_add by (unfold bias in *; lia). ring.
  - assert (En : e1 = d + ex - 53) by lia.
    specialize (Near (2 ^ 52)).
    assert (PG : 2 ^ 52 * 2 ^ (e1 + bias) = 2 ^ (d - 1) * 2 ^ (ex + bias)).
    { rewrite <- !pow2_add by (unfold bias in *; lia). f_equal. lia. }
    assert (PF : Zpos mf * 2 ^ (ef + bias) < 2 ^ 52 * 2 ^ (e1 + bias)).
    { assert (A : 2 ^ 53 * 2 ^ (ef + bias) <= 2 ^ 52 * 2 ^ (e1 + bias)).
      { rewrite <- !pow2_add by (unfold bias in *; lia). apply pow2_le.
        unfold bias in *; lia. }
      assert (B : 0 < 2 ^ (ef + bias)) by (apply pow2_pos; unfold bias; lia).
      nia. }
    assert (PXl : 2 ^ (d - 1) * 2 ^ (ex + bias) <= X).
    { unfold X. apply Z.mul_le_mono_nonneg_r; [|lia].
      apply Z.lt_le_incl, pow2_pos; lia. }
    lia.
Qed.

Lemma round_core_spec :
  let m3 := fst (round_core (Zpos mx) ex) in
  let e3 := snd (round_core (Zpos mx) ex) in
  0 <= m3 /\ -1074 <= e3 /\ ex <= e3 /\
  (forall p, m3 = Zpos p -> canonical p e3) /\
  (forall mf ef, canonical mf ef ->
     Z.abs (m3 * 2 ^ (e3 + bias) - X) <= Z.abs (Zpos mf * 2 ^ (ef + bias) - X)) /\
  Z.abs (m3 * 2 ^ (e3 + bias) - X) <= X.
Proof.
  pose proof (digits_bounds mx) as Dm.
  pose proof (Pos2Z.is_pos (digits2_pos mx)) as Dpos.
  set (d := Zpos (digits2_pos mx)) in *.
  set (e1 := fexp prec emax (d + ex)) in *.
  assert (E1 : e1 = Z.max (d + ex - 53) (-1074)) by apply fexp_eq.
  assert (PX : 0 < 2 ^ (ex + bias)) by (apply pow2_pos; lia).
  assert (X0 : 0 < X) by (unfold X; nia).
  unfold round_core.
  destruct (shr_fexp_exact (Zpos mx) ex ltac:(lia)) as [N0 N1].
  rewrite Zdigits2_pos in N0, N1. fold d in N0, N1. fold e1 in N0, N1.
  destruct (Z_le_gt_dec (e1 - ex) 0) as [Hn|Hn].
  - (* no shift: the scaled is kept *)
    rewrite (N0 Hn). cbn [shr_m loc_of_shr_record round_nearest_even].
    assert (Ee : e1 = ex) by lia.
    rewrite shift_none by (try lia; rewrite Zdigits2_pos; fold d; fold e1; lia).
    cbn [fst snd shr_m]. fold X.
    split; [lia|]. split; [lia|]. split; [lia|]. split; [|split].
    + intros p Hp. inversion Hp; subst p. unfold canonical, canonical_mantissa.
      fold d. fold e1. apply Z.eqb_eq. lia.
    + intros mf ef _. lia.
    + lia.
  - (* a shift by n > 0 *)
    destruct (N1 ltac:(lia)) as [mrs [Es T]]. rewrite Es. clear N0 N1 Es.
    set (n := e1 - ex) in *.
    replace (ex + n) with e1 by (unfold n; lia).
    destruct (round_nearest_even_spec (Zpos mx) n mrs ltac:(lia) ltac:(lia) T)
      as [Q [_ Near]].
    set (m2 := round_nearest_even (shr_m mrs) (loc_of_shr_record mrs)) in *.
    set (q := Zpos mx / 2 ^ n) in *.
    assert (Pn : 0 < 2 ^ n) by (apply pow2_pos; lia).
    assert (Q0 : 0 <= q) by (apply Z.div_pos; lia).
    assert (G : 2 ^ (e1 + bias) = 2 ^ n * 2 ^ (ex + bias)).
    { replace (e1 + bias) with (n + (ex + bias)) by (unfold n; lia). apply pow2_add; lia. }
    assert (NearG : forall j, Z.abs (m2 * 2 ^ (e1 + bias) - X)
                              <= Z.abs (j * 2 ^ (e1 + bias) - X)).
    { intros j. specialize (Near j). rewrite G. unfold X.
      replace (m2 * (2 ^ n * 2 ^ (ex + bias)) - Zpos mx * 2 ^ (ex + bias))
        with ((m2 * 2 ^ n - Zpos mx) * 2 ^ (ex + bias)) by ring.
      replace (j * (2 ^ n * 2 ^ (ex + bias)) - Zpos mx * 2 ^ (ex + bias))
        with ((j * 2 ^ n - Zpos mx) * 2 ^ (ex + bias)) by ring.
      rewrite !Z.abs_mul. apply Z.mul_le_mono_nonneg_r; [apply Z.abs_nonneg | assumption]. }
    assert (Dq : Zpos mx = 2 ^ n * q + Zpos mx mod 2 ^ n) by (apply Z.div_mod; lia).
    pose proof (Z.mod_pos_bound (Zpos mx) (2 ^ n) Pn) as Bq.
    destruct (Z_le_gt_dec (-1074) (d + ex - 53)) as [Hnorm|Hsub].
    + (* normal range: q has 53 digits *)
      assert (En : n = d - 53) by (unfold n; lia).
      assert (P52 : 2 ^ 52 * 2 ^ n = 2 ^ (d - 1)).
      { rewrite <- pow2_add by lia. f_equal. lia. }
      assert (P53 : 2 ^ 53 * 2 ^ n = 2 ^ d).
      { rewrite <- pow2_add by lia. f_equal. lia. }
      assert (Qlo : 2 ^ 52 <= q) by nia.
      assert (Qhi : q < 2 ^ 53) by nia.
      destruct (Z_lt_le_dec m2 (2 ^ 53)) as [Hm2|Hm2].
      * assert (D2 : Zdigits2 m2 = 53) by (apply Zdigits2_bounds; simpl; lia).
        rewrite shift_none by (try lia; rewrite D2, fexp_eq; lia).
        cbn [fst snd shr_m].
        split; [lia|]. split; [lia|]. split; [lia|]. split; [|split].
        -- intros p Hp. apply canonical_cases. left.
           rewrite <- Zdigits2_pos, <- Hp, D2. lia.
        -- apply nearest_canonical. exact NearG.
        -- specialize (NearG 0). rewrite Z.mul_0_l in NearG.
           replace (Z.abs (0 - X)) with X in NearG by lia. exact NearG.
      * assert (Em2 : m2 = 2 ^ 53) by lia.
        rewrite Em2, shift_carry by lia. cbn [fst snd shr_m].
        assert (V : 2 ^ 52 * 2 ^ (e1 + 1 + bias) = m2 * 2 ^ (e1 + bias)).
        { rewrite Em2. replace (e1 + 1 + bias) with (1 + (e1 + bias)) by lia.
          rewrite pow2_add by lia. change (2 ^ 53) with (2 ^ 52 * 2 ^ 1). ring. }
        rewrite V.
        split; [lia|]. split; [lia|]. split; [lia|]. split; [|split].
        -- intros p Hp. apply canonical_cases. left. inversion Hp; subst p.
           split; [reflexivity | lia].
        -- apply nearest_canonical. exact NearG.
        -- specialize (NearG 0). rewrite Z.mul_0_l in NearG.
           replace (Z.abs (0 - X)) with X in NearG by lia. exact NearG.
    + (* subnormal range: q has fewer digits *)
      assert (Ee : e1 = -1074) by lia.
      assert (Qhi : q < 2 ^ 52).
      { assert (A : 2 ^ d <= 2 ^ 52 * 2 ^ n).
        { rewrite <- pow2_add by lia. apply pow2_le. unfold n. lia. }
        nia. }
      assert (Hm2 : m2 < 2 ^ 53) by (change (2 ^ 53) with (2 * 2 ^ 52); lia).
      assert (N2 : fexp prec emax (Zdigits2 m2 + e1) <= e1).
      { rewrite fexp_eq. destruct m2 as [|p|p]; try lia.
        - simpl. lia.
        - rewrite Zdigits2_pos. pose proof (digits_le_53 p Hm2). lia. }
      rewrite shift_none by (try lia; exact N2).
      cbn [fst snd shr_m].
      split; [lia|]. split; [lia|]. split; [lia|]. split; [|split].
      * intros p Hp. apply canonical_cases. right. split; [|assumption].
        apply digits_le_53. rewrite <- Hp. exact Hm2.
      * apply nearest_canonical. exact NearG.
      * specialize (NearG 0). rewrite Z.mul_0_l in NearG.
        replace (Z.abs (0 - X)) with X in NearG by lia. exact NearG.
Qed.

End RoundCore.

(** *** Values *)

Lemma bias_ge : 1179 <= bias.
Proof. unfold bias. lia. Qed.

Lemma mag_pos (m : positive) (e : Z) : -1179 <= e -> 0 < magnitude m e.
Proof.
  intros H. pose proof bias_ge. unfold magnitude.
  assert (0 < 2 ^ (e + bias)) by (apply pow2_pos; lia). nia.
Qed.

Lemma valid_finite (s : bool) (m : positive) (e : Z) :
  valid_float (S754_finite s m e) <-> canonical m e /\ e <= 971.
Proof.
  unfold valid_float, valid_binary, bounded, canonical.
  rewrite andb_true_iff, Z.leb_le. change (emax - prec) with 971. tauto.
Qed.

Lemma valid_representable (f : float64) : valid_float f -> representable (scaled f).
Proof.
  destruct f as [s|s| |s m e]; intros H; try (left; reflexivity).
  apply valid_finite in H. destruct H as [C _]. right. exists m, e. split; [assumption|].
  destruct (canonical_bounds m e C) as [E _].
  pose proof (mag_pos m e ltac:(lia)). destruct s; simpl; lia.
Qed.

Lemma value_le_largest (f : float64) : valid_float f -> Z.abs (scaled f) <= magnitude largest_mantissa 971.
Proof.
  destruct f as [s|s| |s m e]; intros H;
    try (pose proof (mag_pos largest_mantissa 971 ltac:(lia)); simpl; lia).
  apply valid_finite in H. destruct H as [C E].
  destruct (canonical_bounds m e C) as [E0 [M _]].
  pose proof bias_ge as B.
  pose proof (mag_pos m e ltac:(lia)) as P.
  assert (A : Z.abs (scaled (S754_finite s m e)) = magnitude m e) by (destruct s; simpl; lia).
  rewrite A. unfold magnitude.
  assert (K : 2 ^ (e + bias) <= 2 ^ (971 + bias)) by (apply pow2_le; lia).
  assert (K0 : 0 < 2 ^ (e + bias)) by (apply pow2_pos; lia).
  assert (M' : Zpos m <= Zpos largest_mantissa).
  { change (Zpos largest_mantissa) with (2 ^ 53 - 1). lia. }
  apply Z.mul_le_mono_nonneg; lia.
Qed.

Lemma nearest_signed (s : bool) (X val : Z) :
  0 < X -> 0 <= val ->
  (forall mf ef, canonical mf ef -> Z.abs (val - X) <= Z.abs (magnitude mf ef - X)) ->
  Z.abs (val - X) <= X ->
  nearest_to (cond_Zopp s X) (cond_Zopp s val).
Proof.
  intros HX Hv Hn H0 r [->|(m & e & C & A)].
  - destruct s; simpl; lia.
  - specialize (Hn m e C).
    destruct (canonical_bounds m e C) as [E _].
    pose proof (mag_pos m e ltac:(lia)).
    destruct s; simpl; lia.
Qed.

Lemma round_aux_rounds (s : bool) (mx : positive) (ex : Z) :
  0 <= ex + bias ->
  ex <= fexp prec emax (Zpos (digits2_pos mx) + ex) ->
  rounds_to (cond_Zopp s (magnitude mx ex)) (binary_round_aux prec emax s (Zpos mx) ex loc_Exact).
Proof.
  intros Hex Hfexp. rewrite binary_round_aux_core.
  destruct (round_core_spec mx ex Hex Hfexp) as (H0 & He & _ & Hcan & Hnear & Hz).
  pose proof bias_ge as B.
  assert (PX : 0 < magnitude mx ex).
  { unfold magnitude. assert (0 < 2 ^ (ex + bias)) by (apply pow2_pos; lia). nia. }
  fold (magnitude mx ex) in Hnear, Hz.
  destruct (fst (round_core (Zpos mx) ex)) as [|p|p] eqn:E3; [| |lia].
  - split; [reflexivity|]. left. split; [reflexivity|].
    change (scaled (S754_zero s)) with 0.
    replace 0 with (cond_Zopp s 0) by (destruct s; reflexivity).
    apply nearest_signed; [lia | lia | exact Hnear | exact Hz].
  - set (e3 := snd (round_core (Zpos mx) ex)) in *.
    specialize (Hcan p eq_refl).
    fold (magnitude p e3) in Hnear, Hz.
    change (emax - prec) with 971.
    destruct (Z.leb_spec e3 971) as [L|L].
    + split; [apply valid_finite; now split|]. left. split; [reflexivity|].
      cbn [scaled]. apply nearest_signed; [lia | lia | exact Hnear | lia].
    + split; [reflexivity|]. right. split; [reflexivity|].
      intros f Hf. pose proof (value_le_largest f Hf) as Lf.
      assert (C : canonical largest_mantissa 971) by reflexivity.
      specialize (Hnear largest_mantissa 971 C).
      change (Zpos largest_mantissa * 2 ^ (971 + bias)) with (magnitude largest_mantissa 971) in Hnear.
      destruct (canonical_bounds p e3 Hcan) as [_ [_ N]]. specialize (N ltac:(lia)).
      assert (K : magnitude largest_mantissa 971 < magnitude p e3).
      { unfold magnitude.
        assert (K1 : 2 * 2 ^ (971 + bias) <= 2 ^ (e3 + bias)).
        { change 2 with (2 ^ 1) at 1. rewrite <- pow2_add by lia. apply pow2_le. lia. }
        assert (K2 : 0 < 2 ^ (971 + bias)) by (apply pow2_pos; lia).
        change (Zpos largest_mantissa) with (2 ^ 53 - 1).
        change (2 ^ 53) with (2 * 2 ^ 52) in *. nia. }
      assert (A : Z.abs (cond_Zopp s (magnitude mx ex)) = magnitude mx ex) by (destruct s; simpl; lia).
      rewrite A. lia.
Qed.

(** *** Alignment and normalisation *)

Lemma iter_xO (m d : positive) : Zpos (Pos.iter xO m d) = Zpos m * 2 ^ Zpos d.
Proof.
  induction d as [|d IH] using Pos.peano_ind.
  - change (Pos.iter xO m 1) with (m~0)%positive. change (2 ^ 1) with 2. lia.
  - rewrite Pos.iter_succ, Pos2Z.inj_xO, IH, Pos2Z.inj_succ, Z.pow_succ_r by lia. ring.
Qed.

Lemma shl_align_spec (mx : positive) (ex ex' : Z) :
  snd (shl_align mx ex ex') = Z.min ex ex' /\
  Zpos (fst (shl_align mx ex ex')) = Zpos mx * 2 ^ (ex - Z.min ex ex').
Proof.
  unfold shl_align. destruct (ex' - ex) as [|d|d] eqn:E; cbn [fst snd].
  - replace (Z.min ex ex') with ex by lia. rewrite Z.sub_diag. simpl. lia.
  - replace (Z.min ex ex') with ex by lia. rewrite Z.sub_diag. simpl. lia.
  - replace (Z.min ex ex') with ex' by lia. rewrite iter_xO.
    replace (ex - ex') with (Zpos d) by lia. split; reflexivity.
Qed.

Lemma digits_shift (m : positive) (k : Z) (mz : positive) :
  0 <= k -> Zpos mz = Zpos m * 2 ^ k ->
  Zpos (digits2_pos mz) = Zpos (digits2_pos m) + k.
Proof.
  intros Hk E. apply digits_unique. rewrite E.
  pose proof (digits_bounds m) as [L U].
  pose proof (Pos2Z.is_pos (digits2_pos m)) as D.
  assert (P : 0 < 2 ^ k) by (apply pow2_pos; lia).
  replace (Zpos (digits2_pos m) + k - 1) with ((Zpos (digits2_pos m) - 1) + k) by lia.
  rewrite !pow2_add by lia. split; nia.
Qed.

Lemma binary_round_rounds (s : bool) (mx : positive) (ex : Z) :
  0 <= ex + bias ->
  rounds_to (cond_Zopp s (magnitude mx ex)) (binary_round prec emax s mx ex).
Proof.
  intros Hex. pose proof bias_ge as B. unfold binary_round.
  set (e' := fexp prec emax (Zpos (digits2_pos mx) + ex)).
  assert (E' : e' = Z.max (Zpos (digits2_pos mx) + ex - 53) (-1074)) by apply fexp_eq.
  destruct (shl_align_spec mx ex e') as [A1 A2].
  destruct (shl_align mx ex e') as [mz ez]. cbn [fst snd] in A1, A2.
  assert (M : magnitude mz ez = magnitude mx ex).
  { unfold magnitude. rewrite A2, <- Z.mul_assoc, <- pow2_add by lia. f_equal. f_equal. lia. }
  rewrite <- M. apply round_aux_rounds; [lia|].
  rewrite (digits_shift mx (ex - Z.min ex e') mz) by (lia || assumption).
  rewrite fexp_eq. lia.
Qed.

Lemma normalize_rounds (m e : Z) :
  0 <= e + bias ->
  rounds_to (m * 2 ^ (e + bias)) (binary_normalize prec emax m e false).
Proof.
  intros He. destruct m as [|p|p]; cbn [binary_normalize].
  - split; [reflexivity|]. left. split; [reflexivity|]. intros r _. simpl. lia.
  - apply (binary_round_rounds false p e He).
  - replace (Zneg p * 2 ^ (e + bias)) with (cond_Zopp true (magnitude p e))
      by (unfold magnitude, cond_Zopp; rewrite <- Z.mul_opp_l; reflexivity).
    apply (binary_round_rounds true p e He).
Qed.

(** A scaled that needs no rounding. *)
Lemma rounds_exact (z : float64) : valid_float z -> is_finite z = true -> rounds_to (scaled z) z.
Proof.
  intros H F. split; [assumption|]. left. split; [assumption|]. intros r _. lia.
Qed.

(** Rounding keeps a scaled between any two floats that enclose it. *)
Lemma rounds_between (X : Z) (z f1 f2 : float64) :
  rounds_to X z -> valid_float f1 -> valid_float f2 -> scaled f1 <= X <= scaled f2 ->
  is_finite z = true /\ scaled f1 <= scaled z <= scaled f2.
Proof.
  intros [Hv [[F N]|[F O]]] H1 H2 HX.
  - split; [assumption|].
    pose proof (N _ (valid_representable f1 H1)).
    pose proof (N _ (valid_representable f2 H2)). lia.
  - pose proof (O f1 H1). pose proof (O f2 H2). lia.
Qed.

Lemma rounds_above (X : Z) (z f1 : float64) :
  rounds_to X z -> is_finite z = true -> valid_float f1 -> scaled f1 <= X -> scaled f1 <= scaled z.
Proof.
  intros [Hv [[F N]|[F O]]] Fz H1 HX; [|congruence].
  pose proof (N _ (valid_representable f1 H1)). lia.
Qed.

(** *** The operations *)

Lemma valid_exponent (s : bool) (m : positive) (e : Z) :
  valid_float (S754_finite s m e) -> -1074 <= e <= 971.
Proof.
  intros H. apply valid_finite in H. destruct H as [C E].
  destruct (canonical_bounds m e C). lia.
Qed.

Lemma aligned_value (s : bool) (m : positive) (e e' : Z) :
  -1074 <= e -> -1074 <= e' ->
  cond_Zopp s (Zpos (fst (shl_align m e (Z.min e e')))) * 2 ^ (Z.min e e' + bias) =
  scaled (S754_finite s m e).
Proof.
  intros He He'. pose proof bias_ge as B.
  destruct (shl_align_spec m e (Z.min e e')) as [_ A]. rewrite A.
  replace (Z.min e (Z.min e e')) with (Z.min e e') by lia.
  cbn [scaled]. unfold magnitude.
  replace (e + bias) with ((e - Z.min e e') + (Z.min e e' + bias)) by lia.
  rewrite (pow2_add (e - Z.min e e') (Z.min e e' + bias)) by lia.
  destruct s; unfold cond_Zopp; ring.
Qed.

Lemma fadd_rounds (x y : float64) :
  valid_float x -> valid_float y -> is_finite x = true -> is_finite y = true ->
  rounds_to (scaled x + scaled y) (SFadd prec emax x y).
Proof.
  intros Vx Vy Fx Fy. pose proof bias_ge as B.
  destruct x as [sx|sx| |sx mx ex], y as [sy|sy| |sy my ey]; try discriminate.
  - destruct sx, sy; simpl; apply (rounds_exact (S754_zero _)); reflexivity.
  - rewrite Z.add_0_l. now apply rounds_exact.
  - rewrite Z.add_0_r. now apply rounds_exact.
  - pose proof (valid_exponent _ _ _ Vx). pose proof (valid_exponent _ _ _ Vy).
    cbn [SFadd].
    rewrite <- (aligned_value sx mx ex ey), <- (aligned_value sy my ey ex) by lia.
    rewrite (Z.min_comm ey ex), <- Z.mul_add_distr_r.
    apply normalize_rounds. lia.
Qed.

Lemma fsub_rounds (x y : float64) :
  valid_float x -> valid_float y -> is_finite x = true -> is_finite y = true ->
  rounds_to (scaled x - scaled y) (SFsub prec emax x y).
Proof.
  intros Vx Vy Fx Fy. pose proof bias_ge as B.
  destruct x as [sx|sx| |sx mx ex], y as [sy|sy| |sy my ey]; try discriminate.
  - destruct sx, sy; simpl; apply (rounds_exact (S754_zero _)); reflexivity.
  - replace (scaled (S754_zero sx) - scaled (S754_finite sy my ey))
      with (scaled (S754_finite (negb sy) my ey)) by (destruct sy; simpl; lia).
    apply rounds_exact; [|reflexivity]. exact Vy.
  - rewrite Z.sub_0_r. now apply rounds_exact.
  - pose proof (valid_exponent _ _ _ Vx). pose proof (valid_exponent _ _ _ Vy).
    cbn [SFsub].
    rewrite <- (aligned_value sx mx ex ey), <- (aligned_value sy my ey ex) by lia.
    rewrite (Z.min_comm ey ex), <- Z.mul_sub_distr_r.
    apply normalize_rounds. lia.
Qed.

Lemma fmul_rounds (sx sy : bool) (mx my : positive) (ex ey : Z) :
  0 <= ex + ey + bias -> 2 ^ 52 <= Zpos my ->
  rounds_to (cond_Zopp (xorb sx sy) (magnitude (mx * my) (ex + ey)))
    (SFmul prec emax (S754_finite sx mx ex) (S754_finite sy my ey)).
Proof.
  intros He Hy. cbn [SFmul]. apply round_aux_rounds; [assumption|].
  rewrite fexp_eq.
  pose proof (digits_bounds (mx * my)) as [_ U].
  pose proof (Pos2Z.is_pos (digits2_pos (mx * my))) as D.
  destruct (Z_le_gt_dec 53 (Zpos (digits2_pos (mx * my)))) as [K|K]; [lia|].
  exfalso.
  assert (2 ^ Zpos (digits2_pos (mx * my)) <= 2 ^ 52) by (apply pow2_le; lia).
  rewrite Pos2Z.inj_mul in U. nia.
Qed.

(** *** Comparison *)

Lemma mag_compare (m1 m2 : positive) (e1 e2 : Z) :
  canonical m1 e1 -> canonical m2 e2 ->
  (magnitude m1 e1 ?= magnitude m2 e2) =
  match e1 ?= e2 with
  | Lt => Lt
  | Gt => Gt
  | Eq => Pos.compare_cont Eq m1 m2
  end.
Proof.
  intros C1 C2. pose proof bias_ge as B.
  destruct (canonical_bounds m1 e1 C1) as [E1 [M1 N1]].
  destruct (canonical_bounds m2 e2 C2) as [E2 [M2 N2]].
  assert (P1 : 0 < 2 ^ (e1 + bias)) by (apply pow2_pos; lia).
  assert (P2 : 0 < 2 ^ (e2 + bias)) by (apply pow2_pos; lia).
  unfold magnitude. destruct (Z.compare_spec e1 e2) as [E|E|E].
  - subst e2. change (Pos.compare_cont Eq m1 m2) with (Zpos m1 ?= Zpos m2).
    destruct (Z.compare_spec (Zpos m1) (Zpos m2)) as [K|K|K].
    + rewrite K. apply Z.compare_refl.
    + apply Z.compare_lt_iff. nia.
    + apply Z.compare_gt_iff. nia.
  - apply Z.compare_lt_iff. specialize (N2 ltac:(lia)).
    assert (K : 2 * 2 ^ (e1 + bias) <= 2 ^ (e2 + bias)).
    { change 2 with (2 ^ 1) at 1. rewrite <- pow2_add by lia. apply pow2_le. lia. }
    change (2 ^ 53) with (2 * 2 ^ 52) in *. nia.
  - apply Z.compare_gt_iff. specialize (N1 ltac:(lia)).
    assert (K : 2 * 2 ^ (e2 + bias) <= 2 ^ (e1 + bias)).
    { change 2 with (2 ^ 1) at 1. rewrite <- pow2_add by lia. apply pow2_le. lia. }
    change (2 ^ 53) with (2 * 2 ^ 52) in *. nia.
Qed.

Lemma compare_value (a b : float64) :
  valid_float a -> valid_float b -> is_finite a = true -> is_finite b = true ->
  SFcompare a b = Some (scaled a ?= scaled b).
Proof.
  intros Va Vb Fa Fb.
  destruct a as [sa|sa| |sa ma ea], b as [sb|sb| |sb mb eb]; try discriminate.
  - reflexivity.
  - apply valid_exponent in Vb as Eb. pose proof (mag_pos mb eb ltac:(lia)).
    cbn [SFcompare scaled]. f_equal. symmetry.
    destruct sb; unfold cond_Zopp;
      [apply Z.compare_gt_iff | apply Z.compare_lt_iff]; lia.
  - apply valid_exponent in Va as Ea. pose proof (mag_pos ma ea ltac:(lia)).
    cbn [SFcompare scaled]. f_equal. symmetry.
    destruct sa; unfold cond_Zopp;
      [apply Z.compare_lt_iff | apply Z.compare_gt_iff]; lia.
  - apply valid_exponent in Va as Ea. apply valid_exponent in Vb as Eb.
    apply valid_finite in Va. apply valid_finite in Vb.
    destruct Va as [Ca _], Vb as [Cb _].
    pose proof (mag_pos ma ea ltac:(lia)). pose proof (mag_pos mb eb ltac:(lia)).
    cbn [SFcompare scaled]. f_equal.
    destruct sa, sb; unfold cond_Zopp.
    + rewrite Z.compare_opp, (mag_compare mb ma eb ea Cb Ca).
      rewrite (Z.compare_antisym eb ea).
      destruct (eb ?= ea); try reflexivity. cbn [CompOpp].
      change (Pos.compare_cont Eq ma mb) with (Pos.compare ma mb).
      change (Pos.compare_cont Eq mb ma) with (Pos.compare mb ma).
      now rewrite (Pos.compare_antisym mb ma), CompOpp_involutive.
    + symmetry. apply Z.compare_lt_iff. lia.
    + symmetry. apply Z.compare_gt_iff. lia.
    + now rewrite mag_compare.
Qed.

Lemma leb_value (a b : float64) :
  valid_float a -> valid_float b -> is_finite a = true -> is_finite b = true ->
  SFleb a b = (scaled a <=? scaled b).
Proof.
  intros Va Vb Fa Fb. unfold SFleb, Z.leb. rewrite (compare_value a b Va Vb Fa Fb).
  now destruct (scaled a ?= scaled b).
Qed.

(** *** A draw in [0, 1) *)

Lemma unit_draw_spec (k : Z) :
  0 <= k < 2 ^ 53 -> unit_draw (binary_normalize prec emax k (-53) false).
Proof.
  intros Hk. pose proof bias_ge as B.
  destruct k as [|p|p]; [left; reflexivity| |lia]. right.
  pose proof (normalize_rounds (Zpos p) (-53) ltac:(lia)) as R.
  set (u := binary_normalize prec emax (Zpos p) (-53) false) in *.
  set (X := Zpos p * 2 ^ (-53 + bias)) in *.
  assert (PX : 0 < 2 ^ (-53 + bias)) by (apply pow2_pos; lia).
  (* the float that holds the scaled exactly *)
  pose proof (digits_bounds p) as [DL DU].
  pose proof (Pos2Z.is_pos (digits2_pos p)) as Dp.
  set (d := Zpos (digits2_pos p)) in *.
  assert (D53 : d <= 53) by (apply digits_le_53; lia).
  assert (Pk : 0 < 2 ^ (53 - d)) by (apply pow2_pos; lia).
  set (mz := Z.to_pos (Zpos p * 2 ^ (53 - d))).
  assert (Mz : Zpos mz = Zpos p * 2 ^ (53 - d)) by (unfold mz; rewrite Z2Pos.id; nia).
  assert (Dz : Zpos (digits2_pos mz) = 53).
  { rewrite (digits_shift p (53 - d) mz) by (lia || assumption). fold d. lia. }
  assert (Cz : canonical mz (d - 106)) by (apply canonical_cases; left; lia).
  assert (Vz : valid_float (S754_finite false mz (d - 106))) by (apply valid_finite; split; [assumption|lia]).
  assert (Ez : scaled (S754_finite false mz (d - 106)) = X).
  { cbn [scaled cond_Zopp]. unfold magnitude, X. rewrite Mz, <- Z.mul_assoc, <- pow2_add by lia.
    f_equal. f_equal. lia. }
  destruct (rounds_between X u _ _ R Vz Vz ltac:(lia)) as [Fu Eu].
  assert (Vu : valid_float u) by apply R.
  assert (Xu : scaled u = X) by lia. clear Eu R.
  clearbody u. unfold X in Xu.
  destruct u as [s|s| |s mu eu];
    [cbn [scaled] in Xu; nia | discriminate Fu | discriminate Fu |].
  apply valid_finite in Vu. destruct Vu as [Cu Eu].
  destruct (canonical_bounds mu eu Cu) as [E0 [M N]].
  pose proof (mag_pos mu eu ltac:(lia)) as Pm.
  destruct s; [cbn [scaled cond_Zopp] in Xu; nia|].
  cbn [scaled cond_Zopp] in Xu. unfold magnitude in Xu.
  assert (Pu : 0 < 2 ^ (eu + bias)) by (apply pow2_pos; lia).
  assert (Ehi : eu <= -53).
  { destruct (Z_le_gt_dec eu (-53)) as [K|K]; [assumption|]. exfalso.
    specialize (N ltac:(lia)).
    assert (A : 2 ^ 53 * 2 ^ (-53 + bias) <= 2 ^ 52 * 2 ^ (eu + bias)).
    { rewrite <- !pow2_add by lia. apply pow2_le. lia. }
    nia. }
  assert (Elo : -105 <= eu).
  { destruct (Z_le_gt_dec (-105) eu) as [K|K]; [assumption|]. exfalso.
    assert (A : 2 ^ 53 * 2 ^ (eu + bias) <= 2 ^ (-53 + bias)).
    { rewrite <- pow2_add by lia. apply pow2_le. lia. }
    nia. }
  exists mu, eu. split; [reflexivity|]. split; [lia|]. split; [apply N; lia|].
  assert (A : 2 ^ (-53 + bias) = 2 ^ (- eu - 53) * 2 ^ (eu + bias)).
  { rewrite <- pow2_add by lia. f_equal. lia. }
  assert (A2 : 2 ^ (- eu) = 2 ^ 53 * 2 ^ (- eu - 53)).
  { rewrite <- pow2_add by lia. f_equal. lia. }
  assert (Pa : 0 < 2 ^ (- eu - 53)) by (apply pow2_pos; lia).
  rewrite A in Xu. rewrite A2.
  assert (Emu : Zpos mu = Zpos p * 2 ^ (- eu - 53)) by nia.
  nia.
Qed.

Lemma value_multiple (f : float64) :
  valid_float f -> exists c, scaled f = c * 2 ^ (bias - 1074).
Proof.
  intros H. pose proof bias_ge as B.
  destruct f as [s|s| |s m e]; try (exists 0; reflexivity).
  apply valid_exponent in H.
  exists (cond_Zopp s (Zpos m * 2 ^ (e + 1074))). cbn [scaled]. unfold magnitude.
  replace (e + bias) with ((e + 1074) + (bias - 1074)) by lia.
  rewrite pow2_add by lia. destruct s; unfold cond_Zopp; ring.
Qed.

(** *** One sample *)

Lemma fsub_finite (h l : float64) :
  is_finite (SFsub prec emax h l) = true -> is_finite h = true /\ is_finite l = true.
Proof.
  intros H. destruct h as [[]|[]| |sh mh eh], l as [[]|[]| |sl ml el];
    try discriminate H; split; reflexivity.
Qed.

Lemma product_below (low high u : float64) :
  valid_float low -> valid_float high -> is_finite low = true -> is_finite high = true ->
  scaled low <= scaled high -> unit_draw u ->
  is_finite (SFsub prec emax high low) = true ->
  valid_float (SFmul prec emax (SFsub prec emax high low) u) /\
  is_finite (SFmul prec emax (SFsub prec emax high low) u) = true /\
  0 <= scaled (SFmul prec emax (SFsub prec emax high low) u) <= scaled high - scaled low.
Proof.
  intros Vl Vh Fl Fh Hle Hu FR. pose proof bias_ge as B.
  pose proof (fsub_rounds high low Vh Vl Fh Fl) as RR.
  set (R := SFsub prec emax high low) in *.
  set (D := scaled high - scaled low) in *.
  assert (VR : valid_float R) by apply RR.
  assert (R0 : 0 <= scaled R).
  { apply (rounds_above D R (S754_zero false) RR FR); [reflexivity | simpl; lia]. }
  assert (NR : nearest_to D (scaled R)).
  { destruct RR as [_ [[_ N]|[F _]]]; [exact N | congruence]. }
  clearbody R. clear RR.
  destruct Hu as [-> | (mu & eu & -> & Eeu & Nmu & Hmu)].
  - destruct R as [s|s| |sR mR eR]; try discriminate FR;
      (split; [reflexivity | split; [reflexivity | simpl; lia]]).
  - destruct R as [s|s| |sR mR eR]; try discriminate FR.
    + split; [reflexivity | split; [reflexivity | simpl; lia]].
    + pose proof (valid_exponent _ _ _ VR) as ER.
      pose proof (mag_pos mR eR ltac:(lia)) as PR.
      destruct sR; [cbn [scaled cond_Zopp] in R0; lia|].
      cbn [scaled cond_Zopp] in NR. clear R0 FR.
      pose proof (fmul_rounds false false mR mu eR eu ltac:(lia) Nmu) as RP.
      cbn [xorb cond_Zopp] in RP.
      set (p := SFmul prec emax (S754_finite false mR eR) (S754_finite false mu eu)) in *.
      clearbody p.
      assert (PT : 0 < 2 ^ (eR + eu + bias)) by (apply pow2_pos; lia).
      assert (Pa : 0 < 2 ^ (- eu - 53)) by (apply pow2_pos; lia).
      assert (EW : 2 ^ (- eu) = 2 ^ 53 * 2 ^ (- eu - 53)).
      { rewrite <- pow2_add by lia. f_equal. lia. }
      assert (EG : 2 ^ (eR + bias) = 2 ^ (- eu) * 2 ^ (eR + eu + bias)).
      { rewrite <- pow2_add by lia. f_equal. lia. }
      assert (EX : magnitude (mR * mu) (eR + eu) = Zpos mR * Zpos mu * 2 ^ (eR + eu + bias)).
      { unfold magnitude. now rewrite Pos2Z.inj_mul. }
      assert (ER' : magnitude mR eR = Zpos mR * 2 ^ (- eu) * 2 ^ (eR + eu + bias)).
      { unfold magnitude. rewrite EG. ring. }
      set (Xp := magnitude (mR * mu) (eR + eu)) in *.
      set (VR' := magnitude mR eR) in *.
      set (T := 2 ^ (eR + eu + bias)) in *.
      set (a := 2 ^ (- eu - 53)) in *.
      set (W := 2 ^ (- eu)) in *.
      assert (Gap : Zpos mR * a * T <= VR' - Xp).
      { assert (0 <= Zpos mR * T * (W - Zpos mu - a)) by (apply Z.mul_nonneg_nonneg; nia).
        nia. }
      assert (X0 : 0 <= Xp) by nia.
      assert (PaT : 0 < a * T) by nia.
      assert (X1 : Xp <= VR') by nia.
      destruct (rounds_between Xp p (S754_zero false) (S754_finite false mR eR) RP
                  eq_refl VR ltac:(cbn [scaled cond_Zopp]; fold VR'; lia)) as [Fp [P0 P1]].
      cbn [scaled cond_Zopp] in P0, P1. fold VR' in P1.
      assert (Vp : valid_float p) by apply RP.
      split; [assumption|]. split; [assumption|]. split; [assumption|].
      destruct (Z_le_gt_dec (scaled p) D) as [K|K]; [assumption|]. exfalso.
      pose proof (NR _ (valid_representable p Vp)) as N1.
      assert (EpR : scaled p = VR') by lia.
      assert (NP : nearest_to Xp VR').
      { destruct RP as [_ [[_ N]|[F _]]]; [now rewrite <- EpR | congruence]. }
      destruct (Z.eq_dec eR (-1074)) as [Es|En].
      * (* the range is subnormal: the difference itself is a float *)
        destruct (value_multiple high Vh) as [ch Hh].
        destruct (value_multiple low Vl) as [cl Hl].
        assert (PU : 0 < 2 ^ (bias - 1074)) by (apply pow2_pos; lia).
        assert (ED : D = (ch - cl) * 2 ^ (bias - 1074)) by (unfold D; rewrite Hh, Hl; ring).
        assert (EV : VR' = Zpos mR * 2 ^ (bias - 1074)).
        { unfold VR', magnitude. rewrite Es.
          replace (-1074 + bias) with (bias - 1074) by lia. reflexivity. }
        set (U0 := 2 ^ (bias - 1074)) in *.
        assert (J : 0 <= ch - cl < Zpos mR) by nia.
        assert (RD : representable D).
        { destruct (Z.eq_dec (ch - cl) 0) as [Z0|Z0]; [left; rewrite ED, Z0; ring|].
          right. exists (Z.to_pos (ch - cl)), (-1074).
          assert (Ej : Zpos (Z.to_pos (ch - cl)) = ch - cl) by (apply Z2Pos.id; lia).
          apply valid_finite in VR. destruct VR as [CR _].
          destruct (canonical_bounds mR eR CR) as [_ [MR _]].
          split.
          - apply canonical_cases. right. split; [|reflexivity].
            apply digits_le_53. lia.
          - unfold magnitude. rewrite Ej. replace (-1074 + bias) with (bias - 1074) by lia.
            fold U0. rewrite <- ED. lia. }
        pose proof (NR D RD). lia.
      * (* the range is normal: its lower neighbour is nearer to the product *)
        apply valid_finite in VR. destruct VR as [CR _].
        destruct (canonical_bounds mR eR CR) as [_ [MR NR']]. specialize (NR' ltac:(lia)).
        assert (EH : 2 ^ (eR - 1 + bias) = 2 ^ 52 * a * T).
        { unfold a, T. rewrite <- !pow2_add by lia. f_equal. lia. }
        assert (EG' : 2 ^ (eR + bias) = 2 * 2 ^ (eR - 1 + bias)).
        { change 2 with (2 ^ 1) at 2. rewrite <- pow2_add by lia. f_equal. lia. }
        destruct (Z.eq_dec (Zpos mR) (2 ^ 52)) as [Em|Em].
        -- assert (CF : canonical largest_mantissa (eR - 1)).
           { apply canonical_cases. left. split; [reflexivity | lia]. }
           assert (RF : representable (magnitude largest_mantissa (eR - 1))).
           { right. exists largest_mantissa, (eR - 1). split; [assumption|].
             pose proof (mag_pos largest_mantissa (eR - 1) ltac:(lia)). lia. }
           pose proof (NP _ RF) as N2.
           assert (EF : magnitude largest_mantissa (eR - 1) = VR' - 2 ^ (eR - 1 + bias)).
           { unfold VR', magnitude. rewrite EG', Em. change (Zpos largest_mantissa) with (2 ^ 53 - 1).
             change (2 ^ 53) with (2 * 2 ^ 52). ring. }
           rewrite EF, EH in N2. rewrite Em in Gap. lia.
        -- set (m' := Z.to_pos (Zpos mR - 1)).
           assert (Em' : Zpos m' = Zpos mR - 1) by (unfold m'; apply Z2Pos.id; lia).
           assert (CF : canonical m' eR).
           { apply canonical_cases. left. split; [|lia].
             apply digits_unique. rewrite Em'. change (53 - 1) with 52. lia. }
           assert (RF : representable (magnitude m' eR)).
           { right. exists m', eR. split; [assumption|].
             pose proof (mag_pos m' eR ltac:(lia)). lia. }
           pose proof (NP _ RF) as N2.
           assert (EF : magnitude m' eR = VR' - 2 ^ (eR + bias)).
           { unfold VR', magnitude. rewrite Em'. ring. }
           rewrite EF, EG', EH in N2.
           assert (G2 : (2 ^ 52 + 1) * (a * T) <= VR' - Xp) by nia.
           lia.
Qed.

Lemma sample_within (low high u : float64) :
  valid_float low -> valid_float high -> SFleb low high = true -> unit_draw u ->
  is_finite (SFsub prec emax high low) = true ->
  SFleb low (SFadd prec emax low (SFmul prec emax (SFsub prec emax high low) u)) = true /\
  SFleb (SFadd prec emax low (SFmul prec emax (SFsub prec emax high low) u)) high = true.
Proof.
  intros Vl Vh Hle Hu FR.
  destruct (fsub_finite high low FR) as [Fh Fl].
  rewrite (leb_value low high Vl Vh Fl Fh) in Hle. apply Z.leb_le in Hle.
  destruct (product_below low high u Vl Vh Fl Fh Hle Hu FR) as (Vp & Fp & P0 & P1).
  set (p := SFmul prec emax (SFsub prec emax high low) u) in *. clearbody p.
  pose proof (fadd_rounds low p Vl Vp Fl Fp) as RA.
  destruct (rounds_between _ _ low high RA Vl Vh ltac:(lia)) as [Fr [R0 R1]].
  assert (Vr : valid_float (SFadd prec emax low p)) by apply RA.
  rewrite (leb_value _ _ Vl Vr Fl Fr), (leb_value _ _ Vr Vh Fr Fh).
  split; apply Z.leb_le; assumption.
Qed.


End FloatFacts.

(* ===================================================================== *)
(** ** Draws inside the bounding box *)

Lemma next_uint32_range (g : RandomState) : (0 <= fst (next_uint32 g) < 2 ^ 32)%Z.
Proof. unfold next_uint32. cbn [fst]. apply Z.mod_pos_bound. reflexivity. Qed.

(** [next_double] is some [k / 2^53] with [0 <= k < 2^53]. *)
Lemma next_double_unit (g : RandomState) : unit_draw (fst (next_double g)).
Proof.
  unfold next_double.
  pose proof (next_uint32_range g) as A. destruct (next_uint32 g) as [a g1].
  pose proof (next_uint32_range g1) as B. destruct (next_uint32 g1) as [b g2].
  cbn [fst] in *. unfold float_of_Z_scaled. apply unit_draw_spec.
  rewrite !Z.shiftr_div_pow2 by lia.
  assert (A0 : (0 <= a / 2 ^ 5)%Z) by (apply Z.div_pos; lia).
  assert (A1 : (a / 2 ^ 5 < 2 ^ 27)%Z) by (apply Z.div_lt_upper_bound; lia).
  assert (B0 : (0 <= b / 2 ^ 6)%Z) by (apply Z.div_pos; lia).
  assert (B1 : (b / 2 ^ 6 < 2 ^ 26)%Z) by (apply Z.div_lt_upper_bound; lia).
  lia.
Qed.

Lemma fill_within (low high : float64) (n : nat) (g : RandomState) :
  valid_float low -> valid_float high -> fleb low high = true ->
  is_finite (fsub high low) = true ->
  Forall (within low high) (fst (fill n low (fsub high low) g)).
Proof.
  intros Vl Vh Hle F. revert g. induction n as [|n IH]; intros g; cbn [fill].
  - constructor.
  - pose proof (next_double_unit g) as U. destruct (next_double g) as [u g1].
    specialize (IH g1). destruct (fill n low (fsub high low) g1) as [xs g2].
    cbn [fst] in *. constructor; [|exact IH].
    exact (sample_within low high u Vl Vh Hle U F).
Qed.

Lemma fleb_refl (x : float64) : is_nan x = false -> fleb x x = true.
Proof.
  intros H. unfold fleb, SFleb.
  destruct x as [s|s| |s m e]; [reflexivity | now destruct s | discriminate |].
  cbn [SFcompare]. rewrite Z.compare_refl.
  change (Pos.compare_cont Eq m m) with (Pos.compare m m). rewrite Pos.compare_refl.
  now destruct s.
Qed.

Lemma SFcompare_None (x y : float64) :
  SFcompare x y = None -> is_nan x = true \/ is_nan y = true.
Proof.
  destruct x as [sx|sx| |sx mx ex], y as [sy|sy| |sy my ey]; simpl; intros H;
    try discriminate H; auto.
Qed.

Lemma fltb_false_fleb (x y : float64) :
  is_nan x = false -> is_nan y = false -> fltb x y = false -> fleb y x = true.
Proof.
  intros Nx Ny. unfold fltb, fleb, SFltb, SFleb. rewrite (SFcompare_antisym x y).
  destruct (SFcompare x y) as [[]|] eqn:E; simpl; try reflexivity; try discriminate.
  destruct (SFcompare_None x y E); congruence.
Qed.

Lemma fmin_cases (a x : float64) : fmin a x = a \/ fmin a x = x.
Proof. unfold fmin. destruct (is_nan a), (is_nan x), (fltb x a); auto. Qed.

Lemma fmax_cases (a x : float64) : fmax a x = a \/ fmax a x = x.
Proof. unfold fmax. destruct (is_nan a), (is_nan x), (fltb a x); auto. Qed.

Lemma fold_fmin_valid (l : list float64) :
  forall a, Forall valid_float l -> valid_float a -> valid_float (fold_left fmin l a).
Proof.
  induction l as [|x l IH]; intros a Hl Ha; [exact Ha|].
  inversion Hl; subst. cbn [fold_left]. apply IH; [assumption|].
  destruct (fmin_cases a x) as [E|E]; now rewrite E.
Qed.

Lemma fold_fmax_valid (l : list float64) :
  forall a, Forall valid_float l -> valid_float a -> valid_float (fold_left fmax l a).
Proof.
  induction l as [|x l IH]; intros a Hl Ha; [exact Ha|].
  inversion Hl; subst. cbn [fold_left]. apply IH; [assumption|].
  destruct (fmax_cases a x) as [E|E]; now rewrite E.
Qed.

(** The running minimum never passes the running maximum. *)
Lemma extremes_ordered (l : list float64) :
  forall a b,
    is_nan a = is_nan b -> (is_nan a = false -> fleb a b = true) ->
    is_nan (fold_left fmin l a) = is_nan (fold_left fmax l b) /\
    (is_nan (fold_left fmin l a) = false ->
     fleb (fold_left fmin l a) (fold_left fmax l b) = true).
Proof.
  induction l as [|x l IH]; intros a b Hn Hle; [now split|].
  cbn [fold_left]. apply IH; unfold fmin, fmax; rewrite <- Hn.
  - destruct (is_nan a) eqn:Na; [reflexivity|].
    destruct (is_nan x) eqn:Nx; [congruence|].
    destruct (fltb x a), (fltb b x); congruence.
  - destruct (is_nan a) eqn:Na; [apply fleb_refl|].
    destruct (is_nan x) eqn:Nx; [intros _; now apply Hle|].
    assert (Nb : is_nan b = false) by congruence.
    destruct (fltb x a) eqn:C1, (fltb b x) eqn:C2; intros _.
    + now apply fleb_refl.
    + now apply fltb_false_fleb.
    + now apply fltb_false_fleb.
    + now apply Hle.
Qed.

Lemma series_extremes (l : list float64) :
  Forall valid_float l ->
  valid_float (series_min l) /\ valid_float (series_max l) /\
  (is_nan (series_min l) = false -> fleb (series_min l) (series_max l) = true).
Proof.
  intros H. unfold series_min, series_max.
  split; [now apply fold_fmin_valid|]. split; [now apply fold_fmax_valid|].
  apply (extremes_ordered l nan nan); [reflexivity | discriminate].
Qed.

Lemma uniform_within (low high : float64) (n : nat) (g : RandomState) (xs : list float64) :
  valid_float low -> valid_float high ->
  (is_nan low = false -> fleb low high = true) ->
  fst (uniform low high n g) = Ok xs ->
  Forall (within low high) xs.
Proof.
  intros Vl Vh Hle. unfold uniform.
  destruct (is_finite (fsub high low)) eqn:F; [|discriminate].
  pose proof (fill_within low high n g Vl Vh) as W.
  destruct (fsub_finite high low F) as [_ Fl].
  assert (Nl : is_nan low = false) by (now destruct low).
  specialize (W (Hle Nl) F).
  destruct (fill n low (fsub high low) g) as [ys g']. cbn [fst] in *.
  intros E. inversion E; subst. exact W.
Qed.

(** C7. Every coordinate [np.random.uniform] returns for the bounding box of
    a training column lies in the closed interval from the column's minimum
    to its maximum. [l] is the column ([df_model['longitude']] or
    [df_model['latitude']], whose entries are binary64 values), the bounds
    are [l.min()] and [l.max()] as line 176 and 177 compute them, and the
    call is the one of lines 180 and 181, whatever the state of the
    generator and the size of the batch. The floating-point sum
    [low + (high - low) * u] is rounded three times; the statement holds of
    the rounded result. *)
Theorem sampled_within_bounds (l : list float64) (size : nat) (w : World)
    (xs : list float64) :
  Forall valid_float l ->
  fst (np_random_uniform (series_min l) (series_max l) size w) = Ok xs ->
  Forall (within (series_min l) (series_max l)) xs.
Proof.
  intros Hl. destruct (series_extremes l Hl) as (Vmin & Vmax & Hle).
  unfold np_random_uniform.
  pose proof (uniform_within (series_min l) (series_max l) size (np_random w) xs
                Vmin Vmax Hle) as U.
  destruct (uniform (series_min l) (series_max l) size (np_random w)) as [r g].
  cbn [fst] in *. exact U.
Qed.

Lemma sampled_within_bounds_witness :
  Forall valid_float [float_of_nat 1; float_of_nat 3] /\
  exists xs,
    fst (np_random_uniform (series_min [float_of_nat 1; float_of_nat 3])
           (series_max [float_of_nat 1; float_of_nat 3]) 3
           (mkWorld words_counting trained_example)) = Ok xs /\
    Forall (within (series_min [float_of_nat 1; float_of_nat 3])
              (series_max [float_of_nat 1; float_of_nat 3])) xs.
Proof.
  assert (V : Forall valid_float [float_of_nat 1; float_of_nat 3]).
  { repeat (apply List.Forall_cons; [reflexivity|]). apply List.Forall_nil. }
  split; [exact V|].
  eexists. split; [vm_compute; reflexivity|].
  apply (sampled_within_bounds [float_of_nat 1; float_of_nat 3] 3
           (mkWorld words_counting trained_example) _ V).
  vm_compute. reflexivity.
Defined.

(* ===================================================================== *)
(** * Further properties of the code *)

(** ** What the loader accepts *)

Section LoaderAcceptance.

Variable parse_float : string -> float64.
Variable str_of_float : float64 -> string.

Lemma length_one {A} (l : list A) : length l = 1 <-> exists a, l = [a].
Proof.
  split.
  - destruct l as [|a [|b l]]; intros H; try discriminate H. now exists a.
  - intros [a ->]. reflexivity.
Qed.



End LoaderAcceptance.


(** ** The training subset *)

Lemma assign_rows_relabel (i : nat) (g : label -> cell) (rs : list row) :
  forall y0,
    mapM as_label (List.map (get i) rs) = Ok y0 ->
    List.Forall2
      (fun r r' => exists x, In x y0 /\ as_label (get i r) = Ok x /\
                             r' = update i (fun _ => g x) r)
      rs (assign_rows i (List.map g y0) rs).
Proof.
  induction rs as [|r rs IH]; intros y0 H.
  - constructor.
  - cbn [List.map mapM] in H. bind_inv H x Ex. bind_inv H ys Eys.
    inversion H; subst y0. cbn [List.map assign_rows]. constructor.
    + exists x. split; [now left|]. split; [assumption | reflexivity].
    + specialize (IH ys Eys).
      eapply List.Forall2_impl; [|exact IH].
      intros a b (z & Hz & Ha & Hb). exists z. split; [now right | now split].
Qed.

Lemma relabel_collapsed (y : list label) (x : label) :
  In x y -> relabel (rare_categories y) x = collapsed_label y x.
Proof.
  intros Hx. destruct x as [s|]; [|reflexivity].
  unfold relabel, collapsed_label. rewrite (in_index_rare _ _ Hx).
  rewrite Nat.ltb_antisym. now destruct (rare_threshold <=? count_label (Some s) y).
Qed.

Section TrainingSubset.

Variable col_mean : list float64 -> float64.
Variable col_scale : list float64 -> float64.

(** X3. The training subset [train_model] returns (the table of the
    download button) is the input without the records that lack an LSOA
    code or name, in the input's order and under the same column labels;
    of each record only the cell under [crime_type] is rewritten, to the
    collapsed label of what it held. *)
Theorem training_subset (df : DataFrame) (t : Trained) :
  train_model col_mean col_scale df = Ok t ->
  exists dfm0 ict y0,
    dropna ["lsoa_code"; "lsoa_name"] df = Ok dfm0 /\
    positions "crime_type" (columns df) = [ict] /\
    label_column "crime_type" dfm0 = Ok y0 /\
    columns (df_model t) = columns df /\
    List.Forall2
      (fun r r' => exists x, as_label (get ict r) = Ok x /\
                             r' = update ict (fun _ => cell_of_label (collapsed_label y0 x)) r)
      (rows dfm0) (rows (df_model t)).
Proof.
  intros H. apply train_model_inv in H.
  destruct H as (dfm0 & ict & y0 & y3 & y4 & y5 & lon & lat & y_enc & matrix & st & H).
  destruct H as (Ed & Eict & Ey0 & Em & _).
  assert (Ec : columns dfm0 = columns df).
  { unfold dropna in Ed. destruct (subset_positions _ df); [|discriminate].
    cbn [bind] in Ed. inversion Ed. reflexivity. }
  exists dfm0, ict, y0. split; [assumption|].
  split; [now rewrite <- Ec|].
  split; [unfold label_column, series_position; rewrite Eict; exact Ey0|].
  split; [rewrite Em; exact Ec|].
  rewrite Em. cbn [rows assign_column]. unfold collapse. rewrite map_map.
  eapply List.Forall2_impl; [|exact (assign_rows_relabel ict _ (rows dfm0) y0 Ey0)].
  intros r r' (x & Hx & Hr & ->). exists x. split; [assumption|].
  now rewrite (relabel_collapsed y0 x Hx).
Qed.

Lemma check_no_infinity (X : list (float64 * float64)) :
  StandardScaler.check X = Ok tt ->
  X <> [] /\ List.Forall (fun p => is_inf (fst p) = false /\ is_inf (snd p) = false) X.
Proof.
  unfold StandardScaler.check.
  destruct (existsb _ X) eqn:E; [discriminate|].
  intros H. split; [intros ->; discriminate H|].
  apply List.Forall_forall. intros p Hp.
  apply orb_false_iff.
  destruct (is_inf (fst p) || is_inf (snd p)) eqn:F; [|reflexivity].
  exfalso. assert (K : existsb (fun p => is_inf (fst p) || is_inf (snd p)) X = true).
  { apply existsb_exists. now exists p. }
  congruence.
Qed.

Lemma Forall_zip_fst {A B} (P : A -> Prop) (Q : B -> Prop) (a : list A) (b : list B) :
  length a = length b ->
  List.Forall (fun p => P (fst p) /\ Q (snd p)) (zip a b) ->
  List.Forall P a /\ List.Forall Q b.
Proof.
  revert b. induction a as [|x a IH]; intros [|y b] L H; simpl in *; try discriminate.
  - split; constructor.
  - inversion H; subst. destruct (IH b ltac:(lia) H3) as [Ha Hb].
    split; constructor; tauto.
Qed.

(** X4. [train_model] returns its objects only for a training subset that
    has a record and in which no longitude and no latitude is infinite:
    [StandardScaler.fit_transform] refuses the others. (The loader lets an
    infinite coordinate through.) *)
Theorem trained_coordinates (df : DataFrame) (t : Trained) :
  train_model col_mean col_scale df = Ok t ->
  exists lon lat,
    numeric_column "longitude" (df_model t) = Ok lon /\
    numeric_column "latitude" (df_model t) = Ok lat /\
    length lon = length (rows (df_model t)) /\
    length lat = length (rows (df_model t)) /\
    rows (df_model t) <> [] /\
    List.Forall (fun x => is_inf x = false) lon /\
    List.Forall (fun x => is_inf x = false) lat.
Proof.
  intros H. apply train_model_inv in H.
  destruct H as (dfm0 & ict & y0 & y3 & y4 & y5 & lon & lat & y_enc & matrix & st & H).
  destruct H as (_ & _ & _ & _ & _ & _ & _ & _ & _ & Hlon & Hlat & Hc & _).
  exists lon, lat. split; [assumption|]. split; [assumption|].
  assert (Llon : length lon = length (rows (df_model t))).
  { unfold numeric_column in Hlon.
    destruct (series_position ValueError "longitude" (df_model t)); [|discriminate].
    cbn [bind] in Hlon. apply mapM_length in Hlon. unfold column_at in Hlon.
    now rewrite length_map in Hlon. }
  assert (Llat : length lat = length (rows (df_model t))).
  { unfold numeric_column in Hlat.
    destruct (series_position ValueError "latitude" (df_model t)); [|discriminate].
    cbn [bind] in Hlat. apply mapM_length in Hlat. unfold column_at in Hlat.
    now rewrite length_map in Hlat. }
  split; [assumption|]. split; [assumption|].
  destruct (check_no_infinity _ Hc) as [Hne Hall].
  split.
  - intros N. rewrite N in Llon, Llat. destruct lon; [|discriminate]. now apply Hne.
  - apply (Forall_zip_fst (fun x => is_inf x = false) (fun x => is_inf x = false));
      [congruence | assumption].
Qed.

End TrainingSubset.

Lemma training_subset_witness :
  train_model plain_mean plain_scale cleaned_example = Ok trained_example /\
  exists dfm0 ict y0,
    dropna ["lsoa_code"; "lsoa_name"] cleaned_example = Ok dfm0 /\
    positions "crime_type" (columns cleaned_example) = [ict] /\
    label_column "crime_type" dfm0 = Ok y0 /\
    columns (df_model trained_example) = columns cleaned_example /\
    List.Forall2
      (fun r r' => exists x, as_label (get ict r) = Ok x /\
                             r' = update ict (fun _ => cell_of_label (collapsed_label y0 x)) r)
      (rows dfm0) (rows (df_model trained_example)).
Proof.
  assert (E : train_model plain_mean plain_scale cleaned_example = Ok trained_example)
    by (vm_compute; reflexivity).
  split; [exact E|].
  exact (training_subset plain_mean plain_scale cleaned_example trained_example E).
Defined.

Lemma trained_coordinates_witness :
  train_model plain_mean plain_scale cleaned_example = Ok trained_example /\
  exists lon lat,
    numeric_column "longitude" (df_model trained_example) = Ok lon /\
    numeric_column "latitude" (df_model trained_example) = Ok lat /\
    length lon = length (rows (df_model trained_example)) /\
    length lat = length (rows (df_model trained_example)) /\
    rows (df_model trained_example) <> [] /\
    List.Forall (fun x => is_inf x = false) lon /\
    List.Forall (fun x => is_inf x = false) lat.
Proof.
  assert (E : train_model plain_mean plain_scale cleaned_example = Ok trained_example)
    by (vm_compute; reflexivity).
  split; [exact E|].
  exact (trained_coordinates plain_mean plain_scale cleaned_example trained_example E).
Defined.

(** ** What the forecast can name *)

Lemma In_collapse (y : list label) (p : label) :
  In p (collapse y) ->
  (p = None /\ In None y) \/
  p = Some "Other" \/
  (exists s, p = Some s /\ In (Some s) y /\ rare_threshold <= count_label (Some s) y).
Proof.
  unfold collapse. intros H. apply in_map_iff in H. destruct H as [x [E Hx]].
  rewrite (relabel_collapsed y x Hx) in E. subst p.
  destruct x as [s|]; [|left; now split]. right. unfold collapsed_label.
  destruct (rare_threshold <=? count_label (Some s) y) eqn:C; [|now left].
  right. exists s. split; [reflexivity|]. split; [assumption|]. now apply Nat.leb_le.
Qed.

Lemma batch_member (y : list label) (ms : list nat) (batches : list (list future_row))
    (b : list future_row) (r : future_row) :
  List.Forall2 (batch_of y) ms batches -> In b batches -> In r b ->
  In (predicted_crime_type r) y.
Proof.
  intros F. induction F as [|m b' ms bs Hbo F IH]; intros Hb Hr; [contradiction|].
  destruct Hb as [->|Hb]; [|now apply IH].
  destruct Hbo as [_ Hall]. rewrite List.Forall_forall in Hall. now apply Hall.
Qed.

Section Forecast.

Variable col_mean : list float64 -> float64.
Variable col_scale : list float64 -> float64.
Variable vote : list (list float64) -> list nat -> list float64 -> nat.

(** X5. Whatever the forest votes and whatever the generator holds, a
    category the forecast names is ["Other"] or a crime type that at least
    1000 records of the training subset carry (or the missing value, when
    a training record has no crime type): a type with fewer records is
    never predicted under its own name. *)
Theorem predicted_categories (df : DataFrame) (t : Trained) (g : RandomState) :
  train_model col_mean col_scale df = Ok t ->
  exists dfm0 y0,
    dropna ["lsoa_code"; "lsoa_name"] df = Ok dfm0 /\
    label_column "crime_type" dfm0 = Ok y0 /\
    when_ok (fst (future_incidents vote (mkWorld g t)))
      (fun fut_df =>
         forall r, In r fut_df ->
           (predicted_crime_type r = None /\ In None y0) \/
           predicted_crime_type r = Some "Other" \/
           (exists s, predicted_crime_type r = Some s /\ In (Some s) y0 /\
                      rare_threshold <= count_label (Some s) y0)).
Proof.
  intros H. apply train_model_inv in H.
  destruct H as (dfm0 & ict & y0 & y3 & y4 & y5 & lon & lat & y_enc & matrix & st & H).
  destruct H as (Ed & Eict & Ey0 & _ & _ & H3 & H4 & H5 & He & _ & _ & _ & _ & Ht & Hy
                 & Hrf & Hm & Hl).
  exists dfm0, y0. split; [assumption|].
  split; [unfold label_column, series_position; rewrite Eict; exact Ey0|].
  assert (Hs : y_enc <> []).
  { intros ->. destruct matrix; [now apply Hm | discriminate Hl]. }
  pose proof (future_incidents_spec vote t y3 y4 y5 (collapse y0) y_enc matrix
                H3 H4 H5 He Ht Hy Hrf Hs (mkWorld g t) eq_refl) as F.
  destruct (fst (future_incidents vote (mkWorld g t))) as [fut|e]; cbn [when_ok]; [|exact I].
  destruct F as [batches [-> F]]. intros r Hr.
  apply in_concat in Hr. destruct Hr as [b [Hb Hr]].
  apply In_collapse. exact (batch_member _ _ _ _ _ F Hb Hr).
Qed.

End Forecast.

Lemma predicted_categories_witness :
  train_model plain_mean plain_scale cleaned_example = Ok trained_example /\
  exists dfm0 y0,
    dropna ["lsoa_code"; "lsoa_name"] cleaned_example = Ok dfm0 /\
    label_column "crime_type" dfm0 = Ok y0 /\
    when_ok (fst (future_incidents first_class (mkWorld words_zero trained_example)))
      (fun fut_df =>
         forall r, In r fut_df ->
           (predicted_crime_type r = None /\ In None y0) \/
           predicted_crime_type r = Some "Other" \/
           (exists s, predicted_crime_type r = Some s /\ In (Some s) y0 /\
                      rare_threshold <= count_label (Some s) y0)).
Proof.
  assert (E : train_model plain_mean plain_scale cleaned_example = Ok trained_example)
    by (vm_compute; reflexivity).
  split; [exact E|].
  exact (predicted_categories plain_mean plain_scale first_class cleaned_example
           trained_example words_zero E).
Defined.

(** ** Sorted sets are sorted *)

Section SortedOrder.

Context {A : Type}.
Variable cmp : A -> A -> comparison.
Hypothesis cmp_eq : forall a b, cmp a b = Eq <-> a = b.
Hypothesis cmp_antisym : forall a b, cmp b a = CompOpp (cmp a b).
Hypothesis cmp_trans : forall a b c, cmp a b = Lt -> cmp b c = Lt -> cmp a c = Lt.

Lemma insert_sorted_increasing (a : A) (l : list A) :
  StronglySorted (fun x y => cmp x y = Lt) l -> ~ In a l ->
  StronglySorted (fun x y => cmp x y = Lt) (insert_sorted cmp a l).
Proof.
  intros S. induction S as [|b l S IH F]; intros Hn.
  - repeat constructor.
  - cbn [insert_sorted]. rewrite List.Forall_forall in F.
    destruct (cmp a b) eqn:C.
    + exfalso. apply Hn. left. symmetry. now apply cmp_eq.
    + constructor; [now constructor; [|apply List.Forall_forall]|].
      constructor; [assumption|]. apply List.Forall_forall. intros x Hx.
      apply (cmp_trans a b x C). now apply F.
    + constructor.
      * apply IH. intros Ha. apply Hn. now right.
      * apply List.Forall_forall. intros x Hx.
        apply (proj1 (In_insert_sorted cmp a x l)) in Hx. destruct Hx as [->|Hx]; [|now apply F].
        rewrite (cmp_antisym a b), C. reflexivity.
Qed.

Lemma sort_increasing (l : list A) :
  List.NoDup l ->
  StronglySorted (fun x y => cmp x y = Lt) (fold_right (insert_sorted cmp) [] l).
Proof.
  induction 1 as [|a l Hn Hd IH]; cbn [fold_right]; [constructor|].
  apply insert_sorted_increasing; [assumption|].
  intros Ha. apply Hn. exact (proj1 (In_sort cmp a l) Ha).
Qed.

Lemma sorted_set_increasing (l : list A) :
  StronglySorted (fun x y => cmp x y = Lt) (sorted_set cmp l).
Proof. unfold sorted_set. apply sort_increasing. now apply NoDup_dedupe. Qed.

Lemma increasing_nth (l : list A) :
  StronglySorted (fun x y => cmp x y = Lt) l ->
  forall i j a b, nth_error l i = Some a -> nth_error l j = Some b ->
                  i < j -> cmp a b = Lt.
Proof.
  induction 1 as [|c l S IH F]; intros i j a b Hi Hj Hij.
  - destruct i; discriminate.
  - destruct j as [|j]; [lia|]. cbn [nth_error] in Hj.
    destruct i as [|i].
    + inversion Hi; subst c. rewrite List.Forall_forall in F. apply F.
      eapply nth_error_In; eassumption.
    + cbn [nth_error] in Hi. apply (IH i j a b Hi Hj). lia.
Qed.

(** In an increasing list the order of two positions is the order of what
    they hold. *)
Lemma increasing_positions (l : list A) (i j : nat) (a b : A) :
  StronglySorted (fun x y => cmp x y = Lt) l ->
  nth_error l i = Some a -> nth_error l j = Some b ->
  (i < j <-> cmp a b = Lt) /\ (i = j <-> a = b).
Proof.
  intros S Hi Hj.
  assert (Irr : forall x, cmp x x <> Lt).
  { intros x Hx. rewrite (proj2 (cmp_eq x x) eq_refl) in Hx. discriminate. }
  split; split.
  - exact (increasing_nth l S i j a b Hi Hj).
  - intros C. destruct (Nat.lt_trichotomy i j) as [L|[E|L]]; [assumption| |].
    + subst j. rewrite Hi in Hj. inversion Hj; subst b. now apply Irr in C.
    + pose proof (increasing_nth l S j i b a Hj Hi L) as C'.
      rewrite (cmp_antisym a b), C in C'. discriminate.
  - intros ->. rewrite Hi in Hj. now inversion Hj.
  - intros ->. destruct (Nat.lt_trichotomy i j) as [L|[E|L]]; [|assumption|].
    + now apply (increasing_nth l S i j b b Hi Hj), Irr in L.
    + now apply (increasing_nth l S j i b b Hj Hi), Irr in L.
Qed.

(** The first element a filter keeps is the least that passes. *)
Lemma increasing_filter_head (p : A -> bool) (l : list A) (v : A) (rest : list A) :
  StronglySorted (fun x y => cmp x y = Lt) l ->
  List.filter p l = v :: rest ->
  In v l /\ p v = true /\ forall s, In s l -> p s = true -> s = v \/ cmp v s = Lt.
Proof.
  induction 1 as [|c l S IH F]; intros H; [discriminate|].
  cbn [List.filter] in H. destruct (p c) eqn:Pc.
  - inversion H; subst c rest. split; [now left|]. split; [assumption|].
    intros s [->|Hs] _; [now left|]. right.
    rewrite List.Forall_forall in F. now apply F.
  - destruct (IH H) as (Hv & Pv & Hmin). split; [now right|]. split; [assumption|].
    intros s [->|Hs] Ps; [congruence|]. now apply Hmin.
Qed.

End SortedOrder.

Lemma string_compare_trans (a b c : string) :
  String.compare a b = Lt -> String.compare b c = Lt -> String.compare a c = Lt.
Proof.
  intros H1 H2.
  apply OrderedTypeEx.String_as_OT.cmp_lt in H1.
  apply OrderedTypeEx.String_as_OT.cmp_lt in H2.
  apply OrderedTypeEx.String_as_OT.cmp_lt.
  eapply OrderedTypeEx.String_as_OT.lt_trans; eassumption.
Qed.

Lemma texts_increasing (l : list string) :
  StronglySorted (fun x y => String.compare x y = Lt) (sorted_set String.compare l).
Proof.
  apply sorted_set_increasing.
  - exact string_compare_eq.
  - intros a b. apply String.compare_antisym.
  - exact string_compare_trans.
Qed.

(** ** The codes of a label encoder *)

Lemma label_compare_eq (a b : label) : label_compare a b = Eq <-> a = b.
Proof.
  destruct a as [s|], b as [t|]; simpl; split; intros H; try discriminate; try reflexivity.
  - f_equal. now apply string_compare_eq.
  - inversion H. now apply string_compare_eq.
Qed.

Lemma label_compare_antisym (a b : label) :
  label_compare b a = CompOpp (label_compare a b).
Proof.
  destruct a as [s|], b as [t|]; simpl; try reflexivity. apply String.compare_antisym.
Qed.

Lemma classes_increasing (y : list label) :
  StronglySorted (fun a b => label_compare a b = Lt) (LabelEncoder.unique y).
Proof.
  unfold LabelEncoder.unique.
  pose proof (texts_increasing (present y)) as S.
  induction S as [|s l S IH F]; cbn [List.map app].
  - destruct (existsb (label_eqb None) y); repeat constructor.
  - constructor; [assumption|].
    apply List.Forall_forall. intros x Hx. apply in_app_or in Hx.
    destruct Hx as [Hx|Hx].
    + apply in_map_iff in Hx. destruct Hx as [t [<- Ht]].
      rewrite List.Forall_forall in F. now apply F.
    + destruct (existsb (label_eqb None) y); [|contradiction].
      destruct Hx as [<-|[]]. reflexivity.
Qed.

Lemma transform_fitted (y z : list label) :
  LabelEncoder.transform z (snd (LabelEncoder.fit_transform y LabelEncoder.new))
  = (mapM (LabelEncoder.encode (LabelEncoder.unique y)) z,
     snd (LabelEncoder.fit_transform y LabelEncoder.new)).
Proof. reflexivity. Qed.

Lemma encode_Ok (classes : list label) (v : label) (i : nat) :
  LabelEncoder.encode classes v = Ok i -> nth_error classes i = Some v.
Proof.
  unfold LabelEncoder.encode.
  destruct (LabelEncoder.index_of v classes) as [k|] eqn:E; intros H; inversion H; subst.
  now apply LabelEncoderFacts.index_of_Some.
Qed.

(** X6. A fitted encoder numbers its classes in increasing order, texts in
    Python's order of strings and the missing value after them: of two
    labels it encodes, the smaller has the smaller code, and equal codes
    mean equal labels. *)
Theorem codes_follow_order (y : list label) (a b : label) (i j : nat) :
  fst (LabelEncoder.transform [a; b]
         (snd (LabelEncoder.fit_transform y LabelEncoder.new))) = Ok [i; j] ->
  (i < j <-> label_compare a b = Lt) /\ (i = j <-> a = b).
Proof.
  rewrite transform_fitted. cbn [fst mapM]. intros H.
  bind_inv H i' Ei. bind_inv H js Ej. bind_inv Ej j' Ej'.
  inversion Ej; subst js. inversion H; subst i' j'.
  apply encode_Ok in Ei, Ej'.
  exact (increasing_positions label_compare label_compare_eq label_compare_antisym
           (LabelEncoder.unique y) i j a b (classes_increasing y) Ei Ej').
Qed.

Lemma codes_follow_order_witness :
  fst (LabelEncoder.transform [Some "Theft"; None]
         (snd (LabelEncoder.fit_transform
                 [Some "Theft"; None; Some "Burglary"; Some "Theft"] LabelEncoder.new)))
  = Ok [1; 2] /\
  (1 < 2 <-> label_compare (Some "Theft") None = Lt) /\ (1 = 2 <-> Some "Theft" = None).
Proof.
  split; [reflexivity|].
  apply (codes_follow_order [Some "Theft"; None; Some "Burglary"; Some "Theft"]
           (Some "Theft") None 1 2).
  reflexivity.
Defined.

Lemma NoDup_map_Some {A} (l : list A) : List.NoDup l -> List.NoDup (List.map Some l).
Proof.
  induction 1 as [|a l Hn Hd IH]; cbn [List.map]; constructor; [|assumption].
  intros H. apply in_map_iff in H. destruct H as [b [E Hb]]. inversion E; subst. now apply Hn.
Qed.

Lemma NoDup_classes (y : list label) : List.NoDup (LabelEncoder.unique y).
Proof.
  unfold LabelEncoder.unique. apply List.NoDup_app.
  - apply NoDup_map_Some, NoDup_sorted_set. exact string_compare_eq.
  - destruct (existsb (label_eqb None) y); repeat constructor. intros [].
  - intros x Hx Hn. apply in_map_iff in Hx. destruct Hx as [s [<- _]].
    destruct (existsb (label_eqb None) y); [|contradiction].
    destruct Hn as [Hn|[]]. discriminate.
Qed.

Lemma index_of_nth (classes : list label) :
  List.NoDup classes ->
  forall i v, nth_error classes i = Some v -> LabelEncoder.index_of v classes = Some i.
Proof.
  induction 1 as [|c l Hn Hd IH]; intros i v Hi; [destruct i; discriminate|].
  cbn [LabelEncoder.index_of]. destruct i as [|i]; cbn [nth_error] in Hi.
  - inversion Hi; subst. now rewrite label_eqb_refl.
  - destruct (label_eqb v c) eqn:E.
    + apply label_eqb_eq in E. subst c. exfalso. apply Hn.
      eapply nth_error_In; eassumption.
    + now rewrite (IH i v Hi).
Qed.

Lemma decode_Ok (classes : list label) (i : nat) (v : label) :
  LabelEncoder.decode classes i = Ok v <-> nth_error classes i = Some v.
Proof.
  unfold LabelEncoder.decode. destruct (nth_error classes i); split; intros H;
    inversion H; reflexivity.
Qed.

Lemma decode_all (classes : list label) (codes : list nat) :
  List.NoDup classes ->
  (List.Forall (fun i => i < length classes) codes ->
   exists vs, mapM (LabelEncoder.decode classes) codes = Ok vs /\
              mapM (LabelEncoder.encode classes) vs = Ok codes) /\
  (~ List.Forall (fun i => i < length classes) codes ->
   mapM (LabelEncoder.decode classes) codes = Err UnseenLabel).
Proof.
  intros Hd. induction codes as [|i codes [IH1 IH2]].
  - split; [intros _; now exists [] | intros H; exfalso; apply H; constructor].
  - split.
    + intros H. inversion H; subst.
      destruct (IH1 ltac:(assumption)) as [vs [E1 E2]].
      destruct (nth_error classes i) as [v|] eqn:Ev;
        [|apply nth_error_None in Ev; lia].
      exists (v :: vs). cbn [mapM].
      rewrite (proj2 (decode_Ok classes i v) Ev). cbn [bind]. rewrite E1. cbn [bind].
      split; [reflexivity|].
      unfold LabelEncoder.encode at 1. rewrite (index_of_nth classes Hd i v Ev).
      cbn [bind]. now rewrite E2.
    + intros H. cbn [mapM]. unfold LabelEncoder.decode at 1.
      destruct (nth_error classes i) as [v|] eqn:Ev; [|reflexivity].
      cbn [bind]. rewrite IH2; [reflexivity|].
      intros F. apply H. constructor; [|assumption].
      apply nth_error_Some. congruence.
Qed.

(** X7. On a fitted encoder [inverse_transform] answers codes below the
    number of classes, and [transform] takes its answer back to the same
    codes; any other code makes [inverse_transform] raise the unseen-label
    [ValueError]. Neither call changes the encoder. *)
Theorem inverse_then_transform (y : list label) (codes : list nat) :
  (List.Forall (fun i => i < length (LabelEncoder.unique y)) codes ->
   exists vs,
     LabelEncoder.inverse_transform codes
       (snd (LabelEncoder.fit_transform y LabelEncoder.new))
     = (Ok vs, snd (LabelEncoder.fit_transform y LabelEncoder.new)) /\
     LabelEncoder.transform vs (snd (LabelEncoder.fit_transform y LabelEncoder.new))
     = (Ok codes, snd (LabelEncoder.fit_transform y LabelEncoder.new))) /\
  (~ List.Forall (fun i => i < length (LabelEncoder.unique y)) codes ->
   LabelEncoder.inverse_transform codes
     (snd (LabelEncoder.fit_transform y LabelEncoder.new))
   = (Err UnseenLabel, snd (LabelEncoder.fit_transform y LabelEncoder.new))).
Proof.
  destruct (decode_all (LabelEncoder.unique y) codes (NoDup_classes y)) as [D1 D2].
  split.
  - intros H. destruct (D1 H) as [vs [E1 E2]]. exists vs.
    rewrite transform_fitted, E2.
    unfold LabelEncoder.inverse_transform. cbn [LabelEncoder.fit_transform snd
      LabelEncoder.classes_]. now rewrite E1.
  - intros H. unfold LabelEncoder.inverse_transform.
    cbn [LabelEncoder.fit_transform snd LabelEncoder.classes_]. now rewrite (D2 H).
Qed.

(** ** The mode of a column *)

Lemma filter_map_comm {A B} (p : B -> bool) (f : A -> B) (l : list A) :
  List.filter p (List.map f l) = List.map f (List.filter (fun a => p (f a)) l).
Proof.
  induction l as [|a l IH]; [reflexivity|]. cbn [List.map List.filter].
  destruct (p (f a)); cbn [List.map]; now rewrite IH.
Qed.

Lemma mode_filter (y : list label) :
  mode y = List.filter (fun s => Nat.eqb (count_text s (present y)) (max_count y))
             (sorted_set String.compare (present y)).
Proof.
  unfold mode, value_counts. rewrite filter_map_comm, map_map. cbn [fst snd].
  apply map_id.
Qed.

Lemma max_count_bound (y : list label) (s : string) :
  In (Some s) y -> count_text s (present y) <= max_count y.
Proof.
  intros H. unfold max_count, value_counts. rewrite map_map. cbn [snd].
  apply In_present in H.
  apply (proj2 (In_sorted_set String.compare string_compare_eq s (present y))) in H.
  induction (sorted_set String.compare (present y)) as [|a l IH]; [contradiction|].
  cbn [List.map fold_right]. destruct H as [->|H]; [lia|]. specialize (IH H). lia.
Qed.

(** X8. [Series.mode()[0]], the value the forecast holds a label feature
    at: a text of the column that no text of the column outnumbers and,
    among the texts as frequent, the first in Python's order of strings. On
    a column with no text it is a [KeyError]. *)
Theorem mode0_spec (y : list label) :
  match mode0 y with
  | Ok v =>
      In (Some v) y /\
      forall s, In (Some s) y ->
        count_label (Some s) y <= count_label (Some v) y /\
        (count_label (Some s) y = count_label (Some v) y ->
         s = v \/ String.compare v s = Lt)
  | Err e => e = KeyError /\ forall s, ~ In (Some s) y
  end.
Proof.
  unfold mode0. rewrite mode_filter.
  destruct (List.filter _ (sorted_set String.compare (present y))) as [|v rest] eqn:E.
  - split; [reflexivity|]. intros s Hs.
    destruct (mode0_exists y s Hs) as [v Hv]. unfold mode0 in Hv.
    rewrite mode_filter, E in Hv. discriminate.
  - destruct (increasing_filter_head String.compare _ _ v rest
                (texts_increasing (present y)) E) as (Hv & Pv & Hmin).
    apply Nat.eqb_eq in Pv.
    apply (proj1 (In_sorted_set String.compare string_compare_eq v (present y))) in Hv.
    apply In_present in Hv. split; [assumption|].
    intros s Hs. rewrite !count_label_present, Pv.
    split; [now apply max_count_bound|].
    intros C. apply Hmin.
    + apply (proj2 (In_sorted_set String.compare string_compare_eq s (present y))).
      now apply In_present.
    + now apply Nat.eqb_eq.
Qed.

(** ** The extremes of a column *)

Lemma rank_finite (x : float64) : is_finite x = true -> rank x = scaled x.
Proof. destruct x as [s|s| |s m e]; try discriminate; reflexivity. Qed.

Lemma compare_rank (a b : float64) :
  valid_float a -> valid_float b -> is_nan a = false -> is_nan b = false ->
  SFcompare a b = Some (rank a ?= rank b)%Z.
Proof.
  intros Va Vb Na Nb.
  pose proof (value_le_largest a Va) as La. pose proof (value_le_largest b Vb) as Lb.
  destruct (is_finite a) eqn:Fa, (is_finite b) eqn:Fb.
  - rewrite (rank_finite a Fa), (rank_finite b Fb). now apply compare_value.
  - rewrite (rank_finite a Fa).
    destruct b as [sb|sb| |sb mb eb]; try discriminate.
    destruct a as [sa|sa| |sa ma ea]; try discriminate;
      cbn [SFcompare rank]; f_equal; symmetry;
      (destruct sb; [apply Z.compare_gt_iff | apply Z.compare_lt_iff]; lia).
  - rewrite (rank_finite b Fb).
    destruct a as [sa|sa| |sa ma ea]; try discriminate.
    destruct b as [sb|sb| |sb mb eb]; try discriminate;
      cbn [SFcompare rank]; f_equal; symmetry;
      (destruct sa; [apply Z.compare_lt_iff | apply Z.compare_gt_iff]; lia).
  - destruct a as [sa|sa| |sa ma ea]; try discriminate.
    destruct b as [sb|sb| |sb mb eb]; try discriminate.
    pose proof (mag_pos largest_mantissa 971 ltac:(lia)) as P.
    cbn [SFcompare rank]; f_equal; symmetry.
    destruct sa, sb; [apply Z.compare_refl | apply Z.compare_lt_iff | apply Z.compare_gt_iff
                      | apply Z.compare_refl]; lia.
Qed.

Lemma fleb_rank (a b : float64) :
  valid_float a -> valid_float b -> is_nan a = false -> is_nan b = false ->
  fleb a b = (rank a <=? rank b)%Z.
Proof.
  intros Va Vb Na Nb. unfold fleb, SFleb, Z.leb. rewrite (compare_rank a b Va Vb Na Nb).
  now destruct (rank a ?= rank b)%Z.
Qed.

Lemma fltb_rank (a b : float64) :
  valid_float a -> valid_float b -> is_nan a = false -> is_nan b = false ->
  fltb a b = (rank a <? rank b)%Z.
Proof.
  intros Va Vb Na Nb. unfold fltb, SFltb, Z.ltb. rewrite (compare_rank a b Va Vb Na Nb).
  now destruct (rank a ?= rank b)%Z.
Qed.

Lemma fold_fmin_least (l : list float64) :
  forall a, valid_float a -> List.Forall valid_float l ->
    (is_nan (fold_left fmin l a) = false ->
     (fold_left fmin l a = a \/ In (fold_left fmin l a) l) /\
     (is_nan a = false -> (rank (fold_left fmin l a) <= rank a)%Z) /\
     forall x, In x l -> is_nan x = false -> (rank (fold_left fmin l a) <= rank x)%Z) /\
    (is_nan (fold_left fmin l a) = true ->
     is_nan a = true /\ forall x, In x l -> is_nan x = true).
Proof.
  induction l as [|y l IH]; intros a Va Vl.
  - cbn [fold_left]. split.
    + intros _. split; [now left|]. split; [lia | contradiction].
    + intros H. split; [assumption | contradiction].
  - inversion Vl; subst. cbn [fold_left].
    assert (Vm : valid_float (fmin a y)).
    { destruct (fmin_cases a y) as [E|E]; now rewrite E. }
    destruct (IH (fmin a y) Vm ltac:(assumption)) as [I1 I2].
    set (r := fold_left fmin l (fmin a y)) in *.
    assert (M : (is_nan (fmin a y) = true -> is_nan a = true /\ is_nan y = true) /\
                (is_nan (fmin a y) = false ->
                 (is_nan a = false -> (rank (fmin a y) <= rank a)%Z) /\
                 (is_nan y = false -> (rank (fmin a y) <= rank y)%Z))).
    { unfold fmin. destruct (is_nan a) eqn:Na.
      - split; [tauto|]. intros _. split; [discriminate | lia].
      - destruct (is_nan y) eqn:Ny.
        + split; [congruence|]. intros _. split; [lia | discriminate].
        + rewrite (fltb_rank y a) by assumption.
          destruct (Z.ltb_spec (rank y) (rank a)); (split; [congruence|]);
            intros _; split; intros _; lia. }
    destruct M as [M1 M2]. split.
    + intros Nr. destruct (I1 Nr) as (Hin & Hacc & Hall).
      split; [|split].
      * destruct Hin as [E|Hin]; [|right; now right].
        rewrite E. destruct (fmin_cases a y) as [E'|E']; rewrite E'; [now left|].
        right. now left.
      * intros Na.
        assert (Nm : is_nan (fmin a y) = false).
        { destruct (is_nan (fmin a y)) eqn:K; [|reflexivity].
          destruct (M1 eq_refl). congruence. }
        specialize (Hacc Nm). destruct (M2 Nm) as [B1 _]. specialize (B1 Na). lia.
      * intros x [<-|Hx] Nx; [|now apply Hall].
        assert (Nm : is_nan (fmin a y) = false).
        { destruct (is_nan (fmin a y)) eqn:K; [|reflexivity].
          destruct (M1 eq_refl). congruence. }
        specialize (Hacc Nm). destruct (M2 Nm) as [_ B2]. specialize (B2 Nx). lia.
    + intros Nr. destruct (I2 Nr) as [Hm Hall]. destruct (M1 Hm) as [Na Ny].
      split; [assumption|]. intros x [<-|Hx]; [assumption | now apply Hall].
Qed.

Lemma fold_fmax_greatest (l : list float64) :
  forall a, valid_float a -> List.Forall valid_float l ->
    (is_nan (fold_left fmax l a) = false ->
     (fold_left fmax l a = a \/ In (fold_left fmax l a) l) /\
     (is_nan a = false -> (rank a <= rank (fold_left fmax l a))%Z) /\
     forall x, In x l -> is_nan x = false -> (rank x <= rank (fold_left fmax l a))%Z) /\
    (is_nan (fold_left fmax l a) = true ->
     is_nan a = true /\ forall x, In x l -> is_nan x = true).
Proof.
  induction l as [|y l IH]; intros a Va Vl.
  - cbn [fold_left]. split.
    + intros _. split; [now left|]. split; [lia | contradiction].
    + intros H. split; [assumption | contradiction].
  - inversion Vl; subst. cbn [fold_left].
    assert (Vm : valid_float (fmax a y)).
    { destruct (fmax_cases a y) as [E|E]; now rewrite E. }
    destruct (IH (fmax a y) Vm ltac:(assumption)) as [I1 I2].
    set (r := fold_left fmax l (fmax a y)) in *.
    assert (M : (is_nan (fmax a y) = true -> is_nan a = true /\ is_nan y = true) /\
                (is_nan (fmax a y) = false ->
                 (is_nan a = false -> (rank a <= rank (fmax a y))%Z) /\
                 (is_nan y = false -> (rank y <= rank (fmax a y))%Z))).
    { unfold fmax. destruct (is_nan a) eqn:Na.
      - split; [tauto|]. intros _. split; [discriminate | lia].
      - destruct (is_nan y) eqn:Ny.
        + split; [congruence|]. intros _. split; [lia | discriminate].
        + rewrite (fltb_rank a y) by assumption.
          destruct (Z.ltb_spec (rank a) (rank y)); (split; [congruence|]);
            intros _; split; intros _; lia. }
    destruct M as [M1 M2]. split.
    + intros Nr. destruct (I1 Nr) as (Hin & Hacc & Hall).
      split; [|split].
      * destruct Hin as [E|Hin]; [|right; now right].
        rewrite E. destruct (fmax_cases a y) as [E'|E']; rewrite E'; [now left|].
        right. now left.
      * intros Na.
        assert (Nm : is_nan (fmax a y) = false).
        { destruct (is_nan (fmax a y)) eqn:K; [|reflexivity].
          destruct (M1 eq_refl). congruence. }
        specialize (Hacc Nm). destruct (M2 Nm) as [B1 _]. specialize (B1 Na). lia.
      * intros x [<-|Hx] Nx; [|now apply Hall].
        assert (Nm : is_nan (fmax a y) = false).
        { destruct (is_nan (fmax a y)) eqn:K; [|reflexivity].
          destruct (M1 eq_refl). congruence. }
        specialize (Hacc Nm). destruct (M2 Nm) as [_ B2]. specialize (B2 Nx). lia.
    + intros Nr. destruct (I2 Nr) as [Hm Hall]. destruct (M1 Hm) as [Na Ny].
      split; [assumption|]. intros x [<-|Hx]; [assumption | now apply Hall].
Qed.

(** X9. [Series.min()] and [Series.max()] of a column of binary64 values,
    as lines 176 and 177 take them: when the column holds a value that is
    no NaN, both are values of the column and no NaN, and every value of
    the column that is no NaN lies between them. The box the forecast
    samples from encloses every training coordinate. *)
Theorem extremes_enclose (l : list float64) (x : float64) :
  List.Forall valid_float l -> In x l -> is_nan x = false ->
  In (series_min l) l /\ In (series_max l) l /\
  is_nan (series_min l) = false /\ is_nan (series_max l) = false /\
  forall z, In z l -> is_nan z = false -> within (series_min l) (series_max l) z.
Proof.
  intros Vl Hx Nx. unfold series_min, series_max.
  destruct (fold_fmin_least l nan eq_refl Vl) as [A1 A2].
  destruct (fold_fmax_greatest l nan eq_refl Vl) as [B1 B2].
  assert (Nmin : is_nan (fold_left fmin l nan) = false).
  { destruct (is_nan (fold_left fmin l nan)) eqn:K; [|reflexivity].
    destruct (A2 eq_refl) as [_ Hall]. rewrite (Hall x Hx) in Nx. discriminate. }
  assert (Nmax : is_nan (fold_left fmax l nan) = false).
  { destruct (is_nan (fold_left fmax l nan)) eqn:K; [|reflexivity].
    destruct (B2 eq_refl) as [_ Hall]. rewrite (Hall x Hx) in Nx. discriminate. }
  destruct (A1 Nmin) as (Imin & _ & Lmin). destruct (B1 Nmax) as (Imax & _ & Lmax).
  assert (Jmin : In (fold_left fmin l nan) l).
  { destruct Imin as [E|H]; [|assumption]. rewrite E in Nmin. discriminate. }
  assert (Jmax : In (fold_left fmax l nan) l).
  { destruct Imax as [E|H]; [|assumption]. rewrite E in Nmax. discriminate. }
  split; [assumption|]. split; [assumption|]. split; [assumption|]. split; [assumption|].
  intros z Hz Nz. rewrite List.Forall_forall in Vl. unfold within.
  rewrite (fleb_rank _ z) by auto. rewrite (fleb_rank z _) by auto.
  split; apply Z.leb_le; auto.
Qed.

Lemma extremes_enclose_witness :
  List.Forall valid_float [float_of_nat 3; nan; float_of_nat 1; S754_infinity false] /\
  In (float_of_nat 3) [float_of_nat 3; nan; float_of_nat 1; S754_infinity false] /\
  is_nan (float_of_nat 3) = false /\
  In (series_min [float_of_nat 3; nan; float_of_nat 1; S754_infinity false])
     [float_of_nat 3; nan; float_of_nat 1; S754_infinity false] /\
  In (series_max [float_of_nat 3; nan; float_of_nat 1; S754_infinity false])
     [float_of_nat 3; nan; float_of_nat 1; S754_infinity false] /\
  is_nan (series_min [float_of_nat 3; nan; float_of_nat 1; S754_infinity false]) = false /\
  is_nan (series_max [float_of_nat 3; nan; float_of_nat 1; S754_infinity false]) = false /\
  forall z, In z [float_of_nat 3; nan; float_of_nat 1; S754_infinity false] ->
            is_nan z = false ->
            within (series_min [float_of_nat 3; nan; float_of_nat 1; S754_infinity false])
                   (series_max [float_of_nat 3; nan; float_of_nat 1; S754_infinity false]) z.
Proof.
  assert (V : List.Forall valid_float
                [float_of_nat 3; nan; float_of_nat 1; S754_infinity false]).
  { repeat (apply List.Forall_cons; [reflexivity|]). apply List.Forall_nil. }
  split; [exact V|]. split; [now left|]. split; [reflexivity|].
  apply (extremes_enclose [float_of_nat 3; nan; float_of_nat 1; S754_infinity false]
           (float_of_nat 3) V); [now left | reflexivity].
Defined.

(** ** The chart of the most frequent LSOA names *)

Lemma count_text_cons (s a : string) (l : list string) :
  count_text s (a :: l) = (if String.eqb s a then 1 else 0) + count_text s l.
Proof. unfold count_text. cbn [List.filter]. now destruct (String.eqb s a). Qed.

Lemma total_counts (cats l : list string) :
  List.NoDup cats -> (forall a, In a l -> In a cats) ->
  total (List.map (fun s => count_text s l) cats) = length l.
Proof.
  intros Hd. induction l as [|a l IH]; intros Hin.
  - unfold count_text. cbn [List.filter length]. apply total_zero.
  - rewrite (map_ext _ (fun s => (if String.eqb a s then 1 else 0) + count_text s l)).
    + rewrite total_map_add, total_indicator by (assumption || (apply Hin; now left)).
      rewrite IH by (intros b Hb; apply Hin; now right). reflexivity.
    + intros s. rewrite count_text_cons. now rewrite (String.eqb_sym s a).
Qed.

(** [value_counts()] counts every record that has a value, once. *)
Lemma value_counts_total (y : list label) :
  total (List.map snd (value_counts y)) = length (present y).
Proof.
  unfold value_counts. rewrite map_map. cbn [snd]. apply total_counts.
  - apply NoDup_sorted_set. exact string_compare_eq.
  - intros a Ha. now apply (proj2 (In_sorted_set String.compare string_compare_eq a (present y))).
Qed.

Lemma value_counts_names (y : list label) : List.NoDup (List.map fst (value_counts y)).
Proof.
  unfold value_counts. rewrite map_map. cbn [fst]. rewrite map_id.
  apply NoDup_sorted_set. exact string_compare_eq.
Qed.

Lemma value_counts_entry (y : list label) (s : string) (n : nat) :
  In (s, n) (value_counts y) -> n = count_text s (present y).
Proof.
  unfold value_counts. intros H. apply in_map_iff in H.
  destruct H as [t [E _]]. now inversion E.
Qed.

Lemma total_permutation (a b : list nat) : Permutation a b -> total a = total b.
Proof.
  induction 1 as [|x a b P IH|x z a|a b c P1 IH1 P2 IH2]; unfold total in *;
    cbn [fold_right]; lia.
Qed.

Lemma total_replace (k : string) (v c : nat) (s : list (string * nat)) :
  List.NoDup (List.map fst s) -> In (k, c) s ->
  total (List.map snd (List.map (fun p => if String.eqb (fst p) k then (fst p, v) else p) s))
  + c = total (List.map snd s) + v.
Proof.
  induction s as [|[n x] s IH]; intros Hd Hin; [contradiction|].
  cbn [List.map fst snd] in *. inversion Hd; subst.
  unfold total in *. cbn [fold_right].
  destruct Hin as [E|Hin].
  - inversion E; subst n x. rewrite String.eqb_refl. cbn [snd].
    assert (K : List.map (fun p : string * nat => if String.eqb (fst p) k then (fst p, v) else p) s
                = s).
    { rewrite <- (map_id s) at 2. apply map_ext_in. intros [n x] Hp. cbn [fst].
      destruct (String.eqb n k) eqn:C; [|reflexivity].
      apply String.eqb_eq in C. subst n. exfalso. apply H1.
      apply in_map_iff. now exists (k, x). }
    rewrite K. lia.
  - destruct (String.eqb n k) eqn:C.
    + apply String.eqb_eq in C. subst n. exfalso. apply H1.
      apply in_map_iff. now exists (k, c).
    + cbn [snd]. specialize (IH H2 Hin). lia.
Qed.

(** X10. The bars of the chart of LSOA names, whatever order
    [value_counts()] gives names of equal count in. When no name among the
    first ten is ["Other"], a bar ["Other"] is added after them and the
    bars add up to the number of records that have an LSOA name. When one
    of the ten is an LSOA actually named ["Other"], no bar is added: that
    bar is overwritten with the count of the names beyond the tenth, and
    the records of that LSOA are missing from the sum. *)
Theorem top10_other_total (y : list label) (counts : list (string * nat)) :
  Permutation counts (value_counts y) ->
  (~ In "Other" (List.map fst (firstn 10 counts)) ->
   length (top10_other counts) = Nat.min 10 (length counts) + 1 /\
   total (List.map snd (top10_other counts)) = length (present y)) /\
  (In "Other" (List.map fst (firstn 10 counts)) ->
   length (top10_other counts) = Nat.min 10 (length counts) /\
   total (List.map snd (top10_other counts)) + count_text "Other" (present y)
   = length (present y)).
Proof.
  intros P.
  assert (T : total (List.map snd (firstn 10 counts)) + total (List.map snd (skipn 10 counts))
              = length (present y)).
  { rewrite <- total_app, <- map_app, firstn_skipn, <- value_counts_total.
    apply total_permutation. now apply Permutation_map. }
  assert (Hd : List.NoDup (List.map fst (firstn 10 counts))).
  { assert (D : List.NoDup (List.map fst counts)).
    { eapply Permutation_NoDup; [|apply (value_counts_names y)].
      apply Permutation_map. now symmetry. }
    rewrite <- (firstn_skipn 10 counts), map_app in D.
    now apply NoDup_app_remove_r in D. }
  unfold top10_other, set_item. split; intros H.
  - assert (E : existsb (fun p => String.eqb (fst p) "Other") (firstn 10 counts) = false).
    { apply not_true_is_false. intros K. apply existsb_exists in K.
      destruct K as [[n x] [Hp C]]. cbn [fst] in C. apply String.eqb_eq in C. subst n.
      apply H. apply in_map_iff. now exists ("Other", x). }
    rewrite E. split.
    + rewrite length_app, length_firstn. reflexivity.
    + rewrite map_app, total_app. cbn [List.map snd]. unfold total at 2. cbn [fold_right]. lia.
  - apply in_map_iff in H. destruct H as [[n c] [En Hp]]. cbn [fst] in En. subst n.
    assert (E : existsb (fun p => String.eqb (fst p) "Other") (firstn 10 counts) = true).
    { apply existsb_exists. exists ("Other", c). split; [assumption | reflexivity]. }
    rewrite E. split.
    + now rewrite length_map, length_firstn.
    + assert (Hc : c = count_text "Other" (present y)).
      { apply value_counts_entry. eapply Permutation_in; [exact P|].
        rewrite <- (firstn_skipn 10 counts). apply in_or_app. now left. }
      pose proof (total_replace "Other" (total (List.map snd (skipn 10 counts))) c
                    (firstn 10 counts) Hd Hp) as R.
      lia.
Qed.

Lemma top10_other_total_witness :
  Permutation (value_counts [Some "Hull 001A"; Some "Other"; None; Some "Hull 001A"])
              (value_counts [Some "Hull 001A"; Some "Other"; None; Some "Hull 001A"]) /\
  (~ In "Other"
        (List.map fst (firstn 10 (value_counts
                                    [Some "Hull 001A"; Some "Other"; None; Some "Hull 001A"]))) ->
   length (top10_other (value_counts [Some "Hull 001A"; Some "Other"; None; Some "Hull 001A"]))
   = Nat.min 10 (length (value_counts
                           [Some "Hull 001A"; Some "Other"; None; Some "Hull 001A"])) + 1 /\
   total (List.map snd (top10_other (value_counts
                                       [Some "Hull 001A"; Some "Other"; None; Some "Hull 001A"])))
   = length (present [Some "Hull 001A"; Some "Other"; None; Some "Hull 001A"])) /\
  (In "Other"
      (List.map fst (firstn 10 (value_counts
                                  [Some "Hull 001A"; Some "Other"; None; Some "Hull 001A"]))) ->
   length (top10_other (value_counts [Some "Hull 001A"; Some "Other"; None; Some "Hull 001A"]))
   = Nat.min 10 (length (value_counts
                           [Some "Hull 001A"; Some "Other"; None; Some "Hull 001A"])) /\
   total (List.map snd (top10_other (value_counts
                                       [Some "Hull 001A"; Some "Other"; None; Some "Hull 001A"])))
   + count_text "Other" (present [Some "Hull 001A"; Some "Other"; None; Some "Hull 001A"])
   = length (present [Some "Hull 001A"; Some "Other"; None; Some "Hull 001A"])).
Proof.
  split; [reflexivity|].
  apply (top10_other_total [Some "Hull 001A"; Some "Other"; None; Some "Hull 001A"]).
  reflexivity.
Defined.

(** ** The words the forecast takes from the generator *)

Lemma fill_state (n : nat) (low range : float64) (g : RandomState) :
  words (snd (fill n low range g)) = words g /\
  drawn (snd (fill n low range g)) = (drawn g + 2 * N.of_nat n)%N.
Proof.
  revert g. induction n as [|n IH]; intros g.
  - cbn [fill snd]. split; [reflexivity | lia].
  - cbn [fill]. unfold next_double, next_uint32.
    set (g2 := mkRandomState (words (mkRandomState (words g) (N.succ (drawn g))))
                 (N.succ (drawn (mkRandomState (words g) (N.succ (drawn g)))))).
    destruct (IH g2) as [W D].
    destruct (fill n low range g2) as [xs g3]. cbn [snd] in *.
    rewrite W, D. unfold g2. cbn [words drawn]. split; [reflexivity | lia].
Qed.

Lemma draws_np_random_uniform (low high : float64) (n : nat) :
  draws (2 * N.of_nat n) (np_random_uniform low high n).
Proof.
  intros w. unfold np_random_uniform, uniform.
  destruct (is_finite (fsub high low)); [|exact I].
  pose proof (fill_state n low (fsub high low) (np_random w)) as F.
  destruct (fill n low (fsub high low) (np_random w)) as [xs g']. exact F.
Qed.

Lemma draws_ret {A} (a : A) : draws 0 (ret a).
Proof. intros w. cbn. split; [reflexivity | lia]. Qed.

Lemma draws_lift {A} (r : result A) : draws 0 (lift r).
Proof. intros w. unfold lift. cbn [fst snd]. destruct r; cbn; [split; [reflexivity | lia] | exact I]. Qed.

Lemma draws_bindM {A B} (j k : N) (m : M A) (f : A -> M B) :
  draws j m -> (forall a, draws k (f a)) -> draws (j + k) (bindM m f).
Proof.
  intros Hm Hf w. unfold bindM. specialize (Hm w).
  destruct (m w) as [[a|e] w1]; cbn [fst snd when_ok] in *; [|exact I].
  specialize (Hf a w1). destruct (f a w1) as [[b|e] w2]; cbn [fst snd when_ok] in *; [|exact I].
  destruct Hm as [W1 D1], Hf as [W2 D2]. split; [congruence | lia].
Qed.

Lemma draws_same_generator {A} (m : M A) :
  (forall w, np_random (snd (m w)) = np_random w) -> draws 0 m.
Proof.
  intros H w. destruct (fst (m w)); cbn [when_ok]; [|exact I].
  rewrite H. split; [reflexivity | lia].
Qed.

Lemma draws_encoder_transform (col : string) (y : list label) :
  draws 0 (encoder_transform col y).
Proof.
  apply draws_same_generator. intros w. unfold encoder_transform.
  destruct (label_encoders (trained w) !! col) as [le|]; [|reflexivity].
  now destruct (LabelEncoder.transform y le).
Qed.

Lemma draws_mode_codes (col : string) : draws 0 (mode_codes col).
Proof.
  intros w. unfold mode_codes.
  exact (draws_bindM 0 0 _ _ (draws_lift _)
           (fun y => draws_bindM 0 0 _ _ (draws_lift _)
                       (fun v => draws_encoder_transform col _)) w).
Qed.

Section ForecastDraws.

Variable vote : list (list float64) -> list nat -> list float64 -> nat.

Lemma draws_scaler_transform (X : list (float64 * float64)) : draws 0 (scaler_transform X).
Proof.
  apply draws_same_generator. intros w. unfold scaler_transform.
  now destruct (StandardScaler.transform X (scaler (trained w))).
Qed.

Lemma draws_rf_predict (X : list (list float64)) : draws 0 (rf_predict vote X).
Proof.
  apply draws_same_generator. intros w. unfold rf_predict.
  now destruct (RandomForest.predict vote X (rf (trained w))).
Qed.

Lemma draws_target_inverse_transform (codes : list nat) :
  draws 0 (target_inverse_transform codes).
Proof.
  apply draws_same_generator. intros w. unfold target_inverse_transform.
  now destruct (LabelEncoder.inverse_transform codes (le_target (trained w))).
Qed.

Lemma draws_period (a b c d : float64) (m : nat) :
  draws (4 * N.of_nat batch_size) (period vote a b c d m).
Proof.
  unfold period.
  replace (4 * N.of_nat batch_size)%N
    with (2 * N.of_nat batch_size + (2 * N.of_nat batch_size
          + (0 + (0 + (0 + (0 + (0 + (0 + (0 + 0)))))))))%N by lia.
  apply draws_bindM; [apply draws_np_random_uniform|]. intros lons.
  apply draws_bindM; [apply draws_np_random_uniform|]. intros lats.
  apply draws_bindM; [apply draws_mode_codes|]. intros rb.
  apply draws_bindM; [apply draws_mode_codes|]. intros fw.
  apply draws_bindM; [apply draws_mode_codes|]. intros loc.
  apply draws_bindM; [apply draws_lift|]. intros _.
  apply draws_bindM; [apply draws_scaler_transform|]. intros xy.
  apply draws_bindM; [apply draws_rf_predict|]. intros preds.
  apply draws_bindM; [apply draws_target_inverse_transform|]. intros predicted.
  apply draws_ret.
Qed.

Lemma draws_period_loop (a b c d : float64) (months : list nat) :
  forall acc,
    draws (4 * N.of_nat batch_size * N.of_nat (length months))
      (period_loop vote a b c d months acc).
Proof.
  induction months as [|m months IH]; intros acc; cbn [period_loop length].
  - replace (4 * N.of_nat batch_size * N.of_nat 0)%N with 0%N by lia. apply draws_ret.
  - replace (4 * N.of_nat batch_size * N.of_nat (S (length months)))%N
      with (4 * N.of_nat batch_size
            + 4 * N.of_nat batch_size * N.of_nat (length months))%N by lia.
    apply draws_bindM; [apply draws_period|]. intros df_f. apply IH.
Qed.

(** X11. A forecast that returns has taken 120000 words from numpy's
    generator, the next ones in their order: four words for each of the
    5000 records of each of the six periods (two for a longitude, two for a
    latitude), none skipped and none taken twice; the sequence the words
    come from is never replaced (the generator is not seeded again). *)
Theorem forecast_draws : draws 120000 (future_incidents vote).
Proof.
  intros w. unfold future_incidents.
  change 120000%N with (0 + (0 + (4 * N.of_nat batch_size * N.of_nat (length (seq 1 6)) + 0)))%N.
  apply draws_bindM; [apply draws_lift|]. intros lon.
  apply draws_bindM; [apply draws_lift|]. intros lat.
  apply draws_bindM; [apply draws_period_loop|]. intros fl.
  apply draws_ret.
Qed.

End ForecastDraws.

(** ** The record [drop_duplicates] keeps *)

Lemma SFcompare_Eq (x y : float64) :
  SFcompare x y = Some Eq ->
  match x, y with
  | S754_zero _, S754_zero _ => True
  | S754_infinity s, S754_infinity s' => s = s'
  | S754_finite s m e, S754_finite s' m' e' => s = s' /\ m = m' /\ e = e'
  | _, _ => False
  end.
Proof.
  destruct x as [sx|sx| |sx mx ex], y as [sy|sy| |sy my ey]; cbn [SFcompare];
    intros H; try discriminate H; try exact I;
    try (destruct sx; discriminate H); try (destruct sy; discriminate H).
  - destruct sx, sy; try discriminate H; reflexivity.
  - destruct sx, sy; try discriminate H;
      (destruct (Z.compare_spec ex ey) as [E|E|E]; try discriminate H;
       change (Pos.compare_cont Eq mx my) with (Pos.compare mx my) in H;
       destruct (Pos.compare_spec mx my) as [M|M|M]; try discriminate H;
       subst; repeat split; reflexivity).
Qed.

Lemma feqb_trans (x y z : float64) : feqb x y = true -> feqb y z = true -> feqb x z = true.
Proof.
  unfold feqb, SFeqb.
  destruct (SFcompare x y) as [[]|] eqn:E1; try discriminate.
  destruct (SFcompare y z) as [[]|] eqn:E2; try discriminate.
  intros _ _. apply SFcompare_Eq in E1, E2.
  destruct x as [sx|sx| |sx mx ex], y as [sy|sy| |sy my ey], z as [sz|sz| |sz mz ez];
    try contradiction; try reflexivity.
  - subst. cbn [SFcompare]. now destruct sz.
  - destruct E1 as (-> & -> & ->), E2 as (-> & -> & ->).
    cbn [SFcompare]. rewrite Z.compare_refl.
    change (Pos.compare_cont Eq mz mz) with (Pos.compare mz mz). rewrite Pos.compare_refl.
    now destruct sz.
Qed.

Lemma feqb_not_nan (x y : float64) : feqb x y = true -> is_nan x = false /\ is_nan y = false.
Proof.
  unfold feqb, SFeqb. destruct x, y; cbn [SFcompare is_nan]; intros H;
    try discriminate H; now split.
Qed.

Lemma cell_eqb_trans (a b c : cell) :
  cell_eqb a b = true -> cell_eqb b c = true -> cell_eqb a c = true.
Proof.
  destruct a as [s|x], b as [t|y], c as [u|z]; cbn [cell_eqb]; try discriminate.
  - intros H1 H2. apply String.eqb_eq in H1, H2. subst. apply String.eqb_refl.
  - intros H1 H2. apply orb_true_iff in H1, H2. apply orb_true_iff.
    destruct H1 as [H1|H1], H2 as [H2|H2].
    + left. eapply feqb_trans; eassumption.
    + apply feqb_not_nan in H1. apply andb_true_iff in H2. destruct H1, H2. congruence.
    + apply feqb_not_nan in H2. apply andb_true_iff in H1. destruct H1, H2. congruence.
    + right. apply andb_true_iff in H1, H2. apply andb_true_iff. tauto.
Qed.

Lemma key_eqb_trans (a : list cell) :
  forall b c, key_eqb a b = true -> key_eqb b c = true -> key_eqb a c = true.
Proof.
  induction a as [|x a IH]; intros [|y b] [|z c]; cbn [key_eqb]; try discriminate; auto.
  intros H1 H2. apply andb_true_iff in H1, H2. apply andb_true_iff.
  destruct H1, H2. split; [eapply cell_eqb_trans | eapply IH]; eassumption.
Qed.

(** Of the rows that share a key, [keep_first] keeps the first. *)
Lemma keep_first_find (key : row -> list cell) (k : list cell) (rs : list row) :
  forall seen,
    (forall s, In s seen -> key_eqb k s = false) ->
    List.find (fun q => key_eqb (key q) k) (keep_first key seen rs)
    = List.find (fun q => key_eqb (key q) k) rs.
Proof.
  induction rs as [|r rs IH]; intros seen Hs; [reflexivity|].
  cbn [keep_first List.find].
  destruct (existsb (key_eqb (key r)) seen) eqn:E.
  - apply existsb_exists in E. destruct E as [s [Hin Hks]].
    destruct (key_eqb (key r) k) eqn:C; [|now apply IH].
    exfalso. rewrite key_eqb_sym in C.
    pose proof (key_eqb_trans k (key r) s C Hks) as K.
    rewrite (Hs s Hin) in K. discriminate.
  - cbn [List.find]. destruct (key_eqb (key r) k) eqn:C; [reflexivity|].
    apply IH. intros s [<-|Hin]; [now rewrite key_eqb_sym | now apply Hs].
Qed.

Section FirstRecord.

Variable parse_float : string -> float64.
Variable str_of_float : float64 -> string.

(** X12. Of the records that share an identifier the loader keeps the
    first one that has its identifier, crime type and coordinates: for
    every identifier, looking it up in the cleaned table finds the same
    record as looking it up among the complete records of the input, taken
    in the input's order after lines 35 to 37 rewrote them. *)
Theorem first_record_wins (raw df : DataFrame) (k : list cell) :
  clean parse_float str_of_float raw = Ok df ->
  exists ilon ilat iloc,
    positions "longitude" (columns df) = [ilon] /\
    positions "latitude" (columns df) = [ilat] /\
    positions "location" (columns df) = [iloc] /\
    List.find (fun r => key_eqb (identifier df r) k) (rows df)
    = List.find (fun r => key_eqb (identifier df r) k)
        (List.filter (complete (required_positions (columns df)))
           (List.map (coerce_row parse_float str_of_float ilon ilat iloc) (rows raw))).
Proof.
  intros H. apply clean_inv in H.
  destruct H as (ilon & ilat & iloc & E1 & E2 & E3 & _ & _ & ->).
  exists ilon, ilat, iloc. cbn [columns rows].
  split; [assumption|]. split; [assumption|]. split; [assumption|].
  unfold clean_rows, identifier, id_positions. cbn [columns List.map concat].
  rewrite app_nil_r. apply keep_first_find. intros s [].
Qed.

End FirstRecord.

Lemma first_record_wins_witness :
  clean parse_whole str_class raw_example = Ok cleaned_example /\
  exists ilon ilat iloc,
    positions "longitude" (columns cleaned_example) = [ilon] /\
    positions "latitude" (columns cleaned_example) = [ilat] /\
    positions "location" (columns cleaned_example) = [iloc] /\
    List.find (fun r => key_eqb (identifier cleaned_example r) [CStr "a1"])
      (rows cleaned_example)
    = List.find (fun r => key_eqb (identifier cleaned_example r) [CStr "a1"])
        (List.filter (complete (required_positions (columns cleaned_example)))
           (List.map (coerce_row parse_whole str_class ilon ilat iloc) (rows raw_example))).
Proof.
  assert (E : clean parse_whole str_class raw_example = Ok cleaned_example)
    by (vm_compute; reflexivity).
  split; [exact E|].
  exact (first_record_wins parse_whole str_class raw_example cleaned_example [CStr "a1"] E).
Defined.

(** ** The member of the archive that is read *)

Lemma zip_open_In (name : string) (zf : ZipFile) :
  In name (namelist zf) -> exists content, zip_open name zf = Some content.
Proof.
  induction zf as [|[n c] zf IH]; intros H; [contradiction|].
  cbn [zip_open]. destruct (zip_open name zf) as [later|] eqn:E; [now exists later|].
  destruct H as [H|H].
  - cbn [fst] in H. subst n. rewrite String.eqb_refl. now exists c.
  - destruct (IH H) as [x Hx]. discriminate.
Qed.

Lemma zip_open_filter (p : string -> bool) (name : string) (zf : ZipFile) :
  p name = true ->
  zip_open name (List.filter (fun e => p (fst e)) zf) = zip_open name zf.
Proof.
  intros Hp. induction zf as [|[n c] zf IH]; [reflexivity|].
  cbn [List.filter fst zip_open]. destruct (p n) eqn:Pn.
  - cbn [zip_open]. now rewrite IH.
  - rewrite IH. destruct (zip_open name zf); [reflexivity|].
    destruct (String.eqb n name) eqn:E; [|reflexivity].
    apply String.eqb_eq in E. congruence.
Qed.

Lemma namelist_filter (p : string -> bool) (zf : ZipFile) :
  namelist (List.filter (fun e => p (fst e)) zf) = List.filter p (namelist zf).
Proof.
  unfold namelist. induction zf as [|[n c] zf IH]; [reflexivity|].
  cbn [List.filter List.map fst]. destruct (p n); cbn [List.map fst]; now rewrite IH.
Qed.

Lemma filter_twice {A} (p : A -> bool) (l : list A) :
  List.filter p (List.filter p l) = List.filter p l.
Proof.
  induction l as [|a l IH]; [reflexivity|]. cbn [List.filter].
  destruct (p a) eqn:E; cbn [List.filter]; [rewrite E|]; now rewrite IH.
Qed.

Section ArchiveFacts.

Variable read_csv : string -> result DataFrame.
Variable parse_float : string -> float64.
Variable str_of_float : float64 -> string.


End ArchiveFacts.

(** ** How a forecast can fail *)

Section ForecastFailures.

Variable vote : list (list float64) -> list nat -> list float64 -> nat.
Variable t : Trained.
Variables y3 y4 y5 y : list label.
Variable y_enc : list nat.
Variable matrix : list (list float64).
Variable st : (float64 * float64) * (float64 * float64).

Hypothesis H3 : label_column "reported_by" (df_model t) = Ok y3.
Hypothesis H4 : label_column "falls_within" (df_model t) = Ok y4.
Hypothesis H5 : label_column "last_outcome_category" (df_model t) = Ok y5.
Hypothesis Hencoders :
  label_encoders t =
    <["last_outcome_category" := LabelEncoder.mk (Some (LabelEncoder.unique y5))]>
      (<["falls_within" := LabelEncoder.mk (Some (LabelEncoder.unique y4))]>
         (<["reported_by" := LabelEncoder.mk (Some (LabelEncoder.unique y3))]> empty)).
Hypothesis Htarget : le_target t = LabelEncoder.mk (Some (LabelEncoder.unique y)).
Hypothesis Hy_enc : mapM (LabelEncoder.encode (LabelEncoder.unique y)) y = Ok y_enc.
Hypothesis Hrf : rf t = RandomForest.mk (Some (sorted_set Nat.compare y_enc, (matrix, y_enc))).
Hypothesis Hsamples : y_enc <> [].
Hypothesis Hscaler : scaler t = StandardScaler.mk (Some st).

Lemma scaler_transform_failure (X : list (float64 * float64)) (w : World) :
  trained w = t -> X <> [] ->
  match fst (scaler_transform X w) with
  | Ok xy => length xy = length X
  | Err e => e = NonFinite
  end.
Proof.
  intros Hw Hx. unfold scaler_transform, StandardScaler.transform.
  rewrite Hw, Hscaler. cbn [StandardScaler.fitted]. unfold StandardScaler.check.
  destruct (existsb _ X); [reflexivity|].
  destruct X; [contradiction|]. cbn [fst]. now rewrite length_map.
Qed.

Lemma rf_predict_failure (X : list (list float64)) (w : World) :
  trained w = t -> X <> [] ->
  match fst (rf_predict vote X w) with
  | Ok preds =>
      length preds = length X /\
      List.Forall (fun c => In c (sorted_set Nat.compare y_enc)) preds
  | Err e => e = NonFinite
  end.
Proof.
  intros Hw Hx.
  pose proof (rf_predict_spec vote t y y_enc matrix Hy_enc Hrf Hsamples X w Hw) as S.
  unfold rf_predict, RandomForest.predict in *. rewrite Hw, Hrf in *.
  cbn [RandomForest.fitted] in *. unfold RandomForest.check in *.
  destruct (forallb (forallb is_finite) X); [|reflexivity].
  destruct X; [contradiction|]. exact S.
Qed.

Lemma mode_codes_failure (col : string) (ycol : list label) (w : World) :
  trained w = t -> In col label_features ->
  label_column col (df_model t) = Ok ycol ->
  label_encoders t !! col = Some (LabelEncoder.mk (Some (LabelEncoder.unique ycol))) ->
  snd (mode_codes col w) = w /\
  match fst (mode_codes col w) with
  | Ok codes => length codes = batch_size
  | Err e => forecast_failure (df_model t) e
  end.
Proof.
  intros Hw Hc Hy Hle.
  pose proof Hy as Hy'. pose proof Hle as Hle'. rewrite <- Hw in Hy', Hle'.
  destruct (mode_codes_spec col w ycol Hy' Hle') as [S M]. split; [assumption|].
  destruct (mode0 ycol) as [v|e] eqn:Ev.
  - destruct M as [i [_ ->]]. apply repeat_length.
  - rewrite M. right. left. split; [reflexivity|].
    exists col, ycol. split; [assumption|]. split; [assumption|].
    intros s Hs. destruct (mode0_exists ycol s Hs) as [v Hv]. congruence.
Qed.

Lemma build_matrix_rows (xy : list (float64 * float64)) (rb fw loc : list nat) :
  length xy = batch_size -> length rb = batch_size -> length fw = batch_size ->
  length loc = batch_size -> build_matrix xy rb fw loc <> [].
Proof.
  intros L1 L2 L3 L4 E.
  pose proof (length_build_matrix batch_size xy rb fw loc L1 L2 L3 L4) as L.
  rewrite E in L. discriminate L.
Qed.

Lemma period_failure (a b c d : float64) (m : nat) (w : World) :
  trained w = t ->
  match fst (period vote a b c d m w) with
  | Ok _ => True
  | Err e => forecast_failure (df_model t) e
  end.
Proof.
  intros Hw. unfold period, bindM.
  destruct (np_random_uniform_spec a b batch_size w) as [K1 S1].
  destruct (np_random_uniform a b batch_size w) as [[lons|e] w1]; cbn [fst snd] in *;
    [|now left].
  rewrite Hw in K1.
  destruct (np_random_uniform_spec c d batch_size w1) as [K2 S2].
  destruct (np_random_uniform c d batch_size w1) as [[lats|e] w2]; cbn [fst snd] in *;
    [|now left].
  rewrite K1 in K2.
  destruct (mode_codes_failure "reported_by" y3 w2 K2 ltac:(simpl; tauto) H3
              (lookup_reported_by t y3 y4 y5 Hencoders)) as [W3 M3].
  destruct (mode_codes "reported_by" w2) as [[rb|e] w3]; cbn [fst snd] in *; [|assumption].
  subst w3.
  destruct (mode_codes_failure "falls_within" y4 w2 K2 ltac:(simpl; tauto) H4
              (lookup_falls_within t y3 y4 y5 Hencoders)) as [W4 M4].
  destruct (mode_codes "falls_within" w2) as [[fw|e] w4]; cbn [fst snd] in *; [|assumption].
  subst w4.
  destruct (mode_codes_failure "last_outcome_category" y5 w2 K2 ltac:(simpl; tauto) H5
              (lookup_last_outcome_category t y3 y4 y5 Hencoders)) as [W5 M5].
  destruct (mode_codes "last_outcome_category" w2) as [[loc|e] w5]; cbn [fst snd] in *;
    [|assumption].
  subst w5. unfold lift.
  assert (SL : same_length (length lons) [length lats; length rb; length fw; length loc]
               = Ok tt).
  { unfold same_length. rewrite S1, S2, M3, M4, M5. cbn [forallb].
    now rewrite Nat.eqb_refl. }
  rewrite SL.
  assert (Lz : length (zip lons lats) = batch_size) by (rewrite length_zip; congruence).
  assert (Nz : zip lons lats <> []).
  { intros E. rewrite E in Lz. discriminate Lz. }
  pose proof (scaler_transform_failure (zip lons lats) w2 K2 Nz) as SS.
  pose proof (keeps_scaler_transform (zip lons lats) w2) as KS.
  destruct (scaler_transform (zip lons lats) w2) as [[xy|e] w6]; cbn [fst snd] in *;
    [|now right; right].
  rewrite K2 in KS. rewrite Lz in SS.
  pose proof (rf_predict_failure (build_matrix xy rb fw loc) w6 KS
                (build_matrix_rows xy rb fw loc SS M3 M4 M5)) as SP.
  pose proof (keeps_rf_predict vote (build_matrix xy rb fw loc) w6) as KP.
  destruct (rf_predict vote (build_matrix xy rb fw loc) w6) as [[preds|e] w7];
    cbn [fst snd] in *; [|now right; right].
  rewrite KS in KP. destruct SP as [LP FP].
  destruct (target_inverse_transform_spec t y y_enc Htarget Hy_enc preds w7 KP FP)
    as [labels [EL _]].
  destruct (target_inverse_transform preds w7) as [[labels'|e] w8]; cbn [fst snd] in *;
    [exact I | discriminate].
Qed.

Lemma period_loop_failure (a b c d : float64) (months : list nat) :
  forall acc w,
    trained w = t ->
    match fst (period_loop vote a b c d months acc w) with
    | Ok _ => True
    | Err e => forecast_failure (df_model t) e
    end.
Proof.
  induction months as [|m months IH]; intros acc w Hw; [exact I|].
  cbn [period_loop]. unfold bindM.
  pose proof (period_failure a b c d m w Hw) as P.
  pose proof (keeps_period vote a b c d m w) as K.
  destruct (period vote a b c d m w) as [[batch|e] w1]; cbn [fst snd] in *; [|assumption].
  apply IH. congruence.
Qed.

End ForecastFailures.

Section ForecastFailure.

Variable col_mean : list float64 -> float64.
Variable col_scale : list float64 -> float64.
Variable vote : list (list float64) -> list nat -> list float64 -> nat.

(** X14. Once [train_model] has returned, the forecast can raise in three
    ways only: numpy's [OverflowError], when the range of a bounding box
    is not finite; a [KeyError] from [mode()[0]], when one of the three
    label features has no value in the whole training subset; and the
    [ValueError] of scikit-learn for a matrix that holds an infinity or a
    NaN. It raises no other exception, whatever the forest votes and the
    generator holds. *)
Theorem forecast_failures (df : DataFrame) (t : Trained) (g : RandomState) (e : exn) :
  train_model col_mean col_scale df = Ok t ->
  fst (future_incidents vote (mkWorld g t)) = Err e ->
  forecast_failure (df_model t) e.
Proof.
  intros H. apply train_model_inv in H.
  destruct H as (dfm0 & ict & y0 & y3 & y4 & y5 & lon & lat & y_enc & matrix & st & H).
  destruct H as (_ & _ & _ & _ & _ & H3 & H4 & H5 & He & Hlon & Hlat & _ & Hs & Ht & Hy
                 & Hrf & Hm & Hl).
  assert (Hne : y_enc <> []).
  { intros ->. destruct matrix; [now apply Hm | discriminate Hl]. }
  unfold future_incidents, bindM, lift. cbn [trained]. rewrite Hlon, Hlat.
  pose proof (period_loop_failure vote t y3 y4 y5 (collapse y0) y_enc matrix st
                H3 H4 H5 He Ht Hy Hrf Hne Hs
                (series_min lon) (series_max lon) (series_min lat) (series_max lat)
                (seq 1 6) [] (mkWorld g t) eq_refl) as P.
  destruct (period_loop vote _ _ _ _ (seq 1 6) [] (mkWorld g t)) as [[fl|e'] w1];
    cbn [fst snd] in *; [discriminate|].
  intros E. inversion E; subst e'. exact P.
Qed.

End ForecastFailure.

(** ** The coordinates [main] trains on *)

Lemma Forall2_In_r {A B} (R : A -> B -> Prop) (l : list A) (l' : list B) (b : B) :
  List.Forall2 R l l' -> In b l' -> exists a, In a l /\ R a b.
Proof.
  induction 1 as [|a b' l l' Hab F IH]; intros Hb; [contradiction|].
  destruct Hb as [->|Hb]; [exists a; split; [now left | assumption]|].
  destruct (IH Hb) as [a' [Ha' Hr]]. exists a'. split; [now right | assumption].
Qed.

Lemma numeric_column_In (name : string) (df : DataFrame) (l : list float64) (x : float64) :
  numeric_column name df = Ok l -> In x l ->
  exists i r, positions name (columns df) = [i] /\ In r (rows df) /\ get i r = CNum x.
Proof.
  unfold numeric_column. intros H Hx.
  destruct (series_position ValueError name df) as [i|] eqn:Ei; [|discriminate].
  cbn [bind] in H. apply series_position_nth in Ei.
  destruct (mapM_In _ _ _ _ H Hx) as [c [Hc Ec]].
  unfold column_at in Hc. apply in_map_iff in Hc. destruct Hc as [r [<- Hr]].
  exists i, r. split; [assumption|]. split; [assumption|].
  destruct (get i r) as [s|z]; [discriminate|]. now inversion Ec.
Qed.

Section PipelineCoordinates.

Variable parse_float : string -> float64.
Variable str_of_float : float64 -> string.
Variable col_mean : list float64 -> float64.
Variable col_scale : list float64 -> float64.

Lemma trained_coordinate_present (raw df : DataFrame) (t : Trained) (name : string)
    (l : list float64) (x : float64) :
  In name ["latitude"; "longitude"] ->
  clean parse_float str_of_float raw = Ok df ->
  train_model col_mean col_scale df = Ok t ->
  numeric_column name (df_model t) = Ok l -> In x l -> is_nan x = false.
Proof.
  intros Hname Hc Ht Hl Hx.
  destruct (numeric_column_In name (df_model t) l x Hl Hx) as (i & r' & Ei & Hr' & Eg).
  apply train_model_inv in Ht.
  destruct Ht as (dfm0 & ict & y0 & y3 & y4 & y5 & lon & lat & y_enc & matrix & st & Ht).
  destruct Ht as (Ed & Eict & Ey0 & Em & _).
  destruct (dropna_rows _ _ _ Ed) as [Ecols Hrows].
  rewrite Em in Ei, Hr'. cbn [columns rows assign_column] in Ei, Hr'.
  pose proof (assign_rows_relabel ict (fun x => cell_of_label (relabel (rare_categories y0) x))
                (rows dfm0) y0 Ey0) as F.
  unfold collapse in Hr'. rewrite map_map in Hr'.
  destruct (Forall2_In_r _ _ _ r' F Hr') as [r [Hr (z & _ & _ & ->)]].
  assert (Hne : ict <> i).
  { apply (positions_distinct "crime_type" name (columns dfm0)).
    - destruct Hname as [<-|[<-|[]]]; discriminate.
    - rewrite Eict. now left.
    - rewrite Ei. now left. }
  rewrite get_update_other in Eg by assumption.
  apply Hrows in Hr. rewrite Ecols in Ei.
  apply clean_inv in Hc.
  destruct Hc as (ilon & ilat & iloc & E1 & E2 & E3 & _ & _ & ->).
  cbn [columns rows] in *.
  apply clean_rows_In in Hr. destruct Hr as [Hcomplete _].
  assert (Hi : In i (required_positions (List.map normalize_name (columns raw)))).
  { unfold required_positions, required. cbn [List.map concat].
    destruct Hname as [<-|[<-|[]]]; rewrite Ei; rewrite ?E1, ?E2;
      repeat (apply in_or_app; first [left; now left | right]). }
  pose proof (complete_In _ _ _ Hcomplete Hi) as N. rewrite Eg in N. exact N.
Qed.

(** X15. In [main] the model is trained on what the loader returned, so a
    training that returns has seen finite coordinates only: no longitude
    and no latitude of the training subset is missing, NaN or infinite.
    (A cleaned table that holds an infinite coordinate in a record with an
    LSOA code and name makes [train_model] raise.) *)
Theorem pipeline_coordinates_finite (raw df : DataFrame) (t : Trained) :
  clean parse_float str_of_float raw = Ok df ->
  train_model col_mean col_scale df = Ok t ->
  exists lon lat,
    numeric_column "longitude" (df_model t) = Ok lon /\
    numeric_column "latitude" (df_model t) = Ok lat /\
    List.Forall (fun x => is_finite x = true) lon /\
    List.Forall (fun x => is_finite x = true) lat.
Proof.
  intros Hc Ht. pose proof Ht as Ht'. apply train_model_inv in Ht'.
  destruct Ht' as (dfm0 & ict & y0 & y3 & y4 & y5 & lon & lat & y_enc & matrix & st & H).
  destruct H as (_ & _ & _ & _ & _ & _ & _ & _ & _ & Hlon & Hlat & Hchk & _).
  exists lon, lat. split; [assumption|]. split; [assumption|].
  assert (L : length lon = length lat).
  { unfold numeric_column in Hlon, Hlat.
    destruct (series_position ValueError "longitude" (df_model t)); [|discriminate].
    destruct (series_position ValueError "latitude" (df_model t)); [|discriminate].
    cbn [bind] in Hlon, Hlat. apply mapM_length in Hlon, Hlat.
    unfold column_at in Hlon, Hlat. rewrite length_map in Hlon, Hlat. congruence. }
  destruct (check_no_infinity _ Hchk) as [_ Hall].
  destruct (Forall_zip_fst (fun x => is_inf x = false) (fun x => is_inf x = false)
              lon lat L Hall) as [Ilon Ilat].
  rewrite List.Forall_forall in Ilon, Ilat.
  split; apply List.Forall_forall; intros x Hx.
  - pose proof (trained_coordinate_present raw df t "longitude" lon x
                  ltac:(simpl; tauto) Hc Ht Hlon Hx) as N.
    specialize (Ilon x Hx). destruct x; try discriminate; reflexivity.
  - pose proof (trained_coordinate_present raw df t "latitude" lat x
                  ltac:(simpl; tauto) Hc Ht Hlat Hx) as N.
    specialize (Ilat x Hx). destruct x; try discriminate; reflexivity.
Qed.

End PipelineCoordinates.

Lemma pipeline_coordinates_finite_witness :
  clean parse_whole str_class raw_example = Ok cleaned_example /\
  train_model plain_mean plain_scale cleaned_example = Ok trained_example /\
  exists lon lat,
    numeric_column "longitude" (df_model trained_example) = Ok lon /\
    numeric_column "latitude" (df_model trained_example) = Ok lat /\
    List.Forall (fun x => is_finite x = true) lon /\
    List.Forall (fun x => is_finite x = true) lat.
Proof.
  assert (E1 : clean parse_whole str_class raw_example = Ok cleaned_example)
    by (vm_compute; reflexivity).
  assert (E2 : train_model plain_mean plain_scale cleaned_example = Ok trained_example)
    by (vm_compute; reflexivity).
  split; [exact E1|]. split; [exact E2|].
  exact (pipeline_coordinates_finite parse_whole str_class plain_mean plain_scale
           raw_example cleaned_example trained_example E1 E2).
Defined.

Lemma forecast_failures_witness :
  train_model plain_mean plain_scale no_outcome_table = Ok trained_no_outcome /\
  fst (future_incidents first_class (mkWorld words_zero trained_no_outcome)) = Err KeyError /\
  forecast_failure (df_model trained_no_outcome) KeyError.
Proof.
  assert (E1 : train_model plain_mean plain_scale no_outcome_table = Ok trained_no_outcome)
    by (vm_compute; reflexivity).
  assert (E2 : fst (future_incidents first_class (mkWorld words_zero trained_no_outcome))
               = Err KeyError) by (vm_compute; reflexivity).
  split; [exact E1|]. split; [exact E2|].
  exact (forecast_failures plain_mean plain_scale first_class no_outcome_table
           trained_no_outcome words_zero KeyError E1 E2).
Defined.

(** ** [np.random.uniform] between two floats *)

(** X16. [np.random.uniform(low, high, size)] for binary64 bounds with
    [low <= high], whatever the generator holds: when [high - low] is
    finite it returns [size] values, each of them inside the closed
    interval from [low] to [high] although [low + (high - low) * u] is
    rounded three times; when [high - low] is not finite it raises
    [OverflowError] and returns nothing. *)
Theorem uniform_in_range (low high : float64) (size : nat) (g : RandomState) :
  valid_float low -> valid_float high -> fleb low high = true ->
  match fst (uniform low high size g) with
  | Ok xs => is_finite (fsub high low) = true /\ length xs = size /\
             List.Forall (within low high) xs
  | Err e => is_finite (fsub high low) = false /\ e = OverflowError
  end.
Proof.
  intros Vl Vh Hle.
  pose proof (uniform_within low high size g) as W.
  pose proof (uniform_spec low high size g) as S.
  unfold uniform in *. destruct (is_finite (fsub high low)) eqn:F.
  - destruct (fill size low (fsub high low) g) as [xs g']. cbn [fst] in *.
    split; [reflexivity|]. split; [assumption|].
    apply (W xs Vl Vh); [intros _; exact Hle | reflexivity].
  - cbn [fst]. now split.
Qed.

Lemma uniform_in_range_witness :
  valid_float (float_of_nat 1) /\ valid_float (float_of_nat 3) /\
  fleb (float_of_nat 1) (float_of_nat 3) = true /\
  match fst (uniform (float_of_nat 1) (float_of_nat 3) 3 words_counting) with
  | Ok xs => is_finite (fsub (float_of_nat 3) (float_of_nat 1)) = true /\ length xs = 3 /\
             List.Forall (within (float_of_nat 1) (float_of_nat 3)) xs
  | Err e => is_finite (fsub (float_of_nat 3) (float_of_nat 1)) = false /\ e = OverflowError
  end.
Proof.
  split; [reflexivity|]. split; [reflexivity|]. split; [reflexivity|].
  apply (uniform_in_range (float_of_nat 1) (float_of_nat 3) 3 words_counting); reflexivity.
Defined.

(** ** The coordinates the forecast stores *)

Lemma build_rows_coordinates (m : nat) (xy : list (float64 * float64)) :
  forall rb fw loc pred,
    length rb = length xy -> length fw = length xy -> length loc = length xy ->
    length pred = length xy ->
    List.map (fun r => (longitude r, latitude r)) (build_rows m xy rb fw loc pred) = xy.
Proof.
  induction xy as [|[x1 x2] xy IH]; intros [|a rb] [|b fw] [|c loc] [|l pred] L1 L2 L3 L4;
    cbn [length] in *; try discriminate; [reflexivity|].
  cbn [build_rows List.map longitude latitude fst snd]. f_equal.
  apply IH; lia.
Qed.

Lemma length_build_matrix_min (xy : list (float64 * float64)) :
  forall rb fw loc,
    length rb = length xy -> length fw = length xy -> length loc = length xy ->
    length (build_matrix xy rb fw loc) = length xy.
Proof.
  intros rb fw loc L1 L2 L3. now apply length_build_matrix.
Qed.

Section StoredCoordinates.

Variable vote : list (list float64) -> list nat -> list float64 -> nat.

(** X17. The longitude and latitude a synthetic record keeps are not the
    sampled ones: line 190 overwrites them with their standardised values.
    In every period that returns, the coordinates of the batch are, record
    by record, [(x - mean) / scale] of the pair the two calls of
    [np.random.uniform] returned, with the means and scales fitted in
    training. *)
Theorem stored_coordinates_scaled (a b c d : float64) (m : nat) (w : World)
    (st : (float64 * float64) * (float64 * float64)) :
  scaler (trained w) = StandardScaler.mk (Some st) ->
  when_ok (fst (period vote a b c d m w))
    (fun batch =>
       exists lons lats,
         fst (np_random_uniform a b batch_size w) = Ok lons /\
         fst (np_random_uniform c d batch_size (snd (np_random_uniform a b batch_size w)))
         = Ok lats /\
         List.map (fun r => (longitude r, latitude r)) batch
         = List.map (StandardScaler.scale_row st) (zip lons lats)).
Proof.
  intros Hs. unfold period, bindM.
  pose proof (keeps_np_random_uniform a b batch_size w) as K1.
  destruct (np_random_uniform a b batch_size w) as [[lons|e] w1]; cbn [fst snd] in *;
    [|exact I].
  pose proof (keeps_np_random_uniform c d batch_size w1) as K2.
  destruct (np_random_uniform c d batch_size w1) as [[lats|e] w2]; cbn [fst snd] in *;
    [|exact I].
  pose proof (keeps_mode_codes "reported_by" w2) as K3.
  destruct (mode_codes "reported_by" w2) as [[rb|e] w3]; cbn [fst snd] in *; [|exact I].
  pose proof (keeps_mode_codes "falls_within" w3) as K4.
  destruct (mode_codes "falls_within" w3) as [[fw|e] w4]; cbn [fst snd] in *; [|exact I].
  pose proof (keeps_mode_codes "last_outcome_category" w4) as K5.
  destruct (mode_codes "last_outcome_category" w4) as [[loc|e] w5]; cbn [fst snd] in *;
    [|exact I].
  unfold lift.
  pose proof (same_length_spec (length lons) [length lats; length rb; length fw; length loc])
    as SL.
  destruct (same_length (length lons) [length lats; length rb; length fw; length loc])
    as [[]|e]; [|exact I].
  inversion SL as [|? ? L1 SL1]; subst. inversion SL1 as [|? ? L2 SL2]; subst.
  inversion SL2 as [|? ? L3 SL3]; subst. inversion SL3 as [|? ? L4 SL4]; subst.
  assert (Hs5 : scaler (trained w5) = StandardScaler.mk (Some st)) by congruence.
  unfold scaler_transform, StandardScaler.transform. rewrite Hs5.
  cbn [StandardScaler.fitted].
  destruct (StandardScaler.check (zip lons lats)); cbn [fst snd]; [|exact I].
  set (xy := List.map (StandardScaler.scale_row st) (zip lons lats)).
  assert (Lxy : length xy = length lons).
  { unfold xy. rewrite length_map. now apply length_zip. }
  unfold rf_predict, RandomForest.predict. cbn [rf with_scaler trained].
  destruct (RandomForest.fitted (rf (trained w5))) as [[classes [X0 y0]]|]; cbn [fst snd];
    [|exact I].
  destruct (RandomForest.check (build_matrix xy rb fw loc)); cbn [fst snd]; [|exact I].
  unfold target_inverse_transform, LabelEncoder.inverse_transform.
  cbn [le_target with_rf with_scaler trained].
  destruct (LabelEncoder.classes_ (le_target (trained w5))) as [cls|]; cbn [fst snd];
    [|exact I].
  destruct (mapM (LabelEncoder.decode cls) _) as [predicted|e] eqn:Ep; cbn [fst snd];
    [|exact I].
  unfold ret. cbn [fst when_ok]. exists lons, lats.
  split; [reflexivity|]. split; [reflexivity|].
  apply mapM_length in Ep. rewrite length_map in Ep.
  rewrite length_build_matrix_min in Ep by congruence.
  fold xy. apply build_rows_coordinates; lia.
Qed.

End StoredCoordinates.

Lemma stored_coordinates_scaled_witness :
  scaler (trained (mkWorld words_zero trained_example))
  = StandardScaler.mk
      (Some (match StandardScaler.fitted (scaler trained_example) with
             | Some st => st
             | None => ((nan, nan), (nan, nan))
             end)) /\
  when_ok (fst (period first_class (float_of_nat 1) (float_of_nat 3) (float_of_nat 53)
                  (float_of_nat 54) 1 (mkWorld words_zero trained_example)))
    (fun batch =>
       exists lons lats,
         fst (np_random_uniform (float_of_nat 1) (float_of_nat 3) batch_size
                (mkWorld words_zero trained_example)) = Ok lons /\
         fst (np_random_uniform (float_of_nat 53) (float_of_nat 54) batch_size
                (snd (np_random_uniform (float_of_nat 1) (float_of_nat 3) batch_size
                        (mkWorld words_zero trained_example))))
         = Ok lats /\
         List.map (fun r => (longitude r, latitude r)) batch
         = List.map (StandardScaler.scale_row
                       (match StandardScaler.fitted (scaler trained_example) with
                        | Some st => st
                        | None => ((nan, nan), (nan, nan))
                        end)) (zip lons lats)).
Proof.
  assert (E : scaler (trained (mkWorld words_zero trained_example))
              = StandardScaler.mk
                  (Some (match StandardScaler.fitted (scaler trained_example) with
                         | Some st => st
                         | None => ((nan, nan), (nan, nan))
                         end))) by reflexivity.
  split; [exact E|].
  exact (stored_coordinates_scaled first_class (float_of_nat 1) (float_of_nat 3)
           (float_of_nat 53) (float_of_nat 54) 1 (mkWorld words_zero trained_example) _ E).
Defined.
